(** * King Viewer: the asynchronous decode / caching core of [Code/viewer.py]

    A shallow embedding of the control-thread logic of the viewer: the
    bounded recency cache ([ImageCache]), the folder scanner
    ([FolderScanThread.run]), the decode dispatcher
    ([_request_load] / [_drop_loader]) and the navigation and preload
    controller of [MainWindow].

    Conventions.
    - Python [str] is [string]; Python [int] is [Z].
    - [OrderedDict] is an association list, oldest entry first; a plain
      [dict] used as a map is a [gmap], a [set] is a [gset].
    - A handler that may raise returns [exc _]; [IndexError] is the only
      exception the modelled handlers can raise.
    - Pixel data ([QImage]) is opaque: it is a type parameter. *)

From Stdlib Require Import ZArith Lia List Sorting Permutation.
From Stdlib Require Import Strings.String Strings.Ascii.
From stdpp Require Import base decidable option list gmap sets strings sorting.

Open Scope string_scope.
Open Scope list_scope.
Open Scope Z_scope.

(** ** Python containers *)

(** [dict[str, str]], as used for [info] and [meta]. *)
Abbreviation StrDict := (gmap string string).

Module OrderedDict.
(** Insertion order is the list order: the head is the oldest entry,
    the one [popitem(last=False)] removes. *)
Abbreviation t V := (list (string * V)).

Section Ops.
Context {V : Type}.
Implicit Types d : t V.

Definition keys d : list string := d.*1.

Fixpoint lookup (k : string) d : option V :=
  match d with
  | [] => None
  | (k', v) :: r => if decide (k = k') then Some v else lookup k r
  end.

Definition remove (k : string) d : t V :=
  filter (λ kv, kv.1 ≠ k) d.

(** [d.pop(k, None)]: the value (or [None]) and the dictionary left. *)
Definition pop (k : string) d : option V * t V :=
  (lookup k d, remove k d).

(** [d[k] = v]: a present key keeps its position, a new key goes last. *)
Fixpoint setitem (k : string) (v : V) d : t V :=
  match d with
  | [] => [(k, v)]
  | (k', v') :: r =>
      if decide (k = k') then (k, v) :: r else (k', v') :: setitem k v r
  end.

(** [k in d] *)
Definition mem (k : string) d : bool := bool_decide (k ∈ keys d).

(** [d.popitem(last=False)], on a non-empty dictionary. *)
Definition popitem_first d : t V := tail d.
End Ops.
End OrderedDict.

(** ** [CachedImage] and [ImageCache] *)

Section Cache.
Context {QImage : Type}.

Record CachedImage := mkCachedImage {
  qimage : QImage;
  info : StrDict;
  meta : StrDict;
}.

Record ImageCache := mkImageCache {
  capacity : Z;
  _items : OrderedDict.t CachedImage;
}.

(** [ImageCache.__init__] *)
Definition ImageCache_init (capacity0 : Z) : ImageCache :=
  {| capacity := Z.max 1 capacity0; _items := [] |}.

(** [ImageCache.get] *)
Definition get (path : string) (c : ImageCache) : option CachedImage * ImageCache :=
  let '(item, d) := OrderedDict.pop path (_items c) in
  match item with
  | None => (None, {| capacity := capacity c; _items := d |})
  | Some it =>
      (Some it, {| capacity := capacity c; _items := OrderedDict.setitem path it d |})
  end.

(** [while len(self._items) > self.capacity: self._items.popitem(last=False)].
    The loop body runs on a non-empty dictionary whenever the capacity is
    not negative, which [ImageCache_init] guarantees; the tail [r] is
    [OrderedDict.popitem_first d]. *)
Fixpoint evict_loop (cap : Z) (d : OrderedDict.t CachedImage) : OrderedDict.t CachedImage :=
  match d with
  | [] => []
  | _ :: r =>
      if decide (cap < Z.of_nat (length d))
      then evict_loop cap r
      else d
  end.

(** The dictionary of [put] just before the eviction loop. *)
Definition put_insert (path : string) (item : CachedImage)
    (d : OrderedDict.t CachedImage) : OrderedDict.t CachedImage :=
  let d1 := if OrderedDict.mem path d then (OrderedDict.pop path d).2 else d in
  OrderedDict.setitem path item d1.

(** [ImageCache.put] *)
Definition put (path : string) (item : CachedImage) (c : ImageCache) : ImageCache :=
  {| capacity := capacity c;
     _items := evict_loop (capacity c) (put_insert path item (_items c)) |}.

Definition cache_keys (c : ImageCache) : list string := OrderedDict.keys (_items c).

(** *** Operation sequences and recency *)

Inductive cache_op :=
| CGet (path : string)
| CPut (path : string) (item : CachedImage).

Definition cache_apply (c : ImageCache) (o : cache_op) : ImageCache :=
  match o with
  | CGet p => (get p c).2
  | CPut p it => put p it c
  end.

Definition cache_run (ops : list cache_op) (c : ImageCache) : ImageCache :=
  fold_left cache_apply ops c.

Definition touches (o : cache_op) (k : string) : bool :=
  match o with
  | CGet p => bool_decide (p = k)
  | CPut p _ => bool_decide (p = k)
  end.

(** The time (1-based position in the history, counted from [n]) of the
    last operation of [ops] that names [k]; [0] when there is none. *)
Fixpoint last_touch_from (n : nat) (k : string) (ops : list cache_op) : nat :=
  match ops with
  | [] => 0%nat
  | o :: r =>
      match last_touch_from (S n) k r with
      | O => if touches o k then S n else 0%nat
      | t => t
      end
  end.

Definition last_touch (k : string) (ops : list cache_op) : nat :=
  last_touch_from 0 k ops.

(** [a] was touched strictly before [b] in the history [ops]. *)
Definition older (ops : list cache_op) (a b : string) : Prop :=
  (last_touch a ops < last_touch b ops)%nat.

(** What every cache satisfies with respect to its history: the capacity
    is positive, the size is within it, and the keys are listed from the
    least to the most recently touched. *)
Definition lru_inv (ops : list cache_op) (c : ImageCache) : Prop :=
  1 ≤ capacity c
  ∧ Z.of_nat (length (_items c)) ≤ capacity c
  ∧ StronglySorted (older ops) (cache_keys c).
End Cache.
Arguments CachedImage : clear implicits.
Arguments ImageCache : clear implicits.
Arguments cache_op : clear implicits.

(** ** Exceptions and Python list indexing *)

Inductive exn := IndexError | OSError.

Inductive exc (A : Type) :=
| Ret (a : A)
| Raise (e : exn).
Arguments Ret {A} a.
Arguments Raise {A} e.

#[global] Instance exc_ret : MRet exc := @Ret.
#[global] Instance exc_bind : MBind exc := λ A B f m,
  match m with
  | Ret a => f a
  | Raise e => Raise e
  end.

(** The position a Python index denotes: a negative index counts from the
    end. *)
Definition py_norm_index (len i : Z) : Z :=
  if decide (i < 0) then i + len else i.

(** [l[i]] *)
Definition py_getitem {A} (l : list A) (i : Z) : exc A :=
  let j := py_norm_index (Z.of_nat (length l)) i in
  if decide (0 ≤ j < Z.of_nat (length l)) then
    match l !! Z.to_nat j with
    | Some x => Ret x
    | None => Raise IndexError
    end
  else Raise IndexError.

(** [l.pop(i)]: the element removed and the list left. *)
Definition py_pop {A} (l : list A) (i : Z) : exc (A * list A) :=
  let j := py_norm_index (Z.of_nat (length l)) i in
  if decide (0 ≤ j < Z.of_nat (length l)) then
    match l !! Z.to_nat j with
    | Some x => Ret (x, delete (Z.to_nat j) l)
    | None => Raise IndexError
    end
  else Raise IndexError.

(** [l.index(x)], when [x in l]: the first position of [x]. *)
Fixpoint py_index (x : string) (l : list string) : option Z :=
  match l with
  | [] => None
  | y :: r => if decide (x = y) then Some 0 else Z.succ <$> py_index x r
  end.

(** [l.remove(x)]: drops the first occurrence. *)
Fixpoint py_remove {A} `{EqDecision A} (x : A) (l : list A) : list A :=
  match l with
  | [] => []
  | y :: r => if decide (x = y) then r else y :: py_remove x r
  end.

(** ** Strings: [str.lower] and [os.path.splitext]

    A [string] is the UTF-8 byte sequence of the Python [str]. Comparing
    byte sequences orders them as Python orders the code points.
    [str_lower] maps the ASCII capitals only. The one character outside
    ASCII whose lower-case form is an ASCII letter is the Kelvin sign,
    which becomes [k], a letter of no supported extension: membership of
    the lowered extension in [SUPPORTED_EXTENSIONS] is unaffected. *)

Definition ascii_lower (c : ascii) : ascii :=
  let n := N_of_ascii c in
  if ((65 <=? n) && (n <=? 90))%N then ascii_of_N (n + 32) else c.

Definition str_lower (s : string) : string :=
  string_of_list_ascii (ascii_lower <$> list_ascii_of_string s).

(** [ascii_lower] leaves [c] alone and maps nothing else onto it. *)
Definition case_blind (c : ascii) : Prop := ∀ x, ascii_lower x = c ↔ x = c.

(** [p.rfind(c)] for a one-character [c]: the last position, or [-1]. *)
Fixpoint rfind (c : ascii) (p : list ascii) : Z :=
  match p with
  | [] => -1
  | x :: r =>
      let j := rfind c r in
      if decide (0 ≤ j) then j + 1
      else if decide (x = c) then 0 else -1
  end.

(** [p[lo:hi]] for [0 <= lo]. *)
Definition py_slice {A} (lo hi : Z) (p : list A) : list A :=
  take (Z.to_nat (hi - lo)) (drop (Z.to_nat lo) p).

(** [genericpath._splitext(p, sep, altsep, extsep)[1]]: the extension
    starts at the last dot of the last path component, unless that
    component has only dots before it. *)
Definition _splitext_ext (p : list ascii) (sep : ascii) (altsep : option ascii)
    (extsep : ascii) : list ascii :=
  let sepIndex :=
    match altsep with
    | Some a => Z.max (rfind sep p) (rfind a p)
    | None => rfind sep p
    end in
  let dotIndex := rfind extsep p in
  if decide (sepIndex < dotIndex) then
    if existsb (λ c, bool_decide (c ≠ extsep)) (py_slice (sepIndex + 1) dotIndex p)
    then drop (Z.to_nat dotIndex) p
    else []
  else [].

(** [os.path.splitext(p)[1]] of [ntpath]: separators ["\\"] and ["/"]. *)
Definition splitext_ext (p : string) : string :=
  string_of_list_ascii
    (_splitext_ext (list_ascii_of_string p) "\"%char (Some "/"%char) "."%char).

(** ** Module constants *)

Definition SUPPORTED_EXTENSIONS : gset string :=
  {[ ".jpg"; ".jpeg"; ".png"; ".bmp"; ".gif"; ".webp"; ".tif"; ".tiff";
     ".heic"; ".heif"; ".cr2"; ".nef"; ".arw"; ".dng" ]}.

Definition RAW_EXTENSIONS : gset string :=
  {[ ".cr2"; ".nef"; ".arw"; ".dng" ]}.

(** ** [FolderScanThread] *)

(** What [os.scandir] yields for one child of the folder; [is_file()] is
    taken to answer without raising. *)
Record DirEntry := mkDirEntry {
  entry_name : string;
  entry_path : string;
  entry_is_file : bool;
}.

(** The dictionary [{"files": ..., "index": ...}] of the [scanned] signal. *)
Record ScanPayload := mkScanPayload {
  payload_files : list string;
  payload_index : Z;
}.

Record FolderScanThread := mkFolderScanThread {
  scan_token : Z;
  scan_folder : string;
  scan_selected : option string;
}.

(** Truth value of a [str]. *)
Definition str_truthy (s : string) : bool := negb (String.eqb s "").

(** [files.sort()] on a list of [str]. *)
Definition str_le (a b : string) : Prop := String.leb a b = true.

#[global] Instance str_le_dec : RelDecision str_le.
Proof. intros a b. unfold str_le. apply _. Defined.

Definition list_sort (l : list string) : list string := merge_sort str_le l.

Section Scanner.
(** [os.path.abspath], and the file system as [os.scandir] reads it:
    the entries of a folder, or the exception it raises. *)
Variable abspath : string → string.
Variable scandir : string → exc (list DirEntry).

(** [FolderScanThread.__init__] *)
Definition FolderScanThread_init (token : Z) (folder : string)
    (selected : option string) : FolderScanThread :=
  {| scan_token := token;
     scan_folder := folder;
     scan_selected :=
       match selected with
       | Some s => if str_truthy s then Some (abspath s) else None
       | None => None
       end |}.

(** The test of the scan loop on one entry. *)
Definition entry_supported (e : DirEntry) : bool :=
  entry_is_file e
  && bool_decide (str_lower (splitext_ext (entry_name e)) ∈ SUPPORTED_EXTENSIONS).

(** The [for entry in entries] loop: the paths appended to [files]. *)
Definition scan_entries (entries : list DirEntry) : list string :=
  (λ e, abspath (entry_path e)) <$> filter (λ e, entry_supported e = true) entries.

(** The [index] computed after sorting. *)
Definition start_index (selected : option string) (files : list string) : Z :=
  match selected with
  | Some s =>
      if str_truthy s && bool_decide (s ∈ files)
      then default 0 (py_index s files)
      else 0
  | None => 0
  end.

(** [FolderScanThread.run]: the arguments of the one [scanned] signal it
    emits. *)
Definition FolderScanThread_run (t : FolderScanThread) : Z * string * ScanPayload :=
  match scandir (scan_folder t) with
  | Ret entries =>
      let files := list_sort (scan_entries entries) in
      let index := start_index (scan_selected t) files in
      (scan_token t, scan_folder t, {| payload_files := files; payload_index := index |})
  | Raise _ =>
      (scan_token t, scan_folder t, {| payload_files := []; payload_index := 0 |})
  end.
End Scanner.

(** *** The scanner's filter as the specification words it

    The specification lists the files "whose extension belongs to a fixed
    supported-format set (case-insensitive)". The three definitions below
    say this without [rfind], slices or [str_lower]; the scan loop is
    compared with them. *)







(** ** Worker threads and user-visible notices *)

Record ImageLoaderThread := mkImageLoaderThread {
  th_request_id : Z;
  th_path : string;
  th_role : string;
}.

#[global] Instance ImageLoaderThread_eq_dec : EqDecision ImageLoaderThread.
Proof. solve_decision. Defined.

Record ThumbnailLoaderThread := mkThumbnailLoaderThread {
  thumb_token : Z;
  thumb_files : list string;
  thumb_size : Z * Z;
}.

(** The transient status-bar messages and the message box of the window;
    each carries the path the message names. *)
Inductive Notice :=
| ScanningFolder
| NoSupportedImages
| LoadingImage
| FailedToLoad (path : string)
| SkippedCorrupted (path : string)
| SelectedOnly (index : Z) (total : Z) (path : string).

(** [{path: idx for idx, path in enumerate(files)}], counting from [i]:
    a later position overwrites an earlier one. *)
Fixpoint enumerate_index (i : Z) (files : list string) (m : gmap string Z) : gmap string Z :=
  match files with
  | [] => m
  | p :: r => enumerate_index (i + 1) r (<[p := i]> m)
  end.

(** ** [ImageViewer] and [MainWindow]

    Widgets that are only written to (the thumbnail list, the metadata
    panel, the status labels, the window title) are left out; the row a
    handler reads from the thumbnail list is an argument of the handler.
    The zoom factor of the viewer, a float, is left out too. *)

Section Window.
Context {QImage : Type}.
Variable abspath : string → string.
Variable basename : string → string.

Record ImageViewer := mkImageViewer {
  _item : option QImage;
  _fit_mode : bool;
  _rotation : Z;
}.

(** [ImageViewer.__init__] *)
Definition ImageViewer_init : ImageViewer :=
  {| _item := None; _fit_mode := true; _rotation := 0 |}.

(** [ImageViewer.set_image]; its [fit_to_view] finds an item and sets
    [_fit_mode]. *)
Definition set_image (q : QImage) (v : ImageViewer) : ImageViewer :=
  {| _item := Some q; _fit_mode := true; _rotation := 0 |}.

(** [ImageViewer.clear_view] *)
Definition clear_view (v : ImageViewer) : ImageViewer :=
  {| _item := None; _fit_mode := _fit_mode v; _rotation := 0 |}.

(** [ImageViewer.rotate_clockwise] *)
Definition rotate_clockwise (v : ImageViewer) : ImageViewer :=
  match _item v with
  | None => v
  | Some _ =>
      {| _item := _item v; _fit_mode := _fit_mode v;
         _rotation := (_rotation v + 90) `mod` 360 |}
  end.

Record MainWindow := mkMainWindow {
  image_files : list string;
  current_index : Z;
  cache : ImageCache QImage;
  current_info : StrDict;
  current_meta : StrDict;
  _thumb_preview : gmap string QImage;
  _thumb_index : gmap string Z;
  _inflight_loads : gset string;
  _request_id : Z;
  _scan_token : Z;
  _thumb_token : Z;
  _loaders : list ImageLoaderThread;
  scan_thread : option FolderScanThread;
  thumb_thread : option ThumbnailLoaderThread;
  viewer : ImageViewer;
  notices : list Notice;
}.

(** Attribute assignment, one setter per attribute. *)
Definition set_image_files (v : list string) (w : MainWindow) : MainWindow :=
  mkMainWindow v (current_index w) (cache w) (current_info w)
    (current_meta w) (_thumb_preview w) (_thumb_index w) (_inflight_loads w)
    (_request_id w) (_scan_token w) (_thumb_token w) (_loaders w)
    (scan_thread w) (thumb_thread w) (viewer w) (notices w).

Definition set_current_index (v : Z) (w : MainWindow) : MainWindow :=
  mkMainWindow (image_files w) v (cache w) (current_info w) (current_meta w)
    (_thumb_preview w) (_thumb_index w) (_inflight_loads w) (_request_id w)
    (_scan_token w) (_thumb_token w) (_loaders w) (scan_thread w)
    (thumb_thread w) (viewer w) (notices w).

Definition set_cache (v : ImageCache QImage) (w : MainWindow) : MainWindow :=
  mkMainWindow (image_files w) (current_index w) v (current_info w)
    (current_meta w) (_thumb_preview w) (_thumb_index w) (_inflight_loads w)
    (_request_id w) (_scan_token w) (_thumb_token w) (_loaders w)
    (scan_thread w) (thumb_thread w) (viewer w) (notices w).

Definition set_current_info (v : StrDict) (w : MainWindow) : MainWindow :=
  mkMainWindow (image_files w) (current_index w) (cache w) v
    (current_meta w) (_thumb_preview w) (_thumb_index w) (_inflight_loads w)
    (_request_id w) (_scan_token w) (_thumb_token w) (_loaders w)
    (scan_thread w) (thumb_thread w) (viewer w) (notices w).

Definition set_current_meta (v : StrDict) (w : MainWindow) : MainWindow :=
  mkMainWindow (image_files w) (current_index w) (cache w) (current_info w)
    v (_thumb_preview w) (_thumb_index w) (_inflight_loads w)
    (_request_id w) (_scan_token w) (_thumb_token w) (_loaders w)
    (scan_thread w) (thumb_thread w) (viewer w) (notices w).

Definition set_thumb_preview (v : gmap string QImage) (w : MainWindow) : MainWindow :=
  mkMainWindow (image_files w) (current_index w) (cache w) (current_info w)
    (current_meta w) v (_thumb_index w) (_inflight_loads w) (_request_id w)
    (_scan_token w) (_thumb_token w) (_loaders w) (scan_thread w)
    (thumb_thread w) (viewer w) (notices w).

Definition set_thumb_index (v : gmap string Z) (w : MainWindow) : MainWindow :=
  mkMainWindow (image_files w) (current_index w) (cache w) (current_info w)
    (current_meta w) (_thumb_preview w) v (_inflight_loads w)
    (_request_id w) (_scan_token w) (_thumb_token w) (_loaders w)
    (scan_thread w) (thumb_thread w) (viewer w) (notices w).

Definition set_inflight_loads (v : gset string) (w : MainWindow) : MainWindow :=
  mkMainWindow (image_files w) (current_index w) (cache w) (current_info w)
    (current_meta w) (_thumb_preview w) (_thumb_index w) v (_request_id w)
    (_scan_token w) (_thumb_token w) (_loaders w) (scan_thread w)
    (thumb_thread w) (viewer w) (notices w).

Definition set_request_id (v : Z) (w : MainWindow) : MainWindow :=
  mkMainWindow (image_files w) (current_index w) (cache w) (current_info w)
    (current_meta w) (_thumb_preview w) (_thumb_index w) (_inflight_loads w)
    v (_scan_token w) (_thumb_token w) (_loaders w) (scan_thread w)
    (thumb_thread w) (viewer w) (notices w).

Definition set_scan_token (v : Z) (w : MainWindow) : MainWindow :=
  mkMainWindow (image_files w) (current_index w) (cache w) (current_info w)
    (current_meta w) (_thumb_preview w) (_thumb_index w) (_inflight_loads w)
    (_request_id w) v (_thumb_token w) (_loaders w) (scan_thread w)
    (thumb_thread w) (viewer w) (notices w).

Definition set_thumb_token (v : Z) (w : MainWindow) : MainWindow :=
  mkMainWindow (image_files w) (current_index w) (cache w) (current_info w)
    (current_meta w) (_thumb_preview w) (_thumb_index w) (_inflight_loads w)
    (_request_id w) (_scan_token w) v (_loaders w) (scan_thread w)
    (thumb_thread w) (viewer w) (notices w).

Definition set_loaders (v : list ImageLoaderThread) (w : MainWindow) : MainWindow :=
  mkMainWindow (image_files w) (current_index w) (cache w) (current_info w)
    (current_meta w) (_thumb_preview w) (_thumb_index w) (_inflight_loads w)
    (_request_id w) (_scan_token w) (_thumb_token w) v (scan_thread w)
    (thumb_thread w) (viewer w) (notices w).

Definition set_scan_thread (v : option FolderScanThread) (w : MainWindow) : MainWindow :=
  mkMainWindow (image_files w) (current_index w) (cache w) (current_info w)
    (current_meta w) (_thumb_preview w) (_thumb_index w) (_inflight_loads w)
    (_request_id w) (_scan_token w) (_thumb_token w) (_loaders w) v
    (thumb_thread w) (viewer w) (notices w).

Definition set_thumb_thread (v : option ThumbnailLoaderThread) (w : MainWindow) : MainWindow :=
  mkMainWindow (image_files w) (current_index w) (cache w) (current_info w)
    (current_meta w) (_thumb_preview w) (_thumb_index w) (_inflight_loads w)
    (_request_id w) (_scan_token w) (_thumb_token w) (_loaders w)
    (scan_thread w) v (viewer w) (notices w).

Definition set_viewer (v : ImageViewer) (w : MainWindow) : MainWindow :=
  mkMainWindow (image_files w) (current_index w) (cache w) (current_info w)
    (current_meta w) (_thumb_preview w) (_thumb_index w) (_inflight_loads w)
    (_request_id w) (_scan_token w) (_thumb_token w) (_loaders w)
    (scan_thread w) (thumb_thread w) v (notices w).

Definition set_notices (v : list Notice) (w : MainWindow) : MainWindow :=
  mkMainWindow (image_files w) (current_index w) (cache w) (current_info w)
    (current_meta w) (_thumb_preview w) (_thumb_index w) (_inflight_loads w)
    (_request_id w) (_scan_token w) (_thumb_token w) (_loaders w)
    (scan_thread w) (thumb_thread w) (viewer w) v.

Definition add_notice (n : Notice) (w : MainWindow) : MainWindow :=
  set_notices (notices w ++ [n]) w.

(** [MainWindow.__init__] *)
Definition MainWindow_init : MainWindow :=
  {| image_files := [];
     current_index := -1;
     cache := ImageCache_init 15;
     current_info := ∅;
     current_meta := ∅;
     _thumb_preview := ∅;
     _thumb_index := ∅;
     _inflight_loads := ∅;
     _request_id := 0;
     _scan_token := 0;
     _thumb_token := 0;
     _loaders := [];
     scan_thread := None;
     thumb_thread := None;
     viewer := ImageViewer_init;
     notices := [] |}.

(** *** Decode dispatcher *)

(** [MainWindow._request_load]: the request id, or [None] when the path
    is already being decoded. A started worker is a thread appended to
    [_loaders]. *)
Definition _request_load (path role : string) (w : MainWindow) : option Z * MainWindow :=
  if bool_decide (path ∈ _inflight_loads w) then (None, w)
  else
    let req := _request_id w + 1 in
    let thread := {| th_request_id := req; th_path := path; th_role := role |} in
    (Some req,
     set_loaders (_loaders w ++ [thread])
       (set_inflight_loads ({[path]} ∪ _inflight_loads w)
          (set_request_id req w))).

(** [MainWindow._drop_loader], the slot of a thread's [finished] signal. *)
Definition _drop_loader (thread : ImageLoaderThread) (w : MainWindow) : MainWindow :=
  let w1 := set_inflight_loads (_inflight_loads w ∖ {[th_path thread]}) w in
  if bool_decide (thread ∈ _loaders w1)
  then set_loaders (py_remove thread (_loaders w1)) w1
  else w1.

(** [ImageLoaderThread.run]: the arguments of the one [loaded] signal it
    emits, given the outcome of [decode_image]. *)
Definition ImageLoaderThread_run
    (decode_image : string → exc (QImage * StrDict * StrDict))
    (t : ImageLoaderThread)
    : Z * string * option QImage * option StrDict * option StrDict * string :=
  match decode_image (th_path t) with
  | Ret (q, i, m) => (th_request_id t, th_path t, Some q, Some i, Some m, th_role t)
  | Raise _ => (th_request_id t, th_path t, None, None, None, th_role t)
  end.

(** *** Navigation and preload controller *)

(** [MainWindow._display] *)
Definition _display (path : string) (cached : CachedImage QImage)
    (w : MainWindow) : MainWindow :=
  set_current_meta (meta cached)
    (set_current_info (info cached)
       (set_viewer (set_image (qimage cached) (viewer w)) w)).

(** [MainWindow._populate_thumbnails] *)
Definition _populate_thumbnails (w : MainWindow) : MainWindow :=
  set_thumb_index (enumerate_index 0 (image_files w) ∅) w.

(** [MainWindow._start_thumbnail_loader] *)
Definition _start_thumbnail_loader (w : MainWindow) : MainWindow :=
  let token := _thumb_token w + 1 in
  set_thumb_thread
    (Some {| thumb_token := token; thumb_files := image_files w; thumb_size := (200, 140) |})
    (set_thumb_token token w).

(** One round of the loop [for off in (-1, 1)] of [_preload_neighbors]. *)
Definition preload_step (off : Z) (w : MainWindow) : exc MainWindow :=
  let idx := current_index w + off in
  if decide (0 ≤ idx < Z.of_nat (length (image_files w))) then
    path ← py_getitem (image_files w) idx;
    let '(cached, c) := get path (cache w) in
    let w1 := set_cache c w in
    match cached with
    | None => mret (_request_load path "preload" w1).2
    | Some _ => mret w1
    end
  else mret w.

(** [MainWindow._preload_neighbors] *)
Definition _preload_neighbors (w : MainWindow) : exc MainWindow :=
  match image_files w with
  | [] => mret w
  | _ => w1 ← preload_step (-1) w; preload_step 1 w1
  end.

(** The provisional display of [load_current]: a preview with placeholder
    information. *)
Definition show_preview (path : string) (preview : QImage) (w : MainWindow) : MainWindow :=
  set_current_meta ∅
    (set_current_info
       (<["filename" := basename path]>
          (<["resolution" := "Preview"]> (<["mode" := "RGB"]> ∅)))
       (set_viewer (set_image preview (viewer w)) w)).

(** The body of [load_current] between the range check and the preload:
    display the cached image, or show the preview if there is one and
    request the decode. *)
Definition display_or_request (path : string) (w : MainWindow) : MainWindow :=
  let '(cached, c) := get path (cache w) in
  let w1 := set_cache c w in
  match cached with
  | Some ci => _display path ci w1
  | None =>
      let w2 :=
        match _thumb_preview w1 !! path with
        | Some preview => show_preview path preview w1
        | None => w1
        end in
      add_notice LoadingImage (_request_load path "main" w2).2
  end.

(** [MainWindow.load_current] *)
Definition load_current (w : MainWindow) : exc MainWindow :=
  if decide (0 ≤ current_index w < Z.of_nat (length (image_files w))) then
    path ← py_getitem (image_files w) (current_index w);
    _preload_neighbors (display_or_request path w)
  else mret w.

(** [MainWindow._scan_folder] *)
Definition _scan_folder (folder : string) (selected : option string)
    (w : MainWindow) : MainWindow :=
  let w1 := add_notice ScanningFolder w in
  let token := _scan_token w1 + 1 in
  set_scan_thread (Some (FolderScanThread_init abspath token folder selected))
    (set_scan_token token w1).

(** [MainWindow._on_scanned] *)
Definition _on_scanned (token : Z) (folder : string) (payload : ScanPayload)
    (w : MainWindow) : exc MainWindow :=
  if decide (token ≠ _scan_token w) then mret w
  else
    let files := payload_files payload in
    let index := payload_index payload in
    match files with
    | [] => mret (add_notice NoSupportedImages w)
    | _ =>
        let w1 := set_image_files files w in
        let w2 := set_thumb_preview ∅ w1 in
        let w3 := set_thumb_index (enumerate_index 0 (image_files w2) ∅) w2 in
        let w4 :=
          set_current_index
            (Z.max 0 (Z.min index (Z.of_nat (length files) - 1))) w3 in
        load_current (_start_thumbnail_loader (_populate_thumbnails w4))
    end.

(** [MainWindow._on_thumbnail_ready] *)
Definition _on_thumbnail_ready (token : Z) (path : string) (q : QImage)
    (w : MainWindow) : MainWindow :=
  if decide (token ≠ _thumb_token w) then w
  else set_thumb_preview (<[path := q]> (_thumb_preview w)) w.

(** [MainWindow.on_thumbnail_clicked], for the row of the clicked item. *)
Definition on_thumbnail_clicked (row : Z) (w : MainWindow) : exc MainWindow :=
  if decide (0 ≤ row < Z.of_nat (length (image_files w)))
  then load_current (set_current_index row w)
  else mret w.

(** [MainWindow.rotate_image] *)
Definition rotate_image (w : MainWindow) : MainWindow :=
  set_viewer (rotate_clockwise (viewer w)) w.

(** [MainWindow.next_image] *)
Definition next_image (w : MainWindow) : exc MainWindow :=
  match image_files w with
  | [] => mret w
  | _ =>
      load_current
        (set_current_index
           ((current_index w + 1) `mod` Z.of_nat (length (image_files w))) w)
  end.

(** [MainWindow.prev_image] *)
Definition prev_image (w : MainWindow) : exc MainWindow :=
  match image_files w with
  | [] => mret w
  | _ =>
      load_current
        (set_current_index
           ((current_index w - 1) `mod` Z.of_nat (length (image_files w))) w)
  end.

(** [MainWindow._move_selection_only] *)
Definition _move_selection_only (step : Z) (w : MainWindow) : exc MainWindow :=
  match image_files w with
  | [] => mret w
  | _ =>
      let w1 :=
        set_current_index
          ((current_index w + step) `mod` Z.of_nat (length (image_files w))) w in
      path ← py_getitem (image_files w1) (current_index w1);
      mret (add_notice
              (SelectedOnly (current_index w1 + 1)
                 (Z.of_nat (length (image_files w1))) path) w1)
  end.

(** [MainWindow._open_selected], for the current row of the thumbnail
    list. *)
Definition _open_selected (row : Z) (w : MainWindow) : exc MainWindow :=
  match image_files w with
  | [] => mret w
  | _ =>
      let w1 :=
        if decide (0 ≤ row < Z.of_nat (length (image_files w)))
        then set_current_index row w else w in
      load_current w1
  end.

(** [self.image_files[self.current_index] if self.image_files and
    self.current_index >= 0 else None] *)
Definition cur_path (w : MainWindow) : exc (option string) :=
  match image_files w with
  | [] => mret None
  | _ =>
      if decide (0 ≤ current_index w)
      then p ← py_getitem (image_files w) (current_index w); mret (Some p)
      else mret None
  end.

(** [MainWindow._skip_corrupted_current] *)
Definition _skip_corrupted_current (w : MainWindow) : exc MainWindow :=
  match image_files w with
  | [] => mret (set_viewer (clear_view (viewer w)) w)
  | [_] => mret (set_viewer (clear_view (viewer w)) w)
  | _ =>
      '(bad, files) ← py_pop (image_files w) (current_index w);
      let w1 := add_notice (SkippedCorrupted bad) (set_image_files files w) in
      let w2 :=
        if decide (Z.of_nat (length (image_files w1)) ≤ current_index w1)
        then set_current_index (Z.of_nat (length (image_files w1)) - 1) w1
        else w1 in
      load_current (_populate_thumbnails w2)
  end.

(** [qimage is None or info is None or meta is None] *)
Definition decode_failed (q : option QImage) (i m : option StrDict) : Prop :=
  q = None ∨ i = None ∨ m = None.

(** [MainWindow._on_loaded] *)
Definition _on_loaded (request_id : Z) (path : string) (q : option QImage)
    (i m : option StrDict) (role : string) (w : MainWindow) : exc MainWindow :=
  match q, i, m with
  | Some q, Some i, Some m =>
      let cached := {| qimage := q; info := i; meta := m |} in
      let w1 := set_cache (put path cached (cache w)) w in
      cur ← cur_path w1;
      if decide (Some path = cur) then mret (_display path cached w1) else mret w1
  | _, _, _ =>
      cur ← cur_path w;
      if decide (Some path = cur)
      then _skip_corrupted_current (add_notice (FailedToLoad path) w)
      else mret w
  end.

(** *** The control thread as a state machine *)

(** What the control thread reacts to: user actions and the signals of
    the worker threads. *)
Inductive Event :=
| EScanFolder (folder : string) (selected : option string)
| EScanned (token : Z) (folder : string) (payload : ScanPayload)
| EThumbnailReady (token : Z) (path : string) (q : QImage)
| EThumbnailClicked (row : Z)
| ERotate
| ENext
| EPrev
| EMoveSelection (step : Z)
| EOpenSelected (row : Z)
| ELoaded (request_id : Z) (path : string) (q : option QImage)
    (i m : option StrDict) (role : string)
| EFinished (thread : ImageLoaderThread).

Definition handle (ev : Event) (w : MainWindow) : exc MainWindow :=
  match ev with
  | EScanFolder folder selected => mret (_scan_folder folder selected w)
  | EScanned token folder payload => _on_scanned token folder payload w
  | EThumbnailReady token path q => mret (_on_thumbnail_ready token path q w)
  | EThumbnailClicked row => on_thumbnail_clicked row w
  | ERotate => mret (rotate_image w)
  | ENext => next_image w
  | EPrev => prev_image w
  | EMoveSelection step => _move_selection_only step w
  | EOpenSelected row => _open_selected row w
  | ELoaded request_id path q i m role => _on_loaded request_id path q i m role w
  | EFinished thread => mret (_drop_loader thread w)
  end.

(** A thread's [finished] signal arrives once, for a thread that was
    started and not yet dropped; every other event may arrive at any time. *)
Definition enabled (ev : Event) (w : MainWindow) : Prop :=
  match ev with
  | EFinished thread => thread ∈ _loaders w
  | _ => True
  end.

Inductive reachable : MainWindow → Prop :=
| reachable_init : reachable MainWindow_init
| reachable_step w ev w' :
    reachable w → enabled ev w → handle ev w = Ret w' → reachable w'.

(** [n] calls of a handler in a row. *)
Fixpoint repeat_handler (n : nat) (h : MainWindow → exc MainWindow)
    (w : MainWindow) : exc MainWindow :=
  match n with
  | O => mret w
  | S k => w1 ← h w; repeat_handler k h w1
  end.

(** The dispatcher's bookkeeping: the in-flight set is the set of paths of
    the live threads, and no two live threads decode the same path. *)
Definition dispatch_inv (w : MainWindow) : Prop :=
  NoDup (th_path <$> _loaders w)
  ∧ (∀ p, p ∈ _inflight_loads w ↔ p ∈ th_path <$> _loaders w)
  ∧ (∀ t, t ∈ _loaders w → th_request_id t ≤ _request_id w)
  ∧ NoDup (th_request_id <$> _loaders w).

(** [-1 <= currentIndex < len(files)], with [-1] only for the empty list. *)
Definition nav_inv (w : MainWindow) : Prop :=
  (image_files w = [] ∧ current_index w = -1)
  ∨ 0 ≤ current_index w < Z.of_nat (length (image_files w)).

(** What [_request_load] never touches. *)
Definition same_view (w w' : MainWindow) : Prop :=
  image_files w' = image_files w
  ∧ current_index w' = current_index w
  ∧ cache w' = cache w
  ∧ viewer w' = viewer w
  ∧ current_info w' = current_info w
  ∧ current_meta w' = current_meta w
  ∧ _thumb_preview w' = _thumb_preview w.

(** What a preload round leaves alone; the in-flight set can only grow. *)
Definition same_nav (w w' : MainWindow) : Prop :=
  image_files w' = image_files w
  ∧ current_index w' = current_index w
  ∧ viewer w' = viewer w
  ∧ current_info w' = current_info w
  ∧ current_meta w' = current_meta w
  ∧ _thumb_preview w' = _thumb_preview w
  ∧ _inflight_loads w ⊆ _inflight_loads w'.

(** The path [_preload_neighbors] looks at for the offset [off]: the one at
    [current_index + off] when that position is inside the list. *)
Definition neighbor_path (off : Z) (w : MainWindow) : option string :=
  let idx := current_index w + off in
  if decide (0 ≤ idx < Z.of_nat (length (image_files w)))
  then image_files w !! Z.to_nat idx
  else None.

(** The neighbor relation as the specification words it: index plus or
    minus one, modulo the length of the list. *)
Definition spec_neighbor_path (off : Z) (w : MainWindow) : option string :=
  image_files w !! Z.to_nat ((current_index w + off) `mod` Z.of_nat (length (image_files w))).

(** The preload rule as the specification words it, for one run of a
    handler: when the handler has changed the index and the list is not
    empty, each of the two neighbors of the new index (under
    [spec_neighbor_path]) that is not in the cache has a decode in
    flight. *)
Definition spec_preload_after (ev : Event) (w : MainWindow) : Prop :=
  ∀ w', handle ev w = Ret w' →
    image_files w' ≠ [] → current_index w' ≠ current_index w →
    ∀ off p, off = -1 ∨ off = 1 →
      spec_neighbor_path off w' = Some p →
      OrderedDict.lookup p (_items (cache w')) = None →
      p ∈ _inflight_loads w'.

(** What a handler that ends in [load_current] has done about decodes,
    seen from the window [w] it started in and the window [w'] it ends
    in. Every thread it started decodes a path that was neither cached nor
    in flight, and is the decode of the new current path (role ["main"])
    or the preload of a neighbor of the new index that lies inside the
    list; and every such neighbor that is not cached is in flight. *)
Definition preload_outcome (w w' : MainWindow) : Prop :=
  (∃ new,
     _loaders w' = _loaders w ++ new
     ∧ ∀ t, t ∈ new →
         OrderedDict.lookup (th_path t) (_items (cache w)) = None
         ∧ (th_path t ∉ _inflight_loads w)
         ∧ ((th_role t = "main" ∧ neighbor_path 0 w' = Some (th_path t))
            ∨ (th_role t = "preload"
               ∧ (neighbor_path (-1) w' = Some (th_path t)
                  ∨ neighbor_path 1 w' = Some (th_path t)))))
  ∧ (∀ off p, off = -1 ∨ off = 1 →
       neighbor_path off w' = Some p →
       OrderedDict.lookup p (_items (cache w)) = None →
       p ∈ _inflight_loads w').

(** What one round of the preload loop does to the window, by cases on
    the neighbor it looks at (see [preload_step_eq]). *)
Definition preload_round (off : Z) (w : MainWindow) : MainWindow :=
  match neighbor_path off w with
  | None => w
  | Some p =>
      match OrderedDict.lookup p (_items (cache w)) with
      | Some _ => set_cache (get p (cache w)).2 w
      | None => (_request_load p "preload" w).2
      end
  end.

(** The window in which [_skip_corrupted_current] calls [load_current]
    again: the entry at the current position removed, the index clamped. *)
Definition after_removal (bad : string) (w : MainWindow) : MainWindow :=
  let files := delete (Z.to_nat (current_index w)) (image_files w) in
  _populate_thumbnails
    (set_current_index (Z.min (current_index w) (Z.of_nat (length files) - 1))
       (add_notice (SkippedCorrupted bad) (set_image_files files w))).

(** The key [p] moved to the most-recently-used end of a key list. *)
Definition promote (p : string) (keys : list string) : list string :=
  filter (λ x, x ≠ p) keys ++ [p].

(** [promote] for a neighbor that is in range and cached, nothing
    otherwise. *)
Definition promote_cached (n : option string) (keys : list string) : list string :=
  match n with
  | Some p => if bool_decide (p ∈ keys) then promote p keys else keys
  | None => keys
  end.
End Window.
Arguments ImageViewer : clear implicits.
Arguments MainWindow : clear implicits.
Arguments Event : clear implicits.

(** ** Concrete windows and folders for the worked examples

    Pixels are a label here, and [abspath] and [basename] are the
    identity. *)

Definition demo_image (label : string) : CachedImage string :=
  {| qimage := label; info := ∅; meta := ∅ |}.

(** A window with the given file list and current index, nothing cached
    and nothing in flight. *)
Definition demo_window (files : list string) (idx : Z) : MainWindow string :=
  set_current_index idx (set_image_files files MainWindow_init).

(** The same with a cache already filled, oldest entry first. *)
Definition demo_cached (files : list string) (idx : Z) (cached : list string)
    : MainWindow string :=
  set_cache
    (fold_left (λ c p, put p (demo_image p) c) cached (ImageCache_init 15))
    (demo_window files idx).

(** A folder with two images, a text file, a sub-folder named like an
    image, and a hidden file whose whole name is an extension. *)
Definition demo_entries : list DirEntry :=
  [ {| entry_name := "b.PNG"; entry_path := "/pics/b.PNG"; entry_is_file := true |};
    {| entry_name := "notes.txt"; entry_path := "/pics/notes.txt"; entry_is_file := true |};
    {| entry_name := "a.tar.heic"; entry_path := "/pics/a.tar.heic"; entry_is_file := true |};
    {| entry_name := "dir.jpg"; entry_path := "/pics/dir.jpg"; entry_is_file := false |};
    {| entry_name := ".jpg"; entry_path := "/pics/.jpg"; entry_is_file := true |} ].

Definition demo_scandir (folder : string) : exc (list DirEntry) :=
  if String.eqb folder "/pics" then Ret demo_entries else Raise OSError.

(** What [load_current] never touches: the file list, the selection, the
    thumbnail bookkeeping and the scan bookkeeping. *)
Definition same_lists {QImage : Type} (w w' : MainWindow QImage) : Prop :=
  image_files w' = image_files w
  ∧ current_index w' = current_index w
  ∧ _thumb_preview w' = _thumb_preview w
  ∧ _thumb_index w' = _thumb_index w
  ∧ _thumb_token w' = _thumb_token w
  ∧ _scan_token w' = _scan_token w
  ∧ scan_thread w' = scan_thread w
  ∧ thumb_thread w' = thumb_thread w.

(** The three ways a handler can leave the file list and the thumbnail
    index: as they were, replaced by an accepted scan, or with the
    corrupted current entry removed. *)
Definition lists_step {QImage : Type} (ev : Event QImage)
    (w w' : MainWindow QImage) : Prop :=
  (image_files w' = image_files w ∧ _thumb_index w' = _thumb_index w)
  ∨ (∃ folder payload,
       ev = EScanned (_scan_token w) folder payload
       ∧ payload_files payload ≠ []
       ∧ image_files w' = payload_files payload
       ∧ _thumb_index w' = enumerate_index 0 (image_files w') ∅)
  ∨ (∃ rid p q i m role,
       ev = ELoaded rid p q i m role
       ∧ decode_failed q i m
       ∧ neighbor_path 0 w = Some p
       ∧ (2 ≤ length (image_files w))%nat
       ∧ image_files w' = delete (Z.to_nat (current_index w)) (image_files w)
       ∧ _thumb_index w' = enumerate_index 0 (image_files w') ∅).

(** ** [ThumbnailLoaderThread.run] and the delivery of its signals *)

Section Thumbnails.
Context {QImage : Type}.

(** The body of the [try] of the loop, for one path: the preview, or the
    exception the decoder (whichever the loop picks) raised. *)
Variable decode_thumbnail : string → exc QImage.

(** The [thumbnail_ready] signals for the paths the loop gets, in the
    order it gets them. A path whose decode raises is passed over. *)
Fixpoint thumbnail_signals (token : Z) (files : list string) : list (Z * string * QImage) :=
  match files with
  | [] => []
  | path :: r =>
      match decode_thumbnail path with
      | Ret q => (token, path, q) :: thumbnail_signals token r
      | Raise _ => thumbnail_signals token r
      end
  end.

(** [for path in self.files]: the paths the loop gets. [self.files] is no
    copy: [_start_thumbnail_loader] hands over the list object that the
    window holds as [image_files], and the control thread pops from that
    object ([_skip_corrupted_current]) while the loop runs. The iterator
    of the loop keeps a position only; each turn reads the list as it is
    then, and the loop ends at the first turn whose position is past the
    end. [files] is the content of the list before the turn at [pos], and
    [pops k] are the positions popped, in order, between the turns
    [k - 1] and [k]. [n] bounds the number of turns; the length of the
    list is enough, as the list never grows. *)
Fixpoint thumbnail_reads (pops : nat → list nat) (n pos : nat) (files : list string)
    : list string :=
  match n with
  | O => []
  | S n' =>
      let files' := fold_left (λ l i, delete i l) (pops pos) files in
      match files' !! pos with
      | Some path => path :: thumbnail_reads pops n' (S pos) files'
      | None => []
      end
  end.

(** [ThumbnailLoaderThread.run]: the arguments of the [thumbnail_ready]
    signals it emits, in the order it emits them. [thumb_files t] is the
    content of the shared list when the thread was made. *)
Definition ThumbnailLoaderThread_run (t : ThumbnailLoaderThread) (pops : nat → list nat)
    : list (Z * string * QImage) :=
  thumbnail_signals (thumb_token t)
    (thumbnail_reads pops (length (thumb_files t)) 0 (thumb_files t)).

(** The control thread handling the signals of a batch one after the
    other. *)
Definition deliver_thumbnails (signals : list (Z * string * QImage))
    (w : MainWindow QImage) : MainWindow QImage :=
  fold_left (λ w s, _on_thumbnail_ready s.1.1 s.1.2 s.2 w) signals w.
End Thumbnails.

(** The previews a batch over [files] adds to [m]: each path that decodes
    is set to its preview, in list order. *)
Definition previews_after {QImage : Type} (decode_thumbnail : string → exc QImage)
    (files : list string) (m : gmap string QImage) : gmap string QImage :=
  fold_left
    (λ m p, match decode_thumbnail p with
            | Ret q => <[p := q]> m
            | Raise _ => m
            end)
    files m.

(** [n] presses of the rotate key. *)
Definition rotate_times {QImage : Type} (n : nat) (v : ImageViewer QImage) : ImageViewer QImage :=
  Nat.iter n rotate_clockwise v.

(** ** More concrete inputs for the worked examples *)

(** The initial window after the result of a scan of [/pics] arrived. *)
Definition demo_scanned : MainWindow string :=
  match handle id id
          (EScanned 0 "/pics"
             {| payload_files := ["/pics/a.jpg"; "/pics/b.png"]; payload_index := 1 |})
          MainWindow_init with
  | Ret w => w
  | Raise _ => MainWindow_init
  end.

(** [demo_entries] as another enumeration of the same folder. *)
Definition demo_scandir_reversed (folder : string) : exc (list DirEntry) :=
  if String.eqb folder "/pics" then Ret (reverse demo_entries) else Raise OSError.

(** A decoder that succeeds on every path but [bad.jpg]. *)
Definition demo_decode (path : string) : exc (string * StrDict * StrDict) :=
  if String.eqb path "bad.jpg" then Raise OSError else Ret (String.append "pixels of " path, ∅, ∅).

(** * Proofs *)

(** ** The ordered dictionary *)

Section OrderedDictFacts.
Context {V : Type}.
Implicit Types (d : OrderedDict.t V) (k : string) (v : V).

Lemma od_lookup_None k d :
  OrderedDict.lookup k d = None ↔ k ∉ OrderedDict.keys d.
Proof.
  induction d as [|[k' v'] r IH]; simpl.
  - split; [intros _; apply not_elem_of_nil | done].
  - rewrite not_elem_of_cons. destruct (decide (k = k')) as [->|Hne].
    + split; [done | intros [? _]; done].
    + rewrite IH. tauto.
Qed.

Lemma od_lookup_Some_elem k d v :
  OrderedDict.lookup k d = Some v → (k, v) ∈ d.
Proof.
  induction d as [|[k' v'] r IH]; simpl; [done|].
  destruct (decide (k = k')) as [->|].
  - intros [= ->]. left.
  - intros H. right. auto.
Qed.

Lemma od_keys_remove k d :
  OrderedDict.keys (OrderedDict.remove k d) = filter (λ x, x ≠ k) (OrderedDict.keys d).
Proof.
  unfold OrderedDict.keys, OrderedDict.remove.
  induction d as [|[k' v'] r IH]; [done|].
  rewrite fmap_cons. simpl. destruct (decide (k' ≠ k)).
  - rewrite !filter_cons_True by (simpl; done). rewrite fmap_cons. simpl. by rewrite IH.
  - rewrite !filter_cons_False by (simpl; done). done.
Qed.

Lemma od_remove_absent k d :
  k ∉ OrderedDict.keys d → OrderedDict.remove k d = d.
Proof.
  unfold OrderedDict.keys, OrderedDict.remove.
  induction d as [|[k' v'] r IH]; [done|].
  rewrite fmap_cons, not_elem_of_cons. simpl. intros [Hne Hr].
  rewrite filter_cons_True by (simpl; done). by rewrite IH.
Qed.

Lemma od_setitem_absent k v d :
  k ∉ OrderedDict.keys d → OrderedDict.setitem k v d = d ++ [(k, v)].
Proof.
  unfold OrderedDict.keys.
  induction d as [|[k' v'] r IH]; [done|].
  simpl. rewrite not_elem_of_cons. intros [Hne Hr].
  rewrite decide_False by done. by rewrite IH.
Qed.

Lemma od_remove_not_in k d : k ∉ OrderedDict.keys (OrderedDict.remove k d).
Proof.
  rewrite od_keys_remove. intros [H _]%list_elem_of_filter. by apply H.
Qed.

(** Popping a key and setting it again moves it to the end. *)
Lemma od_keys_reinsert k v d :
  OrderedDict.keys (OrderedDict.setitem k v (OrderedDict.remove k d))
  = filter (λ x, x ≠ k) (OrderedDict.keys d) ++ [k].
Proof.
  rewrite od_setitem_absent by apply od_remove_not_in.
  unfold OrderedDict.keys at 1. rewrite fmap_app. simpl.
  f_equal. apply od_keys_remove.
Qed.
End OrderedDictFacts.

(** ** The cache: size bound and recency order *)

Section CacheFacts.
Context {QImage : Type}.
Implicit Types (c : ImageCache QImage) (d : OrderedDict.t (CachedImage QImage)).
Implicit Types (ops : list (cache_op QImage)) (k p : string).

Lemma evict_loop_suffix cap d : ∃ pre, d = pre ++ evict_loop cap d.
Proof.
  induction d as [|x r IH]; [by exists []|].
  simpl. destruct (decide (cap < Z.of_nat (S (length r)))).
  - destruct IH as [pre Hpre]. exists (x :: pre). simpl. by rewrite <- Hpre.
  - by exists [].
Qed.

Lemma evict_loop_length cap d :
  0 ≤ cap → Z.of_nat (length (evict_loop cap d)) ≤ cap.
Proof.
  intros Hcap. induction d as [|x r IH]; simpl; [lia|].
  destruct (decide (cap < Z.of_nat (S (length r)))); [done|]. simpl. lia.
Qed.

Lemma evict_loop_fits cap d :
  Z.of_nat (length d) ≤ cap → evict_loop cap d = d.
Proof.
  destruct d as [|x r]; [done|]. simpl. intros H.
  rewrite decide_False by lia. done.
Qed.

Lemma get_miss p c :
  OrderedDict.lookup p (_items c) = None → get p c = (None, c).
Proof.
  intros H. unfold get, OrderedDict.pop. rewrite H.
  rewrite od_remove_absent by (by apply od_lookup_None). by destruct c.
Qed.

Lemma get_hit p c it :
  OrderedDict.lookup p (_items c) = Some it →
  get p c = (Some it, {| capacity := capacity c;
                         _items := OrderedDict.remove p (_items c) ++ [(p, it)] |}).
Proof.
  intros H. unfold get, OrderedDict.pop. rewrite H.
  rewrite od_setitem_absent by apply od_remove_not_in. done.
Qed.

Lemma put_insert_eq p it d :
  put_insert p it d = OrderedDict.remove p d ++ [(p, it)].
Proof.
  unfold put_insert, OrderedDict.mem, OrderedDict.pop. simpl.
  case_bool_decide as Hin.
  - rewrite od_setitem_absent by apply od_remove_not_in. done.
  - rewrite od_setitem_absent by done. by rewrite od_remove_absent.
Qed.

Lemma get_capacity p c : capacity (get p c).2 = capacity c.
Proof.
  unfold get. destruct (OrderedDict.pop p (_items c)) as [[it|] d]; done.
Qed.

Lemma cache_apply_capacity c o : capacity (cache_apply c o) = capacity c.
Proof. destruct o; simpl; [apply get_capacity | done]. Qed.

Lemma cache_run_app ops1 ops2 c :
  cache_run (ops1 ++ ops2) c = cache_run ops2 (cache_run ops1 c).
Proof. unfold cache_run. apply fold_left_app. Qed.

Lemma cache_run_capacity ops c : capacity (cache_run ops c) = capacity c.
Proof.
  revert c. induction ops as [|o ops IH]; intros c; [done|].
  simpl. rewrite IH. apply cache_apply_capacity.
Qed.

(** *** Touch times *)

Lemma last_touch_from_bound n k ops :
  (last_touch_from n k ops ≤ n + length ops)%nat.
Proof.
  revert n. induction ops as [|o r IH]; intros n; simpl; [lia|].
  specialize (IH (S n)).
  destruct (last_touch_from (S n) k r); [destruct (touches o k)|]; lia.
Qed.

Lemma last_touch_from_snoc n k ops o :
  last_touch_from n k (ops ++ [o])
  = if touches o k then S (n + length ops) else last_touch_from n k ops.
Proof.
  revert n. induction ops as [|o' r IH]; intros n; simpl.
  - destruct (touches o k); [f_equal; lia | done].
  - rewrite IH. destruct (touches o k); [|done].
    simpl. f_equal. lia.
Qed.

Lemma last_touch_snoc k ops o :
  last_touch k (ops ++ [o])
  = if touches o k then S (length ops) else last_touch k ops.
Proof. unfold last_touch. by rewrite last_touch_from_snoc. Qed.

Lemma last_touch_bound k ops : (last_touch k ops ≤ length ops)%nat.
Proof. unfold last_touch. pose proof (last_touch_from_bound 0 k ops). lia. Qed.
End CacheFacts.

Section SortedFacts.
Context {A : Type} (R : relation A).

Lemma StronglySorted_filter_keep (P : A → Prop) `{∀ x, Decision (P x)} (l : list A) :
  StronglySorted R l → StronglySorted R (filter P l).
Proof.
  induction 1 as [|x l Hl IH Hx]; [constructor|].
  destruct (decide (P x)).
  - rewrite filter_cons_True by done. constructor; [done|].
    apply Forall_forall. intros y [_ Hy]%list_elem_of_filter.
    rewrite Forall_forall in Hx. by apply Hx.
  - by rewrite filter_cons_False.
Qed.

Lemma StronglySorted_change (R' : relation A) (l : list A) :
  (∀ a b, a ∈ l → b ∈ l → R a b → R' a b) →
  StronglySorted R l → StronglySorted R' l.
Proof.
  intros HR Hs. induction Hs as [|x l Hl IH Hx]; [constructor|].
  constructor.
  - apply IH. intros a b Ha Hb. apply HR; by right.
  - rewrite Forall_forall in *. intros y Hy. apply HR; [left | by right | by apply Hx].
Qed.

Lemma StronglySorted_irrefl_NoDup (l : list A) :
  (∀ a, ¬ R a a) → StronglySorted R l → NoDup l.
Proof.
  intros Hirr. induction 1 as [|x l Hl IH Hx]; constructor; [|done].
  rewrite Forall_forall in Hx. intros Hin. by apply (Hirr x), Hx.
Qed.
End SortedFacts.

Section LruFacts.
Context {QImage : Type}.
Implicit Types (c : ImageCache QImage) (d : OrderedDict.t (CachedImage QImage)).
Implicit Types (ops : list (cache_op QImage)) (k p : string).

Lemma older_irrefl ops k : ¬ older ops k k.
Proof. unfold older. lia. Qed.

Lemma lru_inv_NoDup ops c : lru_inv ops c → NoDup (cache_keys c).
Proof.
  intros (_ & _ & Hs). eapply StronglySorted_irrefl_NoDup; [|done].
  intros a. apply older_irrefl.
Qed.

(** After an operation on [p], the keys other than [p] keep their order
    and [p] is younger than all of them. *)
Lemma sorted_promote ops o p (l : list string) :
  (∀ k, touches o k = bool_decide (p = k)) →
  StronglySorted (older ops) l →
  StronglySorted (older (ops ++ [o])) (filter (λ x, x ≠ p) l ++ [p]).
Proof.
  intros Ho Hs. apply StronglySorted_app_2.
  - intros a b [Ha _]%list_elem_of_filter Hb%list_elem_of_singleton. subst b.
    unfold older. rewrite !last_touch_snoc, !Ho.
    rewrite bool_decide_eq_false_2 by done. rewrite bool_decide_eq_true_2 by done.
    pose proof (last_touch_bound a ops). lia.
  - apply (StronglySorted_change (older ops)).
    + intros a b [Ha _]%list_elem_of_filter [Hb _]%list_elem_of_filter.
      unfold older. rewrite !last_touch_snoc, !Ho.
      by rewrite !bool_decide_eq_false_2 by done.
    + by apply StronglySorted_filter_keep.
  - repeat constructor.
Qed.

Lemma sorted_untouched ops o p (l : list string) :
  (∀ k, touches o k = bool_decide (p = k)) → p ∉ l →
  StronglySorted (older ops) l → StronglySorted (older (ops ++ [o])) l.
Proof.
  intros Ho Hp. apply StronglySorted_change. intros a b Ha Hb.
  unfold older. rewrite !last_touch_snoc, !Ho.
  rewrite !bool_decide_eq_false_2; [done| |]; intros ->; done.
Qed.

Lemma length_remove_present p d :
  p ∈ OrderedDict.keys d → (length (OrderedDict.remove p d) < length d)%nat.
Proof.
  unfold OrderedDict.keys, OrderedDict.remove.
  intros [kv [-> Hin]]%list_elem_of_fmap.
  eapply length_filter_lt; [exact Hin | simpl; tauto].
Qed.

Lemma od_keys_snoc d p (it : CachedImage QImage) :
  OrderedDict.keys (d ++ [(p, it)]) = OrderedDict.keys d ++ [p].
Proof. unfold OrderedDict.keys. by rewrite fmap_app. Qed.

Lemma evict_loop_nonempty cap d : 1 ≤ cap → d ≠ [] → evict_loop cap d ≠ [].
Proof.
  intros Hcap. induction d as [|x r IH]; [done|]. intros _. simpl.
  destruct (decide (cap < Z.of_nat (S (length r)))); [|done].
  apply IH. destruct r; [simpl in *; lia | done].
Qed.

(** The keys of [put] before eviction, and the split the loop makes. *)
Lemma put_split p it c :
  ∃ pre,
    filter (λ x, x ≠ p) (cache_keys c) ++ [p] = pre ++ cache_keys (put p it c).
Proof.
  unfold put, cache_keys. simpl. rewrite put_insert_eq.
  destruct (evict_loop_suffix (capacity c) (OrderedDict.remove p (_items c) ++ [(p, it)]))
    as [pre Hpre].
  exists (OrderedDict.keys pre).
  rewrite <- od_keys_remove, <- (od_keys_snoc _ p it).
  rewrite Hpre at 1. unfold OrderedDict.keys. by rewrite fmap_app.
Qed.

Lemma lru_inv_step ops c o :
  lru_inv ops c → lru_inv (ops ++ [o]) (cache_apply c o).
Proof.
  intros (Hcap & Hlen & Hs). destruct o as [p|p it]; simpl.
  - destruct (OrderedDict.lookup p (_items c)) as [it|] eqn:E.
    + rewrite (get_hit _ _ _ E). simpl. split; [done|]. split.
      * simpl. rewrite length_app. simpl.
        assert (p ∈ OrderedDict.keys (_items c)) as Hin.
        { destruct (decide (p ∈ OrderedDict.keys (_items c))) as [|Hn]; [done|].
          apply od_lookup_None in Hn. congruence. }
        pose proof (length_remove_present p _ Hin). lia.
      * unfold cache_keys. simpl. rewrite od_keys_snoc, od_keys_remove.
        by apply sorted_promote.
    + rewrite (get_miss _ _ E). simpl. split; [done|]. split; [done|].
      apply (sorted_untouched ops _ p); [done | by apply od_lookup_None | done].
  - split; [done|]. split.
    + simpl. apply evict_loop_length. lia.
    + destruct (put_split p it c) as [pre Hpre].
      eapply StronglySorted_app_1_r. rewrite <- Hpre.
      by apply sorted_promote.
Qed.

Lemma lru_inv_init cap0 ops0 : lru_inv ops0 (@ImageCache_init QImage cap0).
Proof.
  unfold lru_inv, ImageCache_init, cache_keys. simpl.
  split; [lia|]. split; [lia|]. constructor.
Qed.

Lemma lru_inv_run cap0 ops :
  lru_inv ops (cache_run ops (ImageCache_init cap0)).
Proof.
  induction ops as [|o ops IH] using rev_ind.
  - apply lru_inv_init.
  - rewrite cache_run_app. simpl. by apply lru_inv_step.
Qed.

(** A [get] of a present key moves it to the young end and keeps
    everything else. *)
Lemma get_promotes ops c p it :
  lru_inv ops c → OrderedDict.lookup p (_items c) = Some it →
  (get p c).1 = Some it
  ∧ cache_keys (get p c).2 = filter (λ x, x ≠ p) (cache_keys c) ++ [p]
  ∧ _items (get p c).2 ≡ₚ _items c.
Proof.
  intros Hinv E. rewrite (get_hit _ _ _ E). simpl. split; [done|]. split.
  - unfold cache_keys. simpl. by rewrite od_keys_snoc, od_keys_remove.
  - apply lru_inv_NoDup in Hinv. unfold cache_keys, OrderedDict.keys in Hinv.
    revert Hinv E. generalize (_items c) as d.
    induction d as [|[k v] r IH]; simpl; [done|].
    rewrite NoDup_cons. intros [Hk Hr]. destruct (decide (p = k)) as [->|Hne].
    + intros [= ->]. unfold OrderedDict.remove.
      rewrite filter_cons_False by (simpl; tauto).
      fold (OrderedDict.remove k r). rewrite od_remove_absent by done.
      symmetry. apply Permutation_cons_append.
    + intros E. unfold OrderedDict.remove.
      rewrite filter_cons_True by (simpl; congruence).
      simpl. apply Permutation_skip. by apply IH.
Qed.

(** [put] leaves its key at the most-recently-used end. *)
Lemma put_last ops c p it :
  lru_inv ops c → last (cache_keys (put p it c)) = Some p.
Proof.
  intros (Hcap & _ & _). destruct (put_split p it c) as [pre Hpre].
  assert (last (pre ++ cache_keys (put p it c)) = Some p) as Hl
    by (rewrite <- Hpre; apply last_snoc).
  rewrite last_app in Hl.
  destruct (last (cache_keys (put p it c))) as [y|] eqn:El; [done|].
  exfalso. apply last_None in El.
  unfold put, cache_keys, OrderedDict.keys in El. simpl in El.
  apply fmap_nil_inv in El. revert El. apply evict_loop_nonempty; [done|].
  rewrite put_insert_eq. by destruct (OrderedDict.remove p (_items c)).
Qed.

(** The key [put] drops is older than every key it keeps. *)
Lemma put_evicts_oldest ops c p it e :
  lru_inv ops c →
  (e ∈ cache_keys c ∨ e = p) → e ∉ cache_keys (put p it c) →
  e ≠ p ∧ e ∈ cache_keys c
  ∧ ∀ m, m ∈ cache_keys (put p it c) → older (ops ++ [CPut p it]) e m.
Proof.
  intros (Hcap & Hlen & Hs) He Hout.
  destruct (put_split p it c) as [pre Hpre].
  assert (StronglySorted (older (ops ++ [CPut p it])) (pre ++ cache_keys (put p it c))) as Hs'.
  { rewrite <- Hpre. by apply sorted_promote. }
  assert (p ∈ cache_keys (put p it c)) as Hp.
  { pose proof (put_last ops c p it (conj Hcap (conj Hlen Hs))) as Hl.
    apply last_Some in Hl as [l' ->]. apply elem_of_app. right. left. }
  assert (e ≠ p) as Hne by (intros ->; done).
  assert (e ∈ cache_keys c) as Hin by (destruct He; done).
  split; [done|]. split; [done|]. intros m Hm.
  eapply StronglySorted_app_1_elem_of; [exact Hs' | | done].
  assert (e ∈ pre ++ cache_keys (put p it c)) as Hall.
  { rewrite <- Hpre. apply elem_of_app. left.
    apply list_elem_of_filter. done. }
  apply elem_of_app in Hall as [|]; done.
Qed.

(** C1. For every capacity and every finite sequence of [put] and [get]
    operations run from a new cache: the cache holds at most [capacity]
    entries (and the capacity is [max 1] of the one asked for); a [get] of
    a present key returns its entry and moves the key to the
    most-recently-used end, keeping the other keys in order and the
    entries the same; a [put] leaves its key most recently used; and any
    key a [put] removes among the members at that moment is not the key
    put, was a member before, and was last touched strictly before every
    key that stays. *)
Theorem ImageCache_lru_invariant (capacity0 : Z) (ops : list (cache_op QImage)) :
  let c := cache_run ops (ImageCache_init capacity0) in
  capacity c = Z.max 1 capacity0
  ∧ Z.of_nat (length (_items c)) ≤ capacity c
  ∧ (∀ p it, OrderedDict.lookup p (_items c) = Some it →
       (get p c).1 = Some it
       ∧ last (cache_keys (get p c).2) = Some p
       ∧ cache_keys (get p c).2 = filter (λ x, x ≠ p) (cache_keys c) ++ [p]
       ∧ _items (get p c).2 ≡ₚ _items c)
  ∧ (∀ p it, last (cache_keys (put p it c)) = Some p)
  ∧ (∀ p it e,
       (e ∈ cache_keys c ∨ e = p) → e ∉ cache_keys (put p it c) →
       e ≠ p ∧ e ∈ cache_keys c
       ∧ ∀ m, m ∈ cache_keys (put p it c) →
           (last_touch e (ops ++ [CPut p it]) < last_touch m (ops ++ [CPut p it]))%nat).
Proof.
  intros c. pose proof (lru_inv_run capacity0 ops) as Hinv. fold c in Hinv.
  split; [unfold c; by rewrite cache_run_capacity|].
  split; [apply Hinv|]. split; [|split].
  - intros p it E. destruct (get_promotes ops c p it Hinv E) as (H1 & H2 & H3).
    split; [done|]. split; [|done]. rewrite H2. apply last_snoc.
  - intros p it. by apply (put_last ops).
  - intros p it e He Hout. by apply (put_evicts_oldest ops c p it e Hinv).
Qed.
End LruFacts.

(** ** The folder scanner *)

Section StringFacts.

Lemma str_le_total : Total str_le.
Proof. intros a b. unfold str_le. apply String.leb_total. Qed.

Lemma list_sort_sorted l : Sorted str_le (list_sort l).
Proof. unfold list_sort. apply (@Sorted_merge_sort _ str_le _ str_le_total). Qed.

(** The order of [files.sort()] is transitive, so a sorted list has every
    earlier element below every later one. *)
Lemma str_compare_trans (a b c : string) :
  String.compare a b ≠ Gt → String.compare b c ≠ Gt → String.compare a c ≠ Gt.
Proof.
  revert b c. induction a as [|x a IH]; intros [|y b] [|z c]; simpl; try done.
  unfold Ascii.compare.
  destruct (N.compare_spec (N_of_ascii x) (N_of_ascii y));
    destruct (N.compare_spec (N_of_ascii y) (N_of_ascii z));
    destruct (N.compare_spec (N_of_ascii x) (N_of_ascii z));
    try done; try lia.
  apply IH.
Qed.

Lemma str_le_trans : Transitive str_le.
Proof.
  intros a b c. unfold str_le, String.leb. intros Hab Hbc.
  pose proof (str_compare_trans a b c) as H.
  destruct (String.compare a b); destruct (String.compare b c);
    destruct (String.compare a c); try done; exfalso; by apply H.
Qed.

Lemma list_sort_strongly_sorted l : StronglySorted str_le (list_sort l).
Proof.
  apply (@Sorted_StronglySorted _ _ str_le_trans), list_sort_sorted.
Qed.

Lemma list_sort_perm l : list_sort l ≡ₚ l.
Proof. unfold list_sort. apply merge_sort_Permutation. Qed.

Lemma case_blind_dot : case_blind "."%char.
Proof.
  intros x. split; [|by intros ->].
  destruct x as [[] [] [] [] [] [] [] []]; vm_compute; congruence.
Qed.



Lemma ascii_lower_idemp x : ascii_lower (ascii_lower x) = ascii_lower x.
Proof. destruct x as [[] [] [] [] [] [] [] []]; reflexivity. Qed.






Lemma str_lower_idemp s : str_lower (str_lower s) = str_lower s.
Proof.
  unfold str_lower. rewrite list_ascii_of_string_of_list_ascii.
  f_equal. rewrite <- list_fmap_compose. apply list_fmap_ext.
  intros i x _. simpl. apply ascii_lower_idemp.
Qed.

Lemma py_index_spec x l :
  x ∈ l →
  ∃ i : nat, py_index x l = Some (Z.of_nat i) ∧ l !! i = Some x
    ∧ ∀ j : nat, (j < i)%nat → l !! j ≠ Some x.
Proof.
  induction l as [|y r IH]; [by intros ?%elem_of_nil|].
  intros Hin. simpl. destruct (decide (x = y)) as [->|Hne].
  - exists 0%nat. split; [done|]. split; [done|]. lia.
  - apply elem_of_cons in Hin as [|Hin]; [done|].
    destruct (IH Hin) as (i & Hi & Hl & Hmin). exists (S i).
    rewrite Hi. simpl. split; [f_equal; lia|]. split; [done|].
    intros [|j] Hj; simpl; [congruence|]. apply Hmin. lia.
Qed.
End StringFacts.

Section ScannerFacts.
Variable abspath : string → string.
Variable scandir : string → exc (list DirEntry).

Lemma entry_supported_iff e :
  entry_supported e = true
  ↔ entry_is_file e = true
    ∧ str_lower (splitext_ext (entry_name e)) ∈ SUPPORTED_EXTENSIONS.
Proof.
  unfold entry_supported. rewrite andb_true_iff, bool_decide_eq_true. done.
Qed.


Lemma start_index_spec sel files :
  let index := start_index sel files in
  match sel with
  | Some s =>
      if decide (s ≠ "" ∧ s ∈ files) then
        0 ≤ index ∧ files !! Z.to_nat index = Some s
        ∧ ∀ j : nat, (j < Z.to_nat index)%nat → files !! j ≠ Some s
      else index = 0
  | None => index = 0
  end.
Proof.
  cbv zeta. destruct sel as [s|]; [|done]. unfold start_index, str_truthy.
  destruct (decide (s ≠ "" ∧ s ∈ files)) as [[H1 H2]|Hn].
  - apply String.eqb_neq in H1 as ->. simpl.
    rewrite bool_decide_eq_true_2 by done.
    destruct (py_index_spec s files H2) as (i & -> & Hl & Hmin). simpl.
    rewrite Nat2Z.id. split; [lia|]. done.
  - destruct (String.eqb_spec s "") as [->|Hne]; simpl; [done|].
    case_bool_decide; [|done]. exfalso. by apply Hn.
Qed.

(** *** The scan loop's test against the specification's wording *)















End ScannerFacts.

(** ** Python list indexing *)

Lemma py_getitem_in_range {A} (l : list A) (i : Z) :
  0 ≤ i < Z.of_nat (length l) →
  ∃ x, l !! Z.to_nat i = Some x ∧ py_getitem l i = Ret x.
Proof.
  intros Hi. unfold py_getitem, py_norm_index.
  rewrite (decide_False (P := i < 0)) by lia. rewrite decide_True by done.
  destruct (l !! Z.to_nat i) as [x|] eqn:E; [by exists x|].
  apply lookup_ge_None in E. lia.
Qed.

Lemma py_pop_in_range {A} (l : list A) (i : Z) :
  0 ≤ i < Z.of_nat (length l) →
  ∃ x, l !! Z.to_nat i = Some x ∧ py_pop l i = Ret (x, delete (Z.to_nat i) l).
Proof.
  intros Hi. unfold py_pop, py_norm_index.
  rewrite (decide_False (P := i < 0)) by lia. rewrite decide_True by done.
  destruct (l !! Z.to_nat i) as [x|] eqn:E; [by exists x|].
  apply lookup_ge_None in E. lia.
Qed.

Lemma py_remove_not_in {A} `{EqDecision A} (x : A) (l : list A) :
  NoDup l → x ∉ py_remove x l.
Proof.
  induction 1 as [|y r Hy Hr IH]; simpl; [apply not_elem_of_nil|].
  destruct (decide (x = y)) as [->|Hne]; [done|].
  rewrite not_elem_of_cons. done.
Qed.

Lemma py_remove_elem_of {A} `{EqDecision A} (x y : A) (l : list A) :
  y ∈ py_remove x l → y ∈ l.
Proof.
  induction l as [|z r IH]; simpl; [done|].
  destruct (decide (x = z)) as [->|Hne]; [by right|].
  rewrite !elem_of_cons. intros [->|?]; [by left | right; auto].
Qed.

Lemma py_remove_other {A} `{EqDecision A} (x y : A) (l : list A) :
  y ≠ x → y ∈ l → y ∈ py_remove x l.
Proof.
  intros Hne. induction l as [|z r IH]; simpl; [done|].
  rewrite elem_of_cons. intros [->|Hin].
  - rewrite decide_False by done. left.
  - destruct (decide (x = z)); [done|]. right. auto.
Qed.

Lemma py_remove_fmap_NoDup {A B} `{EqDecision A} (f : A → B) (x : A) (l : list A) :
  NoDup (f <$> l) → NoDup (f <$> py_remove x l).
Proof.
  induction l as [|z r IH]; [done|].
  rewrite fmap_cons, NoDup_cons. intros [Hz Hr]. simpl.
  destruct (decide (x = z)); [done|].
  rewrite fmap_cons, NoDup_cons. split; [|auto].
  intros [y [Hy Hin]]%list_elem_of_fmap. apply Hz.
  apply list_elem_of_fmap. exists y. split; [done|]. by eapply py_remove_elem_of.
Qed.

(** ** The dispatcher *)

Section DispatcherFacts.
Context {QImage : Type}.
Implicit Types (w : MainWindow QImage) (t : ImageLoaderThread).

Lemma set_cache_same w : set_cache (cache w) w = w.
Proof. by destruct w. Qed.

(** A request for a path already in flight is dropped. *)
Lemma _request_load_inflight path role w :
  path ∈ _inflight_loads w → _request_load path role w = (None, w).
Proof. intros H. unfold _request_load. by rewrite bool_decide_eq_true_2. Qed.

(** A request for another path starts exactly one thread, with the next
    request id. *)
Lemma _request_load_fresh path role w :
  path ∉ _inflight_loads w →
  let t := {| th_request_id := _request_id w + 1; th_path := path; th_role := role |} in
  _request_load path role w
  = (Some (_request_id w + 1),
     set_loaders (_loaders w ++ [t])
       (set_inflight_loads ({[path]} ∪ _inflight_loads w)
          (set_request_id (_request_id w + 1) w))).
Proof. intros H. unfold _request_load. by rewrite bool_decide_eq_false_2. Qed.

Lemma _request_load_same_view path role w :
  same_view w (_request_load path role w).2.
Proof.
  unfold _request_load. case_bool_decide; simpl; unfold same_view; done.
Qed.

Lemma _request_load_inflight_after path role w :
  path ∈ _inflight_loads (_request_load path role w).2.
Proof.
  unfold _request_load. case_bool_decide; simpl; [done|]. set_solver.
Qed.

Lemma _request_load_inflight_mono path role w p :
  p ∈ _inflight_loads w → p ∈ _inflight_loads (_request_load path role w).2.
Proof.
  unfold _request_load. case_bool_decide; simpl; [done|]. set_solver.
Qed.

Lemma _request_load_dispatch_inv path role w :
  dispatch_inv w → dispatch_inv (_request_load path role w).2.
Proof.
  intros (Hnd & Hset & Hid & Hids). unfold _request_load.
  case_bool_decide as Hin; simpl; [done|].
  unfold dispatch_inv. simpl. rewrite !fmap_app. simpl. split; [|split; [|split]].
  - apply NoDup_app. split; [done|]. split; [|apply NoDup_singleton].
    intros p Hp ->%list_elem_of_singleton. apply Hin. by apply Hset.
  - intros p. rewrite elem_of_union, elem_of_singleton, elem_of_app, list_elem_of_singleton.
    rewrite Hset. tauto.
  - intros t [Ht| ->%list_elem_of_singleton]%elem_of_app; simpl; [|lia].
    specialize (Hid t Ht). lia.
  - apply NoDup_app. split; [done|]. split; [|apply NoDup_singleton].
    intros i [t [-> Ht]]%list_elem_of_fmap Hi%list_elem_of_singleton.
    specialize (Hid t Ht). lia.
Qed.

(** Once a thread has finished, its path is no longer in flight, whatever
    the outcome of its decode was. *)
Lemma _drop_loader_not_inflight t w :
  th_path t ∉ _inflight_loads (_drop_loader t w).
Proof.
  unfold _drop_loader. simpl.
  case_bool_decide; simpl; intros [_ Hout]%elem_of_difference;
    apply Hout; by apply elem_of_singleton.
Qed.

Lemma _drop_loader_dispatch_inv t w :
  t ∈ _loaders w → dispatch_inv w → dispatch_inv (_drop_loader t w).
Proof.
  intros Ht (Hnd & Hset & Hid & Hids). unfold _drop_loader. simpl.
  rewrite bool_decide_eq_true_2 by done. unfold dispatch_inv. simpl.
  assert (∀ t', t' ∈ _loaders w → th_path t' = th_path t → t' = t) as Hinj.
  { intros t' Ht' Heq.
    apply list_elem_of_lookup in Ht as [i Hi]. apply list_elem_of_lookup in Ht' as [j Hj].
    assert (i = j) as ->; [|congruence].
    eapply NoDup_lookup; [exact Hnd| |]; rewrite list_lookup_fmap.
    - by rewrite Hi.
    - rewrite Hj. simpl. by rewrite Heq. }
  split; [|split; [|split]].
  - by apply py_remove_fmap_NoDup.
  - intros p. rewrite elem_of_difference, elem_of_singleton, Hset.
    rewrite !list_elem_of_fmap. split.
    + intros [[t' [-> Ht']] Hne]. exists t'. split; [done|].
      apply py_remove_other; [congruence | done].
    + intros [t' [-> Ht']]. split.
      * exists t'. split; [done|]. by eapply py_remove_elem_of.
      * intros Heq. assert (t' = t) as -> by (apply Hinj; [by eapply py_remove_elem_of | done]).
        revert Ht'. apply py_remove_not_in.
        by eapply NoDup_fmap_1.
  - intros t' Ht'. apply Hid. by eapply py_remove_elem_of.
  - by apply py_remove_fmap_NoDup.
Qed.
End DispatcherFacts.

(** ** The navigation and preload controller *)

Section PreloadFacts.
Context {QImage : Type}.
Implicit Types (w : MainWindow QImage) (t : ImageLoaderThread).

Lemma same_view_refl w : same_view w w.
Proof. unfold same_view. done. Qed.

(** One round of the preload loop, by cases on the neighbor. *)
Lemma preload_step_eq off w :
  preload_step off w = Ret (preload_round off w).
Proof.
  unfold preload_step, preload_round, neighbor_path.
  destruct (decide (0 ≤ current_index w + off < Z.of_nat (length (image_files w))))
    as [Hr|Hr]; [|done].
  destruct (py_getitem_in_range _ _ Hr) as (p & -> & ->). simpl.
  destruct (OrderedDict.lookup p (_items (cache w))) as [it|] eqn:E.
  - by rewrite (get_hit _ _ _ E).
  - rewrite (get_miss _ _ E). by rewrite set_cache_same.
Qed.

Lemma same_nav_trans w1 w2 w3 : same_nav w1 w2 → same_nav w2 w3 → same_nav w1 w3.
Proof.
  unfold same_nav. intros (?&?&?&?&?&?&?) (?&?&?&?&?&?&?).
  repeat split; try congruence. set_solver.
Qed.

Lemma preload_step_spec off w :
  ∃ w', preload_step off w = Ret w' ∧ same_nav w w'
        ∧ (dispatch_inv w → dispatch_inv w').
Proof.
  rewrite preload_step_eq. eexists. split; [done|]. unfold preload_round.
  destruct (neighbor_path off w) as [p|].
  - destruct (OrderedDict.lookup p (_items (cache w))).
    + split; [|done]. unfold same_nav. simpl. done.
    + split; [|apply _request_load_dispatch_inv].
      destruct (_request_load_same_view p "preload" w) as (?&?&?&?&?&?&?).
      unfold same_nav. repeat split; try done.
      intros x. apply _request_load_inflight_mono.
  - split; [|done]. unfold same_nav. done.
Qed.

Lemma _preload_neighbors_spec w :
  ∃ w', _preload_neighbors w = Ret w' ∧ same_nav w w'
        ∧ (dispatch_inv w → dispatch_inv w').
Proof.
  unfold _preload_neighbors. destruct (image_files w) eqn:Ef.
  - exists w. split; [done|]. split; [|done]. unfold same_nav. done.
  - destruct (preload_step_spec (-1) w) as (w1 & -> & Hn1 & Hd1). simpl.
    destruct (preload_step_spec 1 w1) as (w2 & -> & Hn2 & Hd2).
    exists w2. split; [done|]. split; [by eapply same_nav_trans | auto].
Qed.

End PreloadFacts.
Section LoadFacts.
Context {QImage : Type}.
Variable basename : string → string.
Implicit Types (w : MainWindow QImage) (t : ImageLoaderThread).

Lemma dispatch_inv_ext w w' :
  _loaders w' = _loaders w → _inflight_loads w' = _inflight_loads w →
  _request_id w' = _request_id w → dispatch_inv w → dispatch_inv w'.
Proof. unfold dispatch_inv. by intros -> -> ->. Qed.

Lemma display_or_request_eq p w :
  display_or_request basename p w
  = match OrderedDict.lookup p (_items (cache w)) with
    | Some it => _display p it (set_cache (get p (cache w)).2 w)
    | None =>
        add_notice LoadingImage
          (_request_load p "main"
             match _thumb_preview w !! p with
             | Some preview => show_preview basename p preview w
             | None => w
             end).2
    end.
Proof.
  unfold display_or_request.
  destruct (OrderedDict.lookup p (_items (cache w))) as [it|] eqn:E.
  - by rewrite (get_hit _ _ _ E).
  - rewrite (get_miss _ _ E). by rewrite set_cache_same.
Qed.

(** After the display-or-request step the selection is where it was, and
    its path is on screen from the cache or its decode is in flight. *)
Lemma display_or_request_spec p w :
  let w' := display_or_request basename p w in
  image_files w' = image_files w
  ∧ current_index w' = current_index w
  ∧ (dispatch_inv w → dispatch_inv w')
  ∧ _inflight_loads w ⊆ _inflight_loads w'
  ∧ match OrderedDict.lookup p (_items (cache w)) with
    | Some it => _item (viewer w') = Some (qimage it)
                 ∧ current_info w' = info it ∧ current_meta w' = meta it
    | None => p ∈ _inflight_loads w' ∧ cache w' = cache w
    end.
Proof.
  cbv zeta. rewrite display_or_request_eq.
  destruct (OrderedDict.lookup p (_items (cache w))) as [it|] eqn:E.
  - simpl. split; [done|]. split; [done|]. split; [|done].
    by apply dispatch_inv_ext.
  - set (w2 := match _thumb_preview w !! p with
               | Some preview => show_preview basename p preview w
               | None => w
               end).
    assert (image_files w2 = image_files w ∧ current_index w2 = current_index w
            ∧ _inflight_loads w2 = _inflight_loads w ∧ cache w2 = cache w
            ∧ (dispatch_inv w → dispatch_inv w2)) as (Hf & Hi & Hin & Hc & Hd).
    { unfold w2. destruct (_thumb_preview w !! p);
        (split; [done|]; split; [done|]; split; [done|]; split; [done|]);
        by apply dispatch_inv_ext. }
    destruct (_request_load_same_view p "main" w2) as (?&?&?&?&?&?&?).
    simpl. split; [congruence|]. split; [congruence|]. split; [|split; [|split]].
    + intros Hw. eapply dispatch_inv_ext;
        [| | |apply (_request_load_dispatch_inv p "main" w2); auto]; done.
    + intros x Hx. apply _request_load_inflight_mono. by rewrite Hin.
    + apply _request_load_inflight_after.
    + congruence.
Qed.

Lemma load_current_eq w :
  load_current basename w
  = match neighbor_path 0 w with
    | Some p => _preload_neighbors (display_or_request basename p w)
    | None => Ret w
    end.
Proof.
  unfold load_current, neighbor_path. rewrite Z.add_0_r.
  destruct (decide (0 ≤ current_index w < Z.of_nat (length (image_files w))))
    as [Hr|Hr]; [|done].
  by destruct (py_getitem_in_range _ _ Hr) as (p & -> & ->).
Qed.

(** [load_current] always returns, and never moves the selection. *)
Lemma load_current_spec w :
  ∃ w', load_current basename w = Ret w'
        ∧ image_files w' = image_files w
        ∧ current_index w' = current_index w
        ∧ (dispatch_inv w → dispatch_inv w')
        ∧ _inflight_loads w ⊆ _inflight_loads w'.
Proof.
  rewrite load_current_eq. destruct (neighbor_path 0 w) as [p|].
  - destruct (display_or_request_spec p w) as (Hf & Hi & Hd & Hin & _).
    destruct (_preload_neighbors_spec (display_or_request basename p w))
      as (w' & -> & (Hf' & Hi' & _ & _ & _ & _ & Hin') & Hd').
    exists w'. split; [done|]. split; [congruence|]. split; [congruence|].
    split; [auto|]. by etrans.
  - exists w. done.
Qed.
End LoadFacts.

(** ** Handlers: invariants and totality *)

Section HandlerFacts.
Context {QImage : Type}.
Variable abspath : string → string.
Variable basename : string → string.
Implicit Types (w : MainWindow QImage) (t : ImageLoaderThread).

Lemma nav_inv_ext w w' :
  image_files w' = image_files w → current_index w' = current_index w →
  nav_inv w → nav_inv w'.
Proof. unfold nav_inv. by intros -> ->. Qed.

Lemma nav_inv_in_range w :
  0 ≤ current_index w < Z.of_nat (length (image_files w)) → nav_inv w.
Proof. by right. Qed.

(** Under the navigation invariant the current path is read without an
    [IndexError]. *)
Lemma cur_path_eq w : nav_inv w → cur_path w = Ret (neighbor_path 0 w).
Proof.
  unfold cur_path, neighbor_path. rewrite Z.add_0_r. intros [[Hf Hi]|Hr].
  - rewrite Hf, Hi. reflexivity.
  - rewrite (decide_True (P := 0 ≤ _ < _)) by done.
    destruct (image_files w) eqn:Ef; [simpl in Hr; lia|]. rewrite <- Ef in *.
    rewrite decide_True by lia.
    by destruct (py_getitem_in_range _ _ Hr) as (p & -> & ->).
Qed.

Lemma mod_in_range (i : Z) (l : list string) :
  l ≠ [] → 0 ≤ i `mod` Z.of_nat (length l) < Z.of_nat (length l).
Proof. intros Hl. apply Z.mod_pos_bound. destruct l; [done | simpl; lia]. Qed.

(** [load_current] keeps both invariants. *)
Lemma load_current_inv w :
  nav_inv w → dispatch_inv w →
  ∃ w', load_current basename w = Ret w' ∧ nav_inv w' ∧ dispatch_inv w'
        ∧ image_files w' = image_files w ∧ current_index w' = current_index w.
Proof.
  intros Hn Hd. destruct (load_current_spec basename w) as (w' & -> & Hf & Hi & Hd' & _).
  exists w'. split; [done|]. split; [by eapply nav_inv_ext|]. auto.
Qed.

Lemma next_image_spec w :
  image_files w ≠ [] →
  ∃ w', next_image basename w = Ret w'
        ∧ image_files w' = image_files w
        ∧ current_index w'
          = (current_index w + 1) `mod` Z.of_nat (length (image_files w))
        ∧ (dispatch_inv w → dispatch_inv w').
Proof.
  intros Hne. unfold next_image. destruct (image_files w) eqn:Ef; [done|].
  rewrite <- Ef in *.
  destruct (load_current_spec basename
    (set_current_index ((current_index w + 1) `mod` Z.of_nat (length (image_files w))) w))
    as (w' & -> & Hf & Hi & Hd & _).
  exists w'. split; [done|]. split; [done|]. split; [done|].
  intros Hw. apply Hd. by apply dispatch_inv_ext with w.
Qed.

Lemma prev_image_spec w :
  image_files w ≠ [] →
  ∃ w', prev_image basename w = Ret w'
        ∧ image_files w' = image_files w
        ∧ current_index w'
          = (current_index w - 1) `mod` Z.of_nat (length (image_files w))
        ∧ (dispatch_inv w → dispatch_inv w').
Proof.
  intros Hne. unfold prev_image. destruct (image_files w) eqn:Ef; [done|].
  rewrite <- Ef in *.
  destruct (load_current_spec basename
    (set_current_index ((current_index w - 1) `mod` Z.of_nat (length (image_files w))) w))
    as (w' & -> & Hf & Hi & Hd & _).
  exists w'. split; [done|]. split; [done|]. split; [done|].
  intros Hw. apply Hd. by apply dispatch_inv_ext with w.
Qed.

(** The clamp of [_skip_corrupted_current] is a minimum. *)
Lemma _skip_corrupted_current_eq w :
  (2 ≤ length (image_files w))%nat →
  0 ≤ current_index w < Z.of_nat (length (image_files w)) →
  ∃ bad, image_files w !! Z.to_nat (current_index w) = Some bad
         ∧ _skip_corrupted_current basename w
           = load_current basename (after_removal bad w).
Proof.
  intros Hlen Hr. unfold _skip_corrupted_current.
  destruct (image_files w) as [|a [|b r]] eqn:Ef; [simpl in Hlen; lia..|].
  rewrite <- Ef in *.
  destruct (py_pop_in_range _ _ Hr) as (bad & Hbad & ->). exists bad.
  split; [done|]. simpl. f_equal. unfold after_removal. f_equal.
  set (files := delete (Z.to_nat (current_index w)) (image_files w)).
  destruct (decide (Z.of_nat (length files) ≤ current_index w)) as [Hc|Hc].
  - by rewrite Z.min_r by lia.
  - rewrite Z.min_l by lia. by destruct w.
Qed.

Lemma after_removal_nav bad w :
  (2 ≤ length (image_files w))%nat →
  0 ≤ current_index w < Z.of_nat (length (image_files w)) →
  image_files (after_removal bad w) = delete (Z.to_nat (current_index w)) (image_files w)
  ∧ current_index (after_removal bad w)
    = Z.min (current_index w) (Z.of_nat (length (image_files (after_removal bad w))) - 1)
  ∧ 0 ≤ current_index (after_removal bad w)
      < Z.of_nat (length (image_files (after_removal bad w))).
Proof.
  intros Hlen Hr. unfold after_removal. simpl. split; [done|]. split; [done|].
  rewrite length_delete.
  - lia.
  - apply lookup_lt_is_Some. lia.
Qed.
End HandlerFacts.

Section PreloadClaims.
Context {QImage : Type}.
Implicit Types (w : MainWindow QImage) (t : ImageLoaderThread).
Implicit Types (d : OrderedDict.t (CachedImage QImage)) (c : ImageCache QImage).

Lemma od_lookup_app k d1 d2 :
  OrderedDict.lookup k (d1 ++ d2)
  = match OrderedDict.lookup k d1 with
    | Some v => Some v
    | None => OrderedDict.lookup k d2
    end.
Proof.
  induction d1 as [|[k' v'] r IH]; [done|]. simpl.
  by destruct (decide (k = k')).
Qed.

Lemma od_lookup_remove k p d :
  OrderedDict.lookup k (OrderedDict.remove p d)
  = if decide (k = p) then None else OrderedDict.lookup k d.
Proof.
  unfold OrderedDict.remove. induction d as [|[k' v'] r IH].
  - by destruct (decide (k = p)).
  - destruct (decide (k' = p)) as [->|Hne].
    + rewrite filter_cons_False by (simpl; tauto). rewrite IH. simpl.
      by destruct (decide (k = p)) as [->|].
    + rewrite filter_cons_True by (simpl; done). simpl. rewrite IH.
      destruct (decide (k = k')) as [->|]; [|done]. by rewrite decide_False.
Qed.

(** [get] changes the order of the entries, not what a key maps to. *)
Lemma get_lookup p c k :
  OrderedDict.lookup k (_items (get p c).2) = OrderedDict.lookup k (_items c).
Proof.
  destruct (OrderedDict.lookup p (_items c)) as [it|] eqn:E.
  - rewrite (get_hit _ _ _ E). simpl. rewrite od_lookup_app, od_lookup_remove.
    destruct (decide (k = p)) as [->|Hne].
    + simpl. by rewrite decide_True.
    + destruct (OrderedDict.lookup k (_items c)); [done|]. simpl.
      by rewrite decide_False.
  - by rewrite (get_miss _ _ E).
Qed.

Lemma od_lookup_is_Some k d :
  is_Some (OrderedDict.lookup k d) ↔ k ∈ OrderedDict.keys d.
Proof.
  rewrite <- not_eq_None_Some, od_lookup_None.
  destruct (decide (k ∈ OrderedDict.keys d)); tauto.
Qed.

(** One round of the preload loop: the neighbor it looks at is promoted
    when cached and requested when not; nothing else happens. *)
Lemma preload_round_spec off w :
  let w' := preload_round off w in
  image_files w' = image_files w
  ∧ current_index w' = current_index w
  ∧ viewer w' = viewer w
  ∧ (∀ k, OrderedDict.lookup k (_items (cache w'))
          = OrderedDict.lookup k (_items (cache w)))
  ∧ cache_keys (cache w')
    = promote_cached (neighbor_path off w) (cache_keys (cache w))
  ∧ _inflight_loads w ⊆ _inflight_loads w'
  ∧ ∃ new,
      _loaders w' = _loaders w ++ new
      ∧ (∀ t, t ∈ new →
           th_role t = "preload"
           ∧ neighbor_path off w = Some (th_path t)
           ∧ OrderedDict.lookup (th_path t) (_items (cache w)) = None
           ∧ th_path t ∉ _inflight_loads w)
      ∧ (∀ p, neighbor_path off w = Some p →
           OrderedDict.lookup p (_items (cache w)) = None →
           p ∈ _inflight_loads w').
Proof.
  cbv zeta. unfold preload_round, promote_cached.
  destruct (neighbor_path off w) as [p|] eqn:Hp.
  - destruct (OrderedDict.lookup p (_items (cache w))) as [it|] eqn:E.
    + simpl. split; [done|]. split; [done|]. split; [done|].
      split; [intros k; apply get_lookup|]. split.
      * rewrite bool_decide_eq_true_2
          by (apply od_lookup_is_Some; rewrite E; by eexists).
        rewrite (get_hit _ _ _ E). unfold cache_keys, promote. simpl.
        by rewrite od_keys_snoc, od_keys_remove.
      * split; [done|]. exists []. rewrite app_nil_r. split; [done|].
        split; [intros t Ht; by apply elem_of_nil in Ht|].
        intros p' [= <-]. congruence.
    + destruct (_request_load_same_view p "preload" w) as (Hf & Hi & Hc & Hv & _).
      split; [done|]. split; [done|]. split; [done|].
      split; [by rewrite Hc|]. split.
      * rewrite Hc. rewrite bool_decide_eq_false_2; [done|].
        by apply od_lookup_None.
      * split; [intros x; apply _request_load_inflight_mono|].
        destruct (decide (p ∈ _inflight_loads w)) as [Hin|Hin].
        -- rewrite _request_load_inflight by done. simpl.
           exists []. rewrite app_nil_r. split; [done|].
           split; [intros t Ht; by apply elem_of_nil in Ht|].
           by intros p' [= <-] _.
        -- rewrite _request_load_fresh by done. simpl.
           eexists. split; [done|]. split.
           ++ intros t ->%list_elem_of_singleton. simpl. done.
           ++ intros p' [= <-] _. set_solver.
  - split; [done|]. split; [done|]. split; [done|]. split; [done|].
    split; [done|]. split; [done|]. exists []. rewrite app_nil_r.
    split; [done|]. split; [intros t Ht; by apply elem_of_nil in Ht | done].
Qed.

Lemma preload_round_nil off w : image_files w = [] → preload_round off w = w.
Proof.
  intros Hf. unfold preload_round, neighbor_path. rewrite Hf. simpl.
  by rewrite decide_False by lia.
Qed.

Lemma _preload_neighbors_eq w :
  _preload_neighbors w = Ret (preload_round 1 (preload_round (-1) w)).
Proof.
  unfold _preload_neighbors. destruct (image_files w) eqn:Ef.
  - rewrite (preload_round_nil (-1)) by done.
    rewrite preload_round_nil by done. reflexivity.
  - rewrite preload_step_eq. simpl. apply preload_step_eq.
Qed.

Lemma neighbor_path_ext off w w' :
  image_files w' = image_files w → current_index w' = current_index w →
  neighbor_path off w' = neighbor_path off w.
Proof. unfold neighbor_path. by intros -> ->. Qed.

(** The threads the two rounds start. *)
Lemma _preload_neighbors_threads w :
  let w' := preload_round 1 (preload_round (-1) w) in
  (∃ new,
     _loaders w' = _loaders w ++ new
     ∧ ∀ t, t ∈ new →
         th_role t = "preload"
         ∧ (neighbor_path (-1) w = Some (th_path t)
            ∨ neighbor_path 1 w = Some (th_path t))
         ∧ OrderedDict.lookup (th_path t) (_items (cache w)) = None
         ∧ th_path t ∉ _inflight_loads w)
  ∧ (∀ off p, off = -1 ∨ off = 1 →
       neighbor_path off w = Some p →
       OrderedDict.lookup p (_items (cache w)) = None →
       p ∈ _inflight_loads w').
Proof.
  cbv zeta. set (w1 := preload_round (-1) w).
  destruct (preload_round_spec (-1) w)
    as (Hf1 & Hi1 & _ & Hc1 & _ & Hin1 & new1 & Hl1 & Hnew1 & Hreq1).
  destruct (preload_round_spec 1 w1)
    as (Hf2 & Hi2 & _ & Hc2 & _ & Hin2 & new2 & Hl2 & Hnew2 & Hreq2).
  fold w1 in Hf1, Hi1, Hc1, Hin1, Hl1, Hreq1.
  assert (∀ off, neighbor_path off w1 = neighbor_path off w) as Hnb
    by (intros off; by apply neighbor_path_ext).
  split.
  - exists (new1 ++ new2). split; [by rewrite Hl2, Hl1, app_assoc|].
    intros t [Ht|Ht]%elem_of_app.
    + destruct (Hnew1 t Ht) as (? & ? & ? & ?). auto.
    + destruct (Hnew2 t Ht) as (? & Hn & Hc & Hi). rewrite Hnb in Hn.
      rewrite Hc1 in Hc. split; [done|]. split; [by right|]. split; [done|].
      intros Hin. by apply Hi, Hin1.
  - intros off p [->| ->] Hp Hc.
    + apply Hin2. by apply Hreq1.
    + apply Hreq2; [by rewrite Hnb | by rewrite Hc1].
Qed.

(** C10. [_preload_neighbors] asks the cache for each in-range neighbor
    with [get]: a neighbor that is cached is moved to the
    most-recently-used end when its round runs (the left neighbor first,
    then the right one, which therefore ends up last), no thread is
    started for it and the viewer is untouched; the key order of the cache
    after the step is the order before with those promotions applied. *)
Theorem preload_promotes_cached_neighbors w :
  ∃ w', _preload_neighbors w = Ret w'
        ∧ w' = preload_round 1 (preload_round (-1) w)
        ∧ viewer w' = viewer w
        ∧ cache_keys (cache w')
          = promote_cached (neighbor_path 1 w)
              (promote_cached (neighbor_path (-1) w) (cache_keys (cache w)))
        ∧ (∀ p, neighbor_path (-1) w = Some p → p ∈ cache_keys (cache w) →
             last (cache_keys (cache (preload_round (-1) w))) = Some p)
        ∧ (∀ p, neighbor_path 1 w = Some p → p ∈ cache_keys (cache w) →
             last (cache_keys (cache w')) = Some p)
        ∧ (∀ off p, off = -1 ∨ off = 1 →
             neighbor_path off w = Some p → p ∈ cache_keys (cache w) →
             ∀ t, t ∈ _loaders w' → th_path t = p → t ∈ _loaders w).
Proof.
  destruct (_preload_neighbors_threads w) as [(new & Hl & Hnew) _].
  rewrite _preload_neighbors_eq. eexists. split; [done|]. split; [done|].
  set (w1 := preload_round (-1) w).
  destruct (preload_round_spec (-1) w)
    as (Hf1 & Hi1 & Hv1 & Hc1 & Hk1 & _).
  destruct (preload_round_spec 1 w1)
    as (Hf2 & Hi2 & Hv2 & Hc2 & Hk2 & _).
  fold w1 in Hf1, Hi1, Hv1, Hc1, Hk1.
  assert (neighbor_path 1 w1 = neighbor_path 1 w) as Hnb
    by (by apply neighbor_path_ext).
  rewrite Hnb in Hk2.
  assert (∀ p, p ∈ cache_keys (cache w1) ↔ p ∈ cache_keys (cache w)) as Hmem.
  { intros p. unfold cache_keys. by rewrite <- !od_lookup_is_Some, Hc1. }
  split; [congruence|]. split; [by rewrite Hk2, Hk1|]. split; [|split].
  - intros p Hp Hin. rewrite Hk1, Hp. simpl.
    rewrite bool_decide_eq_true_2 by done. apply last_snoc.
  - intros p Hp Hin. rewrite Hk2, Hp. simpl.
    rewrite bool_decide_eq_true_2 by (by apply Hmem). apply last_snoc.
  - intros off p Hoff Hp Hin t Ht Hpt. subst w1. rewrite Hl in Ht.
    apply elem_of_app in Ht as [Ht|Ht]; [done|]. exfalso.
    destruct (Hnew t Ht) as (_ & _ & Hnone & _).
    apply od_lookup_None in Hnone. apply Hnone. by rewrite Hpt.
Qed.
End PreloadClaims.

Section LoadedFacts.
Context {QImage : Type}.
Variable abspath : string → string.
Variable basename : string → string.
Implicit Types (w : MainWindow QImage) (t : ImageLoaderThread).

Lemma _on_loaded_success rid p q i m role w :
  nav_inv w →
  _on_loaded basename rid p (Some q) (Some i) (Some m) role w
  = Ret (let cached := {| qimage := q; info := i; meta := m |} in
         let w1 := set_cache (put p cached (cache w)) w in
         if decide (neighbor_path 0 w = Some p) then _display p cached w1 else w1).
Proof.
  intros Hn. unfold _on_loaded.
  rewrite cur_path_eq by (by eapply nav_inv_ext; [..|exact Hn]).
  simpl. rewrite (neighbor_path_ext 0 w) by done.
  destruct (decide (Some p = neighbor_path 0 w)) as [Heq|Hne];
    destruct (decide (neighbor_path 0 w = Some p)); (reflexivity || congruence).
Qed.

Lemma _on_loaded_failure rid p q i m role w :
  nav_inv w → decode_failed q i m →
  _on_loaded basename rid p q i m role w
  = if decide (neighbor_path 0 w = Some p)
    then _skip_corrupted_current basename (add_notice (FailedToLoad p) w)
    else Ret w.
Proof.
  intros Hn Hfail.
  assert (_on_loaded basename rid p q i m role w
          = cur ← cur_path w;
            if decide (Some p = cur)
            then _skip_corrupted_current basename (add_notice (FailedToLoad p) w)
            else mret w) as ->.
  { unfold _on_loaded. destruct Hfail as [->| [->| ->]]; [done|..].
    - by destruct q.
    - by destruct q, i. }
  rewrite cur_path_eq by done. simpl.
  destruct (decide (Some p = neighbor_path 0 w)) as [Heq|Hne];
    destruct (decide (neighbor_path 0 w = Some p)); (reflexivity || congruence).
Qed.

(** A failure for the only file of the list clears the view and keeps the
    list. *)
Lemma _on_loaded_failure_single rid p q i m role w :
  image_files w = [p] → current_index w = 0 → decode_failed q i m →
  _on_loaded basename rid p q i m role w
  = Ret (set_viewer (clear_view (viewer w)) (add_notice (FailedToLoad p) w)).
Proof.
  intros Hf Hi Hfail. rewrite _on_loaded_failure; [|right; rewrite Hf, Hi; simpl; lia|done].
  unfold neighbor_path. rewrite Hf, Hi. simpl.
  unfold _skip_corrupted_current. simpl. rewrite Hf.
  rewrite decide_True by done. reflexivity.
Qed.

Lemma _skip_corrupted_current_inv w :
  nav_inv w → dispatch_inv w → image_files w ≠ [] →
  ∃ w', _skip_corrupted_current basename w = Ret w' ∧ nav_inv w' ∧ dispatch_inv w'.
Proof.
  intros Hn Hd Hne. destruct Hn as [[Hf _]|Hr]; [done|].
  destruct (decide (2 ≤ length (image_files w))%nat) as [Hlen|Hlen].
  - destruct (_skip_corrupted_current_eq basename w Hlen Hr) as (bad & _ & ->).
    destruct (after_removal_nav bad w Hlen Hr) as (_ & _ & Hr').
    destruct (load_current_inv basename (after_removal bad w))
      as (w' & Hw' & ? & ? & _); [by right | by apply dispatch_inv_ext with w|].
    by exists w'.
  - unfold _skip_corrupted_current.
    destruct (image_files w) as [|a [|b r]] eqn:Ef; [done| |simpl in Hlen; lia].
    eexists. split; [done|]. split.
    + eapply nav_inv_ext with w; [done..|]. right. by rewrite Ef.
    + by apply dispatch_inv_ext with w.
Qed.

Lemma neighbor_path_Some off w p :
  neighbor_path off w = Some p →
  0 ≤ current_index w + off < Z.of_nat (length (image_files w))
  ∧ image_files w !! Z.to_nat (current_index w + off) = Some p.
Proof. unfold neighbor_path. case_decide; [done | intros [=]]. Qed.

Lemma failure_branch_inv p w :
  nav_inv w → dispatch_inv w →
  ∃ w', (if decide (neighbor_path 0 w = Some p)
         then _skip_corrupted_current basename (add_notice (FailedToLoad p) w)
         else Ret w) = Ret w'
        ∧ nav_inv w' ∧ dispatch_inv w'.
Proof.
  intros Hn Hd. destruct (decide (neighbor_path 0 w = Some p)) as [Hp|]; [|by exists w].
  apply _skip_corrupted_current_inv.
  - by apply nav_inv_ext with w.
  - by apply dispatch_inv_ext with w.
  - simpl. apply neighbor_path_Some in Hp as [Hr _].
    destruct (image_files w); [simpl in Hr; lia | done].
Qed.

(** Every handler returns and keeps the navigation and dispatcher
    invariants. *)
Lemma handle_inv ev w :
  nav_inv w → dispatch_inv w → enabled ev w →
  ∃ w', handle abspath basename ev w = Ret w' ∧ nav_inv w' ∧ dispatch_inv w'.
Proof.
  intros Hn Hd Hen. destruct ev; simpl.
  - eexists. split; [done|]. split;
      [by apply nav_inv_ext with w | by apply dispatch_inv_ext with w].
  - unfold _on_scanned. destruct (decide (token ≠ _scan_token w)); [by exists w|].
    destruct (payload_files payload) as [|f fs] eqn:Ef.
    + eexists. split; [done|]. split;
        [by apply nav_inv_ext with w | by apply dispatch_inv_ext with w].
    + destruct (load_current_inv basename
        (_start_thumbnail_loader (_populate_thumbnails
           (set_current_index (Z.max 0 (Z.min (payload_index payload)
                                          (Z.of_nat (length (f :: fs)) - 1)))
              (set_thumb_index (enumerate_index 0 (f :: fs) ∅)
                 (set_thumb_preview ∅ (set_image_files (f :: fs) w)))))))
        as (w' & Hw' & ? & ? & _).
      * right. simpl. lia.
      * by apply dispatch_inv_ext with w.
      * exists w'. done.
  - unfold _on_thumbnail_ready. destruct (decide (token ≠ _thumb_token w)); [by exists w|].
    eexists. split; [done|]. split;
      [by apply nav_inv_ext with w | by apply dispatch_inv_ext with w].
  - unfold on_thumbnail_clicked.
    destruct (decide (0 ≤ row < Z.of_nat (length (image_files w)))); [|by exists w].
    destruct (load_current_inv basename (set_current_index row w))
      as (w' & Hw' & ? & ? & _); [by right | by apply dispatch_inv_ext with w|].
    by exists w'.
  - eexists. split; [done|]. split;
      [by apply nav_inv_ext with w | by apply dispatch_inv_ext with w].
  - destruct (decide (image_files w = [])) as [Hf|Hf].
    + unfold next_image. rewrite Hf. by exists w.
    + destruct (next_image_spec basename w Hf) as (w' & -> & Hf' & Hi' & Hd').
      exists w'. split; [done|]. split; [|auto]. right.
      rewrite Hi', Hf'. by apply mod_in_range.
  - destruct (decide (image_files w = [])) as [Hf|Hf].
    + unfold prev_image. rewrite Hf. by exists w.
    + destruct (prev_image_spec basename w Hf) as (w' & -> & Hf' & Hi' & Hd').
      exists w'. split; [done|]. split; [|auto]. right.
      rewrite Hi', Hf'. by apply mod_in_range.
  - unfold _move_selection_only.
    destruct (image_files w) as [|f fs] eqn:Ef; [by exists w|]. rewrite <- Ef.
    assert (image_files w ≠ []) as Hf by (by rewrite Ef).
    pose proof (mod_in_range (current_index w + step) _ Hf) as Hr.
    destruct (py_getitem_in_range (image_files w) _ Hr) as (p & _ & Hp).
    simpl. rewrite Hp. simpl. eexists. split; [done|]. split.
    + right. simpl. done.
    + by apply dispatch_inv_ext with w.
  - unfold _open_selected.
    destruct (image_files w) as [|f fs] eqn:Ef; [by exists w|]. rewrite <- Ef.
    destruct (decide (0 ≤ row < Z.of_nat (length (image_files w)))).
    + destruct (load_current_inv basename (set_current_index row w))
        as (w' & Hw' & ? & ? & _); [by right | by apply dispatch_inv_ext with w|].
      by exists w'.
    + destruct (load_current_inv basename w Hn Hd) as (w' & Hw' & ? & ? & _).
      by exists w'.
  - destruct q as [q|], i as [i|], m as [m|];
      [rewrite _on_loaded_success by done
      |rewrite _on_loaded_failure by (done || (unfold decode_failed; tauto))..].
    + eexists. split; [done|]. cbv zeta.
      destruct (decide (neighbor_path 0 w = Some path)); split;
        (by apply nav_inv_ext with w) || (by apply dispatch_inv_ext with w).
    + by apply failure_branch_inv.
    + by apply failure_branch_inv.
    + by apply failure_branch_inv.
    + by apply failure_branch_inv.
    + by apply failure_branch_inv.
    + by apply failure_branch_inv.
    + by apply failure_branch_inv.
  - eexists. split; [done|]. split.
    + apply nav_inv_ext with w; [..|done]; unfold _drop_loader; simpl;
        by case_bool_decide.
    + by apply _drop_loader_dispatch_inv.
Qed.

Lemma MainWindow_init_inv :
  nav_inv (@MainWindow_init QImage) ∧ dispatch_inv (@MainWindow_init QImage).
Proof.
  split; [by left|]. unfold dispatch_inv. simpl.
  split; [constructor|]. split; [|split; [|constructor]].
  - intros p. simpl. split; [intros H; by apply elem_of_empty in H|].
    intros H. by apply elem_of_nil in H.
  - intros t Ht. by apply elem_of_nil in Ht.
Qed.

(** In every state the control thread can reach, both invariants hold. *)
Lemma reachable_inv w :
  reachable abspath basename w → nav_inv w ∧ dispatch_inv w.
Proof.
  induction 1 as [|w ev w' Hw [Hn Hd] Hen Hstep]; [apply MainWindow_init_inv|].
  destruct (handle_inv ev w Hn Hd Hen) as (w'' & Hw'' & ? & ?).
  rewrite Hstep in Hw''. by injection Hw'' as <-.
Qed.

(** No handler raises in a reachable state. *)
Lemma reachable_total w ev :
  reachable abspath basename w → enabled ev w →
  ∃ w', handle abspath basename ev w = Ret w'.
Proof.
  intros [Hn Hd]%reachable_inv Hen.
  destruct (handle_inv ev w Hn Hd Hen) as (w' & Hw' & _). by exists w'.
Qed.
End LoadedFacts.

(** ** Claims about the controller *)

Section ControllerClaims.
Context {QImage : Type}.
Variable abspath : string → string.
Variable basename : string → string.
Implicit Types (w : MainWindow QImage) (t : ImageLoaderThread).

(** C4. A request for a path that is in the in-flight set returns [None]
    and leaves the window as it was, so no thread is started; in every
    state the control thread can reach, no two live threads decode the same
    path and the in-flight set is exactly the set of their paths; and after
    [_drop_loader] for a thread, whatever its decode produced, the thread's
    path is not in the in-flight set. *)
Theorem dispatcher_dedup :
  (∀ (p role : string) w,
     p ∈ _inflight_loads w → _request_load p role w = (None, w))
  ∧ (∀ w, reachable abspath basename w →
       NoDup (th_path <$> _loaders w)
       ∧ ∀ p, p ∈ _inflight_loads w ↔ p ∈ th_path <$> _loaders w)
  ∧ (∀ t w, th_path t ∉ _inflight_loads (_drop_loader t w)).
Proof.
  split; [|split].
  - intros p role w. apply _request_load_inflight.
  - intros w [_ (Hnd & Hset & _)]%reachable_inv. done.
  - intros t w. apply _drop_loader_not_inflight.
Qed.

(** C5. A scan result whose token is not the current scan token leaves the
    whole window unchanged: the handler returns the state it was given. *)
Theorem stale_scan_ignored (token : Z) (folder : string) (payload : ScanPayload) w :
  token ≠ _scan_token w →
  _on_scanned basename token folder payload w = Ret w.
Proof. intros Hne. unfold _on_scanned. by rewrite decide_True. Qed.

(** C6. When a decode result for [p] arrives in a window that satisfies the
    navigation invariant: a success is stored in the cache and is
    displayed exactly when [p] is the path at the current index, otherwise
    nothing but the cache changes; a failure for a path that is not the
    current one returns the window unchanged. *)
Theorem loaded_result_staleness (rid : Z) (p : string) (q : option QImage)
    (i m : option StrDict) (role : string) w :
  nav_inv w →
  (∀ qi ii mi, q = Some qi → i = Some ii → m = Some mi →
     let cached := {| qimage := qi; info := ii; meta := mi |} in
     ∃ w', _on_loaded basename rid p q i m role w = Ret w'
           ∧ cache w' = put p cached (cache w)
           ∧ image_files w' = image_files w
           ∧ current_index w' = current_index w
           ∧ (neighbor_path 0 w = Some p →
              _item (viewer w') = Some qi
              ∧ current_info w' = ii ∧ current_meta w' = mi)
           ∧ (neighbor_path 0 w ≠ Some p →
              w' = set_cache (put p cached (cache w)) w))
  ∧ (decode_failed q i m → neighbor_path 0 w ≠ Some p →
     _on_loaded basename rid p q i m role w = Ret w).
Proof.
  intros Hn. split.
  - intros qi ii mi -> -> -> cached. rewrite _on_loaded_success by done.
    eexists. split; [done|]. cbv zeta.
    destruct (decide (neighbor_path 0 w = Some p)) as [Hp|Hp]; simpl;
      repeat split; try done.
  - intros Hfail Hp. rewrite _on_loaded_failure by done.
    by rewrite decide_False.
Qed.

Lemma repeat_next_image (k : nat) w :
  image_files w ≠ [] →
  0 ≤ current_index w < Z.of_nat (length (image_files w)) →
  ∃ w', repeat_handler k (next_image basename) w = Ret w'
        ∧ image_files w' = image_files w
        ∧ current_index w'
          = (current_index w + Z.of_nat k) `mod` Z.of_nat (length (image_files w)).
Proof.
  revert w. induction k as [|k IH]; intros w Hne Hr.
  - exists w. split; [done|]. split; [done|].
    rewrite Z.add_0_r, Z.mod_small; done.
  - destruct (next_image_spec basename w Hne) as (w1 & Hw1 & Hf1 & Hi1 & _).
    simpl. rewrite Hw1. simpl.
    destruct (IH w1) as (w' & Hw' & Hf' & Hi').
    + by rewrite Hf1.
    + rewrite Hi1, Hf1. by apply mod_in_range.
    + exists w'. split; [done|]. split; [congruence|].
      rewrite Hi', Hi1, Hf1. rewrite Zplus_mod_idemp_l. f_equal. lia.
Qed.

(** C7. For a file list of length [N >= 2] and a current index inside it:
    [next_image] and [prev_image] return, keep the list and set the index
    to [(index + 1) mod N] and [(index - 1) mod N]; [N] calls of
    [next_image] bring the index back to where it started; and
    [prev_image] at index 0 gives [N - 1]. *)
Theorem navigation_wraparound (N : nat) w :
  length (image_files w) = N → (2 ≤ N)%nat →
  0 ≤ current_index w < Z.of_nat N →
  (∃ w', next_image basename w = Ret w'
         ∧ image_files w' = image_files w
         ∧ current_index w' = (current_index w + 1) `mod` Z.of_nat N)
  ∧ (∃ w', prev_image basename w = Ret w'
           ∧ image_files w' = image_files w
           ∧ current_index w' = (current_index w - 1) `mod` Z.of_nat N)
  ∧ (∃ w', repeat_handler N (next_image basename) w = Ret w'
           ∧ image_files w' = image_files w
           ∧ current_index w' = current_index w)
  ∧ (current_index w = 0 →
     ∃ w', prev_image basename w = Ret w' ∧ current_index w' = Z.of_nat N - 1).
Proof.
  intros HN Hlen Hr.
  assert (image_files w ≠ []) as Hne by (destruct (image_files w); simpl in *; [lia|done]).
  destruct (next_image_spec basename w Hne) as (wn & Hwn & Hfn & Hin & _).
  destruct (prev_image_spec basename w Hne) as (wp & Hwp & Hfp & Hip & _).
  rewrite HN in *.
  split; [by exists wn|]. split; [by exists wp|]. split.
  - destruct (repeat_next_image N w Hne) as (w' & Hw' & Hf' & Hi'); [by rewrite HN|].
    exists w'. split; [done|]. split; [done|]. rewrite Hi', HN.
    rewrite <- (Z.mul_1_l (Z.of_nat N)) at 1. rewrite Z.mod_add by lia.
    apply Z.mod_small. done.
  - intros H0. exists wp. split; [done|]. rewrite Hip, H0.
    change (0 - 1) with (-1). rewrite <- (Z.mod_add _ 1) by lia.
    rewrite Z.mod_small by lia. lia.
Qed.
End ControllerClaims.

Section SkipAndPreloadClaims.
Context {QImage : Type}.
Variable basename : string → string.
Implicit Types (w : MainWindow QImage) (t : ImageLoaderThread).

(** C2 (amended). When the file list is exactly [[p]] with current index 0
    and a decode failure arrives for [p], the handler returns without
    raising, the display is cleared, and the file list is left as it was:
    still [[p]], with current index 0. *)
Theorem single_file_failure_keeps_list (rid : Z) (p : string)
    (q : option QImage) (i m : option StrDict) (role : string) w :
  image_files w = [p] → current_index w = 0 → decode_failed q i m →
  ∃ w', _on_loaded basename rid p q i m role w = Ret w'
        ∧ image_files w' = [p]
        ∧ current_index w' = 0
        ∧ _item (viewer w') = None
        ∧ w' = set_viewer (clear_view (viewer w)) (add_notice (FailedToLoad p) w).
Proof.
  intros Hf Hi Hfail. rewrite _on_loaded_failure_single by done.
  eexists. split; [done|]. simpl. done.
Qed.

(** What [load_current] shows for the selected path: the cached image, or
    a decode of it in flight. *)
Lemma load_current_shows w p :
  neighbor_path 0 w = Some p →
  ∃ w', load_current basename w = Ret w'
        ∧ image_files w' = image_files w
        ∧ current_index w' = current_index w
        ∧ match OrderedDict.lookup p (_items (cache w)) with
          | Some it => _item (viewer w') = Some (qimage it)
          | None => p ∈ _inflight_loads w'
          end.
Proof.
  intros Hp. rewrite load_current_eq, Hp.
  destruct (display_or_request_spec basename p w) as (Hf & Hi & _ & _ & Hshow).
  destruct (_preload_neighbors_spec (display_or_request basename p w))
    as (w' & -> & (Hf' & Hi' & Hv' & _ & _ & _ & Hin') & _).
  exists w'. split; [done|]. split; [congruence|]. split; [congruence|].
  destruct (OrderedDict.lookup p (_items (cache w))) as [it|].
  - destruct Hshow as (Hit & _). by rewrite Hv'.
  - destruct Hshow as (Hin & _). by apply Hin'.
Qed.

(** C3. For a file list of length at least 2, a decode failure for the
    path at the current index removes the entry at that index, sets the
    index to the minimum of its old value and the new last position, and
    runs [load_current] again on that state; the path now selected is shown
    from the cache or has a decode in flight. *)
Theorem corrupted_current_removed (rid : Z) (p : string) (q : option QImage)
    (i m : option StrDict) (role : string) w :
  (2 ≤ length (image_files w))%nat →
  neighbor_path 0 w = Some p →
  decode_failed q i m →
  ∃ w', _on_loaded basename rid p q i m role w = Ret w'
        ∧ image_files w' = delete (Z.to_nat (current_index w)) (image_files w)
        ∧ current_index w'
          = Z.min (current_index w) (Z.of_nat (length (image_files w')) - 1)
        ∧ load_current basename (after_removal p (add_notice (FailedToLoad p) w))
          = Ret w'
        ∧ ∃ p', neighbor_path 0 w' = Some p'
                ∧ match OrderedDict.lookup p' (_items (cache w)) with
                  | Some it => _item (viewer w') = Some (qimage it)
                  | None => p' ∈ _inflight_loads w'
                  end.
Proof.
  intros Hlen Hp Hfail.
  destruct (neighbor_path_Some _ _ _ Hp) as [Hr Hl]. rewrite Z.add_0_r in Hr, Hl.
  rewrite _on_loaded_failure by (done || by right). rewrite decide_True by done.
  set (w0 := add_notice (FailedToLoad p) w).
  destruct (_skip_corrupted_current_eq basename w0 Hlen Hr) as (bad & Hbad & ->).
  assert (bad = p) as -> by (simpl in Hbad; congruence).
  destruct (after_removal_nav p w0 Hlen Hr) as (Hf & Hi & Hr').
  assert (∃ p', neighbor_path 0 (after_removal p w0) = Some p') as [p' Hp'].
  { unfold neighbor_path. rewrite Z.add_0_r. rewrite decide_True by done.
    apply lookup_lt_is_Some. lia. }
  destruct (load_current_shows _ _ Hp') as (w' & Hw' & Hf' & Hi' & Hshow).
  exists w'. split; [done|]. split; [by rewrite Hf'|]. split.
  { rewrite Hi', Hf'. exact Hi. }
  split; [done|]. exists p'. split; [|done].
  rewrite <- Hp'. by apply neighbor_path_ext.
Qed.

End SkipAndPreloadClaims.

(** * Further properties of the code *)

(** ** The cache *)

Section CacheMore.
Context {QImage : Type}.
Implicit Types (c : ImageCache QImage) (d : OrderedDict.t (CachedImage QImage)).
Implicit Types (ops : list (cache_op QImage)) (k p : string).

Lemma put_items_split p it c :
  ∃ pre, OrderedDict.remove p (_items c) ++ [(p, it)] = pre ++ _items (put p it c).
Proof.
  unfold put. simpl. rewrite put_insert_eq. apply evict_loop_suffix.
Qed.

(** With a positive capacity the entry just put survives the eviction
    loop, at the young end. *)
Lemma put_items_tail p it c :
  1 ≤ capacity c →
  ∃ pre suf, OrderedDict.remove p (_items c) = pre ++ suf
             ∧ _items (put p it c) = suf ++ [(p, it)].
Proof.
  intros Hcap. destruct (put_items_split p it c) as [pre Hpre].
  assert (_items (put p it c) ≠ []) as Hne.
  { unfold put. simpl. apply evict_loop_nonempty; [done|].
    rewrite put_insert_eq. by destruct (OrderedDict.remove p (_items c)). }
  destruct (exists_last Hne) as (suf & y & Hk).
  rewrite Hk, app_assoc in Hpre. apply app_inj_tail in Hpre as [Hl <-].
  by exists pre, suf.
Qed.

Lemma put_lookup_same p it c :
  1 ≤ capacity c → OrderedDict.lookup p (_items (put p it c)) = Some it.
Proof.
  intros Hcap. destruct (put_items_tail p it c Hcap) as (pre & suf & Hrem & ->).
  rewrite od_lookup_app.
  assert (OrderedDict.lookup p suf = None) as ->.
  { apply od_lookup_None. intros Hin. apply (od_remove_not_in p (_items c)).
    rewrite Hrem. unfold OrderedDict.keys. rewrite fmap_app.
    apply elem_of_app. by right. }
  simpl. by rewrite decide_True.
Qed.

Lemma put_last_cap p it c :
  1 ≤ capacity c → last (cache_keys (put p it c)) = Some p.
Proof.
  intros Hcap. destruct (put_items_tail p it c Hcap) as (pre & suf & _ & Hk).
  unfold cache_keys. rewrite Hk, od_keys_snoc. apply last_snoc.
Qed.

(** X1. [get] never changes what the cache maps a key to, nor the
    capacity; it returns the entry of its key, and for a key that is not
    cached it returns [None] and leaves the cache exactly as it was. *)
Theorem get_keeps_entries p c :
  (get p c).1 = OrderedDict.lookup p (_items c)
  ∧ (∀ k, OrderedDict.lookup k (_items (get p c).2)
          = OrderedDict.lookup k (_items c))
  ∧ capacity (get p c).2 = capacity c
  ∧ (p ∉ cache_keys c → get p c = (None, c)).
Proof.
  split; [|split; [|split]].
  - destruct (OrderedDict.lookup p (_items c)) as [it|] eqn:E.
    + by rewrite (get_hit _ _ _ E).
    + by rewrite (get_miss _ _ E).
  - intros k. apply get_lookup.
  - apply get_capacity.
  - intros Hp. apply get_miss. by apply od_lookup_None.
Qed.

(** X2. In a cache of positive capacity, an entry that was just put is
    found again: a [get] of the same path right after the [put] returns
    that entry, whatever the cache held and however full it was. *)
Theorem put_then_get p it c :
  1 ≤ capacity c →
  (get p (put p it c)).1 = Some it
  ∧ last (cache_keys (put p it c)) = Some p.
Proof.
  intros Hcap. split; [|by apply put_last_cap].
  pose proof (put_lookup_same p it c Hcap) as E.
  by rewrite (get_hit _ _ _ E).
Qed.

Lemma tail_keys d : OrderedDict.keys (tail d) = tail (OrderedDict.keys d).
Proof. by destruct d. Qed.

(** X3. What [put] does to the key order of a cache that was built from a
    new one by [put] and [get]: when the key is already cached or the
    cache is not full, nothing is evicted and the key goes to the young
    end; when the key is new and the cache is full, exactly the oldest key
    is evicted. *)
Theorem put_key_order (capacity0 : Z) ops p it :
  let c := cache_run ops (ImageCache_init capacity0) in
  ((p ∈ cache_keys c ∨ Z.of_nat (length (_items c)) < capacity c) →
   cache_keys (put p it c) = filter (λ x, x ≠ p) (cache_keys c) ++ [p])
  ∧ (p ∉ cache_keys c → Z.of_nat (length (_items c)) = capacity c →
     cache_keys (put p it c) = tail (cache_keys c) ++ [p]).
Proof.
  intros c. pose proof (lru_inv_run capacity0 ops) as (Hcap & Hlen & _). fold c in Hcap, Hlen.
  split.
  - intros Hcase. unfold put, cache_keys. simpl. rewrite put_insert_eq.
    rewrite evict_loop_fits; [by rewrite od_keys_snoc, od_keys_remove|].
    rewrite length_app. simpl. destruct Hcase as [Hin|Hlt].
    + pose proof (length_remove_present p _ Hin). lia.
    + pose proof (length_filter (λ kv : string * CachedImage QImage, kv.1 ≠ p) (_items c)).
      unfold OrderedDict.remove. lia.
  - intros Hp Hfull. unfold put, cache_keys. simpl. rewrite put_insert_eq.
    rewrite od_remove_absent by done.
    destruct (_items c) as [|x r] eqn:Ed; [simpl in Hfull; lia|].
    simpl. rewrite decide_True by (rewrite length_app; simpl in *; lia).
    rewrite evict_loop_fits by (rewrite length_app; simpl in *; lia).
    by rewrite od_keys_snoc.
Qed.

(** X4. A cache asked for with capacity 1 or less (zero and negative
    included) has capacity 1: after any history, a [put] leaves it holding
    the entry just put and nothing else. *)
Theorem capacity_clamped_to_one (capacity0 : Z) ops p it :
  capacity0 ≤ 1 →
  _items (put p it (cache_run ops (ImageCache_init capacity0))) = [(p, it)].
Proof.
  intros Hc. set (c := cache_run ops (ImageCache_init capacity0)).
  assert (capacity c = 1) as Hcap.
  { unfold c. rewrite cache_run_capacity. simpl. lia. }
  destruct (put_items_tail p it c) as (pre & suf & _ & Hk); [lia|].
  assert (Z.of_nat (length (_items (put p it c))) ≤ 1) as Hlen.
  { unfold put. simpl. rewrite <- Hcap. apply evict_loop_length. lia. }
  rewrite Hk in *. rewrite length_app in Hlen. simpl in Hlen.
  destruct suf; [done | simpl in Hlen; lia].
Qed.
End CacheMore.

(** ** What loading leaves alone *)

Section FrameMore.
Context {QImage : Type}.
Implicit Types (w : MainWindow QImage) (t : ImageLoaderThread).

Lemma same_lists_refl w : same_lists w w.
Proof. unfold same_lists. done. Qed.

Lemma same_lists_trans w1 w2 w3 :
  same_lists w1 w2 → same_lists w2 w3 → same_lists w1 w3.
Proof.
  unfold same_lists. intros (?&?&?&?&?&?&?&?) (?&?&?&?&?&?&?&?).
  repeat split; congruence.
Qed.

Lemma _request_load_same_lists p role w :
  same_lists w (_request_load p role w).2.
Proof. unfold _request_load. case_bool_decide; simpl; unfold same_lists; done. Qed.

Lemma preload_round_same_lists off w : same_lists w (preload_round off w).
Proof.
  unfold preload_round. destruct (neighbor_path off w) as [p|]; [|apply same_lists_refl].
  destruct (OrderedDict.lookup p (_items (cache w))).
  - unfold same_lists. done.
  - apply _request_load_same_lists.
Qed.
End FrameMore.

Section FrameLoad.
Context {QImage : Type}.
Variable basename : string → string.
Implicit Types (w : MainWindow QImage) (t : ImageLoaderThread).

Lemma display_or_request_same_lists p w :
  same_lists w (display_or_request basename p w).
Proof.
  rewrite display_or_request_eq.
  destruct (OrderedDict.lookup p (_items (cache w))); [unfold same_lists; done|].
  eapply same_lists_trans; [|eapply same_lists_trans;
    [apply (_request_load_same_lists p "main")|unfold same_lists; done]].
  destruct (_thumb_preview w !! p); unfold same_lists; done.
Qed.

(** [load_current] as a function: what it returns, without the monad. *)
Lemma load_current_Ret w :
  load_current basename w
  = Ret match neighbor_path 0 w with
        | Some p => preload_round 1 (preload_round (-1) (display_or_request basename p w))
        | None => w
        end.
Proof.
  rewrite load_current_eq. destruct (neighbor_path 0 w); [|done].
  apply _preload_neighbors_eq.
Qed.

Lemma load_current_same_lists w w' :
  load_current basename w = Ret w' → same_lists w w'.
Proof.
  rewrite load_current_Ret. intros [= <-].
  destruct (neighbor_path 0 w) as [p|]; [|apply same_lists_refl].
  eapply same_lists_trans; [apply display_or_request_same_lists|].
  eapply same_lists_trans; apply preload_round_same_lists.
Qed.
End FrameLoad.

(** ** The folder scanner, further *)

Section ScannerMore.
Variable abspath : string → string.

Lemma str_le_antisym : AntiSymm eq str_le.
Proof. intros a b. unfold str_le. apply String.leb_antisym. Qed.

Lemma scan_entries_perm (e1 e2 : list DirEntry) :
  e1 ≡ₚ e2 → scan_entries abspath e1 ≡ₚ scan_entries abspath e2.
Proof. intros H. unfold scan_entries. by rewrite H. Qed.

(** X5. The result of a scan does not depend on the order in which the
    file system enumerates the folder: two enumerations that are
    permutations of one another give the same signal, file list and index
    included. *)
Theorem scan_order_independent (scandir1 scandir2 : string → exc (list DirEntry))
    (t : FolderScanThread) (e1 e2 : list DirEntry) :
  scandir1 (scan_folder t) = Ret e1 →
  scandir2 (scan_folder t) = Ret e2 →
  e1 ≡ₚ e2 →
  FolderScanThread_run abspath scandir1 t = FolderScanThread_run abspath scandir2 t.
Proof.
  intros H1 H2 Hp. unfold FolderScanThread_run. rewrite H1, H2.
  assert (list_sort (scan_entries abspath e1) = list_sort (scan_entries abspath e2)) as ->;
    [|done].
  apply (@StronglySorted_unique _ str_le str_le_antisym);
    [apply list_sort_strongly_sorted..|].
  rewrite !list_sort_perm. by apply scan_entries_perm.
Qed.

Lemma start_index_range (sel : option string) (files : list string) :
  (files = [] → start_index sel files = 0)
  ∧ (files ≠ [] → 0 ≤ start_index sel files < Z.of_nat (length files)).
Proof.
  pose proof (start_index_spec sel files) as H. cbv zeta in H.
  assert (files ≠ [] → 0 < Z.of_nat (length files)) as Hpos
    by (destruct files; [done | simpl; lia]).
  destruct sel as [s|].
  - destruct (decide (s ≠ "" ∧ s ∈ files)) as [[_ Hin]|Hn].
    + destruct H as (H0 & Hl & _). split.
      * intros ->. by apply elem_of_nil in Hin.
      * intros _. apply lookup_lt_Some in Hl. lia.
    + rewrite H. split; [done|]. intros Hne. specialize (Hpos Hne). lia.
  - rewrite H. split; [done|]. intros Hne. specialize (Hpos Hne). lia.
Qed.

(** A supported entry has a dot in its name that starts its extension. *)
Lemma _splitext_ext_nonempty (p : list ascii) sep altsep extsep :
  _splitext_ext p sep altsep extsep ≠ [] →
  let d := Z.to_nat (rfind extsep p) in
  _splitext_ext p sep altsep extsep = drop d p
  ∧ ∃ c, c ∈ take d p ∧ c ≠ extsep.
Proof.
  cbv zeta. unfold _splitext_ext.
  set (sepIndex := match altsep with
                   | Some a => Z.max (rfind sep p) (rfind a p)
                   | None => rfind sep p
                   end).
  assert (-1 ≤ rfind sep p) as Hsep.
  { clear. induction p as [|x r IH]; simpl; [lia|].
    destruct (decide (0 ≤ rfind sep r)); [lia|]. destruct (decide (x = sep)); lia. }
  assert (-1 ≤ sepIndex) as Hs by (unfold sepIndex; destruct altsep; lia).
  destruct (decide (sepIndex < rfind extsep p)) as [Hlt|]; [|done].
  destruct (existsb _ _) eqn:Hex; [|done]. intros _. split; [done|].
  apply existsb_exists in Hex as (c & Hin & Hc). exists c.
  apply bool_decide_eq_true in Hc. split; [|done].
  apply list_elem_of_In in Hin. unfold py_slice in Hin.
  rewrite take_drop_commute in Hin. apply subseteq_drop in Hin.
  replace (Z.to_nat (sepIndex + 1) + Z.to_nat (rfind extsep p - (sepIndex + 1)))%nat
    with (Z.to_nat (rfind extsep p)) in Hin by lia.
  done.
Qed.

(** X6. Every entry the scan lists is a regular file whose lower-cased
    name is a stem followed by one of the supported extensions, the stem
    holding at least one character that is not a dot: directories, names
    without a supported extension and dot-files such as [.jpg] are never
    listed. *)
Theorem listed_entry_shape (e : DirEntry) :
  entry_supported e = true →
  entry_is_file e = true
  ∧ ∃ stem ext,
      ext ∈ SUPPORTED_EXTENSIONS
      ∧ list_ascii_of_string (str_lower (entry_name e))
        = stem ++ list_ascii_of_string ext
      ∧ ∃ c, c ∈ stem ∧ c ≠ "."%char.
Proof.
  intros [Hfile Hext]%entry_supported_iff. split; [done|].
  set (p := list_ascii_of_string (entry_name e)).
  set (x := _splitext_ext p "\"%char (Some "/"%char) "."%char).
  assert (x ≠ []) as Hne.
  { intros Hx. unfold splitext_ext in Hext. fold p x in Hext. rewrite Hx in Hext.
    revert Hext. apply (bool_decide_unpack _). vm_compute. exact I. }
  destruct (_splitext_ext_nonempty p _ _ _ Hne) as (Hdrop & c & Hc & Hdot).
  fold x in Hdrop.
  exists (ascii_lower <$> take (Z.to_nat (rfind "."%char p)) p),
         (str_lower (splitext_ext (entry_name e))).
  split; [done|]. split.
  - unfold str_lower, splitext_ext. fold p x.
    rewrite !list_ascii_of_string_of_list_ascii. rewrite Hdrop.
    by rewrite <- fmap_app, take_drop.
  - exists (ascii_lower c). split; [by apply list_elem_of_fmap_2|].
    intros Heq. apply Hdot. by apply case_blind_dot.
Qed.
End ScannerMore.

Section ScanDelivery.
Context {QImage : Type}.
Variable abspath : string → string.
Variable basename : string → string.
Variable scandir : string → exc (list DirEntry).
Implicit Types (w : MainWindow QImage).

(** X7. The index a scan reports is always a position of the list it
    reports (and 0 for an empty list), so the clamp of [_on_scanned] does
    not move it: when the signal of a scan arrives while its token is
    current and it found files, the window takes over the list and the
    index as they are, drops the previews, starts a new thumbnail batch,
    and the selected path, if the scan found it, is the current one. *)
Theorem scan_result_taken_over (token : Z) (folder : string)
    (selected : option string) w :
  let t := FolderScanThread_init abspath token folder selected in
  let r := FolderScanThread_run abspath scandir t in
  let files := payload_files r.2 in
  let index := payload_index r.2 in
  (files = [] → index = 0)
  ∧ (files ≠ [] → 0 ≤ index < Z.of_nat (length files))
  ∧ (files ≠ [] → token = _scan_token w →
     ∃ w', _on_scanned basename r.1.1 r.1.2 r.2 w = Ret w'
           ∧ image_files w' = files
           ∧ current_index w' = index
           ∧ _thumb_preview w' = ∅
           ∧ _thumb_token w' = _thumb_token w + 1
           ∧ ∀ s, scan_selected t = Some s → s ≠ "" → s ∈ files →
                  neighbor_path 0 w' = Some s).
Proof.
  cbv zeta.
  pose proof (start_index_spec
    (scan_selected (FolderScanThread_init abspath token folder selected))) as Hspec.
  unfold FolderScanThread_run. simpl.
  destruct (scandir folder) as [entries|err]; simpl.
  2:{ split; [done|]. split; done. }
  set (files := list_sort (scan_entries abspath entries)).
  set (sel := match selected with
              | Some s => if str_truthy s then Some (abspath s) else None
              | None => None
              end) in *.
  destruct (start_index_range sel files) as [Hnil Hrange].
  split; [done|]. split; [done|]. intros Hne ->.
  specialize (Hrange Hne). unfold _on_scanned.
  destruct (decide (_scan_token w ≠ _scan_token w)) as [Hx|_]; [done|].
  simpl. destruct files as [|f fs] eqn:Ef; [done|]. rewrite <- Ef in *.
  rewrite Z.min_l by lia. rewrite Z.max_r by lia.
  match goal with |- ∃ w', load_current _ ?w0 = _ ∧ _ =>
    destruct (load_current_spec basename w0) as (w' & Hw' & _);
    pose proof (load_current_same_lists basename w0 w' Hw')
      as (Hf & Hi & Hp & _ & Htok & _)
  end.
  exists w'. split; [done|]. simpl in Hf, Hi, Hp, Htok.
  split; [done|]. split; [done|]. split; [done|]. split; [done|].
  intros s Hs Hnes Hin. specialize (Hspec files). cbv zeta in Hspec. simpl in Hspec.
  fold sel in Hspec. rewrite Hs in Hspec. rewrite decide_True in Hspec by done.
  destruct Hspec as (_ & Hl & _).
  unfold neighbor_path. rewrite Hi, Hf, Z.add_0_r.
  rewrite decide_True by done. by rewrite Hs.
Qed.
End ScanDelivery.

(** ** The dispatcher, further *)

Section DispatcherMore.
Context {QImage : Type}.
Implicit Types (w : MainWindow QImage) (t : ImageLoaderThread).

Lemma py_remove_snoc {A} `{EqDecision A} (x : A) (l : list A) :
  x ∉ l → py_remove x (l ++ [x]) = l.
Proof.
  induction l as [|y r IH]; simpl.
  - intros _. by rewrite decide_True.
  - rewrite not_elem_of_cons. intros [Hne Hr].
    rewrite decide_False by done. by rewrite IH.
Qed.

(** X8. A request that starts a thread, followed by that thread's
    [finished] signal, leaves the window as it was before the request
    except for the request counter, which is one higher: the path is out
    of the in-flight set again and the thread is off the list of live
    threads. *)
Theorem request_then_finish (p role : string) w :
  dispatch_inv w → p ∉ _inflight_loads w →
  let t := {| th_request_id := _request_id w + 1; th_path := p; th_role := role |} in
  _request_load p role w
  = (Some (_request_id w + 1),
     set_loaders (_loaders w ++ [t])
       (set_inflight_loads ({[p]} ∪ _inflight_loads w)
          (set_request_id (_request_id w + 1) w)))
  ∧ _drop_loader t (_request_load p role w).2
    = set_request_id (_request_id w + 1) w.
Proof.
  intros (_ & _ & Hid & _) Hp t. split; [by apply _request_load_fresh|].
  rewrite _request_load_fresh by done. simpl.
  assert (t ∉ _loaders w) as Ht.
  { intros Hin. specialize (Hid t Hin). simpl in Hid. lia. }
  unfold _drop_loader. simpl.
  rewrite bool_decide_eq_true_2 by (apply elem_of_app; right; left).
  simpl. fold t. rewrite py_remove_snoc by done.
  assert (({[p]} ∪ _inflight_loads w) ∖ {[p]} = _inflight_loads w) as ->.
  { apply set_eq. intros x.
    rewrite elem_of_difference, elem_of_union, elem_of_singleton.
    split; [tauto|]. intros Hx. split; [by right|]. by intros ->. }
  by destruct w.
Qed.

(** X9. In every state the control thread can reach, the live threads
    have pairwise distinct request ids, none above the request counter; so
    the id a request returns is the counter plus one and is the id of no
    live thread. *)
Theorem request_ids_fresh (abspath basename : string → string) w :
  reachable abspath basename w →
  NoDup (th_request_id <$> _loaders w)
  ∧ (∀ t, t ∈ _loaders w → th_request_id t ≤ _request_id w)
  ∧ ∀ p role rid w1,
      _request_load p role w = (Some rid, w1) →
      rid = _request_id w + 1 ∧ ∀ t, t ∈ _loaders w → th_request_id t ≠ rid.
Proof.
  intros [_ (_ & _ & Hid & Hids)]%reachable_inv.
  split; [done|]. split; [done|]. intros p role rid w1.
  unfold _request_load. case_bool_decide; [done|]. intros [= <- _].
  split; [done|]. intros t Ht. specialize (Hid t Ht). lia.
Qed.
End DispatcherMore.

Section LoaderDelivery.
Context {QImage : Type}.
Variable basename : string → string.
Variable decode_image : string → exc (QImage * StrDict * StrDict).
Implicit Types (w : MainWindow QImage) (t : ImageLoaderThread).

(** X10. A loader thread emits its own request id, path and role, with
    either all three of image, info and metadata or none of them. When
    the decode succeeded and the signal is delivered to a window whose
    cache has a positive capacity, the decoded image is in the cache under
    the thread's path, as the most recently used entry; when the decode
    raised, the signal is a failure, and it leaves the window unchanged
    unless the path is the current one. *)
Theorem loader_result_delivered t w :
  nav_inv w → 1 ≤ capacity (cache w) →
  let '(rid, p, oq, oi, om, role) := ImageLoaderThread_run decode_image t in
  rid = th_request_id t ∧ p = th_path t ∧ role = th_role t
  ∧ match decode_image (th_path t) with
    | Ret (q, i, m) =>
        oq = Some q ∧ oi = Some i ∧ om = Some m
        ∧ ∃ w', _on_loaded basename rid p oq oi om role w = Ret w'
                ∧ OrderedDict.lookup p (_items (cache w'))
                  = Some {| qimage := q; info := i; meta := m |}
                ∧ last (cache_keys (cache w')) = Some p
    | Raise _ =>
        oq = None ∧ oi = None ∧ om = None
        ∧ (neighbor_path 0 w ≠ Some p →
           _on_loaded basename rid p oq oi om role w = Ret w)
    end.
Proof.
  intros Hn Hcap. unfold ImageLoaderThread_run.
  destruct (decode_image (th_path t)) as [[[q i] m]|err].
  - split; [done|]. split; [done|]. split; [done|].
    split; [done|]. split; [done|]. split; [done|].
    rewrite _on_loaded_success by done. eexists. split; [done|]. cbv zeta.
    destruct (decide (neighbor_path 0 w = Some (th_path t))); simpl;
      (split; [by apply put_lookup_same | by apply put_last_cap]).
  - split; [done|]. split; [done|]. split; [done|].
    split; [done|]. split; [done|]. split; [done|].
    intros Hp. rewrite _on_loaded_failure by (done || by left).
    by rewrite decide_False.
Qed.
End LoaderDelivery.

Section ThreadBound.
Context {QImage : Type}.
Variable basename : string → string.
Implicit Types (w : MainWindow QImage) (t : ImageLoaderThread).

Lemma _request_load_threads p role w :
  ∃ new, _loaders (_request_load p role w).2 = _loaders w ++ new
         ∧ (length new ≤ 1)%nat
         ∧ ∀ t, t ∈ new → th_path t = p ∧ th_role t = role ∧ p ∉ _inflight_loads w.
Proof.
  unfold _request_load. case_bool_decide as Hin; simpl.
  - exists []. rewrite app_nil_r. split; [done|]. split; [simpl; lia|].
    intros t Ht. by apply elem_of_nil in Ht.
  - eexists. split; [done|]. split; [simpl; lia|].
    intros t ->%list_elem_of_singleton. done.
Qed.

Lemma preload_round_threads off w :
  ∃ new, _loaders (preload_round off w) = _loaders w ++ new
         ∧ (length new ≤ 1)%nat
         ∧ ∀ t, t ∈ new → th_role t = "preload".
Proof.
  unfold preload_round. destruct (neighbor_path off w) as [p|].
  - destruct (OrderedDict.lookup p (_items (cache w))).
    + exists []. rewrite app_nil_r. split; [done|]. split; [simpl; lia|].
      intros t Ht. by apply elem_of_nil in Ht.
    + destruct (_request_load_threads p "preload" w) as (new & Hl & Hlen & Hnew).
      exists new. split; [done|]. split; [done|]. intros t Ht. by apply Hnew.
  - exists []. rewrite app_nil_r. split; [done|]. split; [simpl; lia|].
    intros t Ht. by apply elem_of_nil in Ht.
Qed.

Lemma display_or_request_threads p w :
  ∃ new, _loaders (display_or_request basename p w) = _loaders w ++ new
         ∧ (length new ≤ 1)%nat
         ∧ ∀ t, t ∈ new →
             th_path t = p ∧ th_role t = "main"
             ∧ OrderedDict.lookup p (_items (cache w)) = None
             ∧ p ∉ _inflight_loads w.
Proof.
  rewrite display_or_request_eq.
  destruct (OrderedDict.lookup p (_items (cache w))) eqn:E.
  - exists []. rewrite app_nil_r. split; [done|]. split; [simpl; lia|].
    intros t Ht. by apply elem_of_nil in Ht.
  - set (w2 := match _thumb_preview w !! p with
               | Some preview => show_preview basename p preview w
               | None => w
               end).
    assert (_loaders w2 = _loaders w ∧ _inflight_loads w2 = _inflight_loads w)
      as [Hl Hi] by (unfold w2; by destruct (_thumb_preview w !! p)).
    destruct (_request_load_threads p "main" w2) as (new & Hl' & Hlen & Hnew).
    exists new. simpl. rewrite Hl', Hl. split; [done|]. split; [done|].
    intros t Ht. destruct (Hnew t Ht) as (? & ? & ?). rewrite Hi in *. done.
Qed.

(** X11. One [load_current] starts at most three threads: at most one
    with role ["main"], and only for the current path when it is neither
    cached nor in flight, and the others with role ["preload"]; the
    threads already running stay on the list. *)
Theorem load_current_thread_bound w :
  ∃ w' new,
    load_current basename w = Ret w'
    ∧ _loaders w' = _loaders w ++ new
    ∧ (length new ≤ 3)%nat
    ∧ (length (filter (λ t, th_role t = "main") new) ≤ 1)%nat
    ∧ ∀ t, t ∈ new →
        (th_role t = "main"
         ∧ neighbor_path 0 w = Some (th_path t)
         ∧ OrderedDict.lookup (th_path t) (_items (cache w)) = None
         ∧ th_path t ∉ _inflight_loads w)
        ∨ th_role t = "preload".
Proof.
  rewrite load_current_Ret. destruct (neighbor_path 0 w) as [p|] eqn:Hp.
  - destruct (display_or_request_threads p w) as (n0 & Hl0 & Hlen0 & Hn0).
    set (w0 := display_or_request basename p w) in *.
    destruct (preload_round_threads (-1) w0) as (n1 & Hl1 & Hlen1 & Hn1).
    destruct (preload_round_threads 1 (preload_round (-1) w0))
      as (n2 & Hl2 & Hlen2 & Hn2).
    eexists. exists (n0 ++ n1 ++ n2). split; [done|].
    split; [by rewrite Hl2, Hl1, Hl0, !app_assoc|].
    split; [rewrite !length_app; lia|]. split.
    + rewrite !filter_app, !length_app.
      assert (∀ n, (∀ t, t ∈ n → th_role t = "preload") →
                   filter (λ t, th_role t = "main") n = []) as Hnone.
      { intros n Hn. induction n as [|t n IH]; [done|].
        rewrite filter_cons_False; [apply IH; intros t' Ht'; apply Hn; by right|].
        rewrite (Hn t) by left. done. }
      rewrite (Hnone n1), (Hnone n2) by done. simpl.
      pose proof (length_filter (λ t, th_role t = "main") n0). lia.
    + intros t [Ht|[Ht|Ht]%elem_of_app]%elem_of_app.
      * left. destruct (Hn0 t Ht) as (-> & ? & ? & ?). done.
      * right. by apply Hn1.
      * right. by apply Hn2.
  - exists w, []. rewrite app_nil_r. split; [done|]. split; [done|].
    split; [simpl; lia|]. split; [simpl; lia|].
    intros t Ht. by apply elem_of_nil in Ht.
Qed.
End ThreadBound.

(** ** Display and navigation, further *)

Section DisplayMore.
Context {QImage : Type}.
Variable basename : string → string.
Implicit Types (w : MainWindow QImage) (t : ImageLoaderThread).

(** X12. [load_current] on a path that is not cached: a decode of the
    path is in flight afterwards; if a preview of the path is there, the
    viewer shows it, with the file name, ["Preview"] and ["RGB"] as
    information and no metadata; if there is none, the viewer and the
    information keep showing what they showed before. *)
Theorem load_current_cache_miss w p :
  neighbor_path 0 w = Some p →
  OrderedDict.lookup p (_items (cache w)) = None →
  ∃ w', load_current basename w = Ret w'
        ∧ p ∈ _inflight_loads w'
        ∧ match _thumb_preview w !! p with
          | Some preview =>
              viewer w' = set_image preview (viewer w)
              ∧ current_info w'
                = <["filename" := basename p]>
                    (<["resolution" := "Preview"]> (<["mode" := "RGB"]> ∅))
              ∧ current_meta w' = ∅
          | None =>
              viewer w' = viewer w
              ∧ current_info w' = current_info w
              ∧ current_meta w' = current_meta w
          end.
Proof.
  intros Hp Hmiss. rewrite load_current_eq, Hp.
  destruct (_preload_neighbors_spec (display_or_request basename p w))
    as (w' & -> & (_ & _ & Hv & Hi & Hm & _ & Hin) & _).
  exists w'. split; [done|].
  rewrite Hv, Hi, Hm. clear Hv Hi Hm.
  rewrite display_or_request_eq, Hmiss in *.
  set (w2 := match _thumb_preview w !! p with
             | Some preview => show_preview basename p preview w
             | None => w
             end) in *.
  destruct (_request_load_same_view p "main" w2) as (_ & _ & _ & Hv & Hi & Hm & _).
  split; [apply Hin; simpl; apply _request_load_inflight_after|].
  simpl. rewrite Hv, Hi, Hm. unfold w2.
  by destruct (_thumb_preview w !! p).
Qed.

(** X13. With a non-empty list and the index inside it, [prev_image]
    undoes [next_image] and [next_image] undoes [prev_image], as far as the
    selection goes: the index is back where it was and the list is the
    same. *)
Theorem next_prev_inverse w :
  0 ≤ current_index w < Z.of_nat (length (image_files w)) →
  (∃ w1 w2, next_image basename w = Ret w1 ∧ prev_image basename w1 = Ret w2
            ∧ current_index w2 = current_index w
            ∧ image_files w2 = image_files w)
  ∧ (∃ w1 w2, prev_image basename w = Ret w1 ∧ next_image basename w1 = Ret w2
              ∧ current_index w2 = current_index w
              ∧ image_files w2 = image_files w).
Proof.
  intros Hr.
  assert (image_files w ≠ []) as Hne by (destruct (image_files w); simpl in *; [lia|done]).
  destruct (next_image_spec basename w Hne) as (wn & Hwn & Hfn & Hin & _).
  destruct (prev_image_spec basename w Hne) as (wp & Hwp & Hfp & Hip & _).
  assert (image_files wn ≠ []) as Hnen by (by rewrite Hfn).
  assert (image_files wp ≠ []) as Hnep by (by rewrite Hfp).
  destruct (prev_image_spec basename wn Hnen) as (wnp & Hwnp & Hfnp & Hinp & _).
  destruct (next_image_spec basename wp Hnep) as (wpn & Hwpn & Hfpn & Hipn & _).
  split.
  - exists wn, wnp. split; [done|]. split; [done|]. split; [|congruence].
    rewrite Hinp, Hin, Hfn. rewrite Zminus_mod_idemp_l.
    replace (current_index w + 1 - 1) with (current_index w) by lia.
    by apply Z.mod_small.
  - exists wp, wpn. split; [done|]. split; [done|]. split; [|congruence].
    rewrite Hipn, Hip, Hfp. rewrite Zplus_mod_idemp_l.
    replace (current_index w - 1 + 1) with (current_index w) by lia.
    by apply Z.mod_small.
Qed.
End DisplayMore.

Section SelectionOnly.
Context {QImage : Type}.
Implicit Types (w : MainWindow QImage) (v : ImageViewer QImage).

Lemma _move_selection_only_spec (step : Z) w :
  ∃ w', _move_selection_only step w = Ret w'
        ∧ image_files w' = image_files w
        ∧ cache w' = cache w
        ∧ viewer w' = viewer w
        ∧ _loaders w' = _loaders w
        ∧ _inflight_loads w' = _inflight_loads w
        ∧ _request_id w' = _request_id w
        ∧ _thumb_index w' = _thumb_index w
        ∧ (image_files w = [] → w' = w)
        ∧ (image_files w ≠ [] →
           current_index w'
           = (current_index w + step) `mod` Z.of_nat (length (image_files w))
           ∧ 0 ≤ current_index w' < Z.of_nat (length (image_files w))).
Proof.
  unfold _move_selection_only.
  destruct (image_files w) as [|f fs] eqn:Ef; [by exists w|]. rewrite <- Ef.
  assert (image_files w ≠ []) as Hf by (by rewrite Ef).
  pose proof (mod_in_range (current_index w + step) _ Hf) as Hr.
  destruct (py_getitem_in_range (image_files w) _ Hr) as (p & _ & Hp).
  simpl. rewrite Hp. simpl. eexists. split; [done|]. simpl.
  repeat split; try done; apply Hr.
Qed.

(** X14. [_move_selection_only] never raises, whatever the step and the
    index it starts from. With an empty list it changes nothing; otherwise
    it sets the index to [(index + step) mod len], inside the list, and
    touches neither the cache, the viewer, the file list nor the
    dispatcher: nothing is loaded or requested. *)
Theorem move_selection_only_frame (step : Z) w :
  ∃ w', _move_selection_only step w = Ret w'
        ∧ image_files w' = image_files w
        ∧ cache w' = cache w
        ∧ viewer w' = viewer w
        ∧ _loaders w' = _loaders w
        ∧ _inflight_loads w' = _inflight_loads w
        ∧ _request_id w' = _request_id w
        ∧ (image_files w = [] → w' = w)
        ∧ (image_files w ≠ [] →
           current_index w'
           = (current_index w + step) `mod` Z.of_nat (length (image_files w))
           ∧ 0 ≤ current_index w' < Z.of_nat (length (image_files w))).
Proof.
  destruct (_move_selection_only_spec step w)
    as (w' & H1 & H2 & H3 & H4 & H5 & H6 & H7 & _ & H8 & H9).
  exists w'. done.
Qed.

Lemma rotate_clockwise_Some v q :
  _item v = Some q →
  rotate_clockwise v
  = {| _item := _item v; _fit_mode := _fit_mode v;
       _rotation := (_rotation v + 90) `mod` 360 |}.
Proof. intros H. unfold rotate_clockwise. by rewrite H. Qed.

Lemma rotate_times_Some (n : nat) v q :
  _item v = Some q →
  rotate_times n v
  = {| _item := _item v; _fit_mode := _fit_mode v;
       _rotation := match n with
                    | O => _rotation v
                    | _ => (_rotation v + 90 * Z.of_nat n) `mod` 360
                    end |}.
Proof.
  intros Hq. induction n as [|n IH]; [by destruct v|].
  unfold rotate_times in *. simpl Nat.iter. rewrite IH.
  erewrite rotate_clockwise_Some by (simpl; exact Hq). simpl. f_equal.
  destruct n as [|n]; [done|].
  rewrite Zplus_mod_idemp_l. f_equal. lia.
Qed.

(** X15. Rotation of the displayed image: with nothing displayed the
    rotate key does nothing; with an image displayed, [n] presses turn it
    by [90 n] degrees modulo 360 and change nothing else, so four presses
    bring back the viewer as it was; and displaying an image always starts
    from rotation 0. *)
Theorem rotation_cycle (n : nat) v :
  (_item v = None → rotate_times n v = v)
  ∧ (is_Some (_item v) → 0 ≤ _rotation v < 360 →
     _rotation (rotate_times n v) = (_rotation v + 90 * Z.of_nat n) `mod` 360
     ∧ _item (rotate_times n v) = _item v
     ∧ _fit_mode (rotate_times n v) = _fit_mode v
     ∧ rotate_times 4 v = v)
  ∧ (∀ q, _rotation (rotate_times n (set_image q v)) = (90 * Z.of_nat n) `mod` 360).
Proof.
  split; [|split].
  - intros Hn. induction n as [|n IH]; [done|].
    unfold rotate_times in *. simpl. rewrite IH. unfold rotate_clockwise.
    by rewrite Hn.
  - intros [q Hq] Hr. split; [|split; [|split]].
    + rewrite (rotate_times_Some n v q Hq). simpl.
      destruct n; [|done]. rewrite Z.add_0_r. symmetry. by apply Z.mod_small.
    + by rewrite (rotate_times_Some n v q Hq).
    + by rewrite (rotate_times_Some n v q Hq).
    + rewrite (rotate_times_Some 4 v q Hq). simpl.
      replace (_rotation v + 90 * Z.of_nat 4) with (_rotation v + 1 * 360) by lia.
      rewrite Z.mod_add by lia. rewrite Z.mod_small by done. by destruct v.
  - intros q. rewrite (rotate_times_Some n _ q) by done. simpl.
    destruct n; [done|]. done.
Qed.
End SelectionOnly.

(** ** How the lists of the window change *)

Section ListsMore.
Context {QImage : Type}.
Variable abspath : string → string.
Variable basename : string → string.
Implicit Types (w : MainWindow QImage) (t : ImageLoaderThread).

Lemma load_current_lists w0 w' :
  load_current basename w0 = Ret w' →
  image_files w' = image_files w0 ∧ _thumb_index w' = _thumb_index w0.
Proof. intros (? & _ & _ & ? & _)%load_current_same_lists. done. Qed.

Lemma handle_lists ev w w' :
  nav_inv w → handle abspath basename ev w = Ret w' → lists_step ev w w'.
Proof.
  intros Hn. destruct ev; simpl.
  - intros [= <-]. by left.
  - unfold _on_scanned. destruct (decide (token ≠ _scan_token w)) as [|Heq];
      [intros [= <-]; by left|].
    assert (token = _scan_token w) as -> by (destruct (decide (token = _scan_token w)); done).
    destruct (payload_files payload) as [|f fs] eqn:Ef; [intros [= <-]; by left|].
    intros [Hf Hi]%load_current_lists. simpl in Hf, Hi.
    right. left. exists folder, payload. rewrite Ef. split; [done|]. split; [done|].
    split; [done|]. by rewrite Hi, Hf.
  - intros [= <-]. left. unfold _on_thumbnail_ready. by case_decide.
  - unfold on_thumbnail_clicked. case_decide; [|intros [= <-]; by left].
    intros [Hf Hi]%load_current_lists. by left.
  - intros [= <-]. by left.
  - unfold next_image. destruct (image_files w) eqn:Ef; [intros [= <-]; left; by rewrite Ef|].
    rewrite <- Ef. intros [Hf Hi]%load_current_lists. by left.
  - unfold prev_image. destruct (image_files w) eqn:Ef; [intros [= <-]; left; by rewrite Ef|].
    rewrite <- Ef. intros [Hf Hi]%load_current_lists. by left.
  - destruct (_move_selection_only_spec step w)
      as (w1 & -> & Hf & _ & _ & _ & _ & _ & Hi & _). intros [= <-]. by left.
  - unfold _open_selected.
    destruct (image_files w) eqn:Ef; [intros [= <-]; left; by rewrite Ef|].
    rewrite <- Ef. case_decide; intros [Hf Hi]%load_current_lists; by left.
  - destruct q as [q|], i as [i|], m as [m|];
      [rewrite _on_loaded_success by done; intros [= <-]; left; cbv zeta;
       by destruct (decide (neighbor_path 0 w = Some path))
      |rewrite _on_loaded_failure by (done || (unfold decode_failed; tauto))..].
    all: destruct (decide (neighbor_path 0 w = Some path)) as [Hp|];
      [|intros [= <-]; by left].
    all: destruct (neighbor_path_Some _ _ _ Hp) as [Hr _]; rewrite Z.add_0_r in Hr.
    all: destruct (decide (2 ≤ length (image_files w))%nat) as [Hlen|Hlen];
      [destruct (_skip_corrupted_current_eq basename
                   (add_notice (FailedToLoad path) w) Hlen Hr) as (bad & _ & ->);
       intros [Hf Hi]%load_current_lists; simpl in Hf, Hi;
       right; right; eexists _, _, _, _, _, _;
       (split; [done|]); (split; [unfold decode_failed; tauto|]);
       (split; [done|]); (split; [done|]); (split; [done|]); by rewrite Hi, Hf
      |unfold _skip_corrupted_current; simpl;
       destruct (image_files w) as [|a [|b r]] eqn:Ef;
         [simpl in Hr; lia | intros [= <-]; left; simpl; by rewrite Ef
         | simpl in Hlen; lia]].
  - intros [= <-]. left. unfold _drop_loader. simpl. by case_bool_decide.
Qed.

(** X16. In a window that satisfies the navigation invariant, a handler
    changes the file list in two ways only: a scan result with the current
    token and files replaces it, and the decode failure of the current path
    in a list of two or more removes that one entry. In particular a list
    that is not empty never becomes empty. *)
Theorem file_list_changes (ev : Event QImage) w w' :
  nav_inv w → handle abspath basename ev w = Ret w' →
  (image_files w' = image_files w
   ∨ (∃ folder payload,
        ev = EScanned (_scan_token w) folder payload
        ∧ payload_files payload ≠ []
        ∧ image_files w' = payload_files payload)
   ∨ (∃ rid p q i m role,
        ev = ELoaded rid p q i m role
        ∧ decode_failed q i m
        ∧ neighbor_path 0 w = Some p
        ∧ (2 ≤ length (image_files w))%nat
        ∧ image_files w' = delete (Z.to_nat (current_index w)) (image_files w)))
  ∧ (image_files w ≠ [] → image_files w' ≠ []).
Proof.
  intros Hn Hev. destruct (handle_lists ev w w' Hn Hev)
    as [[Hf _]|[(folder & payload & -> & Hne & Hf & _)
               |(rid & p & q & i & m & role & -> & Hfail & Hp & Hlen & Hf & _)]].
  - split; [by left|]. by rewrite Hf.
  - split; [right; left; by exists folder, payload|]. by rewrite Hf.
  - split; [right; right; by exists rid, p, q, i, m, role|].
    intros _ Hnil. rewrite Hf in Hnil.
    apply (f_equal length) in Hnil. rewrite length_delete in Hnil.
    + simpl in Hnil. lia.
    + apply lookup_lt_is_Some. apply neighbor_path_Some in Hp as [Hr _]. lia.
Qed.

Lemma enumerate_index_lookup (i : Z) (files : list string) (m : gmap string Z)
    (p : string) (k : Z) :
  enumerate_index i files m !! p = Some k
  ↔ (∃ j : nat, files !! j = Some p ∧ k = i + Z.of_nat j
        ∧ ∀ j' : nat, (j < j')%nat → files !! j' ≠ Some p)
    ∨ ((p ∉ files) ∧ m !! p = Some k).
Proof.
  revert i m. induction files as [|f r IH]; intros i m; simpl.
  - split; [intros H; right; split; [apply not_elem_of_nil | done]|].
    intros [(j & Hj & _)|[_ H]]; [by destruct j | done].
  - rewrite IH. split.
    + intros [(j & Hj & -> & Hlast)|[Hnin Hl]].
      * left. exists (S j). split; [done|]. split; [lia|].
        intros [|j'] Hlt; [lia|]. simpl. apply Hlast. lia.
      * destruct (decide (p = f)) as [->|Hne].
        -- rewrite lookup_insert_eq in Hl. injection Hl as <-.
           left. exists 0%nat. split; [done|]. split; [lia|].
           intros [|j'] Hlt; [lia|]. simpl. intros Hj'.
           apply Hnin. by eapply list_elem_of_lookup_2.
        -- rewrite lookup_insert_ne in Hl by done. right.
           split; [|done]. rewrite not_elem_of_cons. done.
    + intros [(j & Hj & -> & Hlast)|[Hnin Hl]].
      * destruct j as [|j].
        -- simpl in Hj. injection Hj as ->. right. split.
           ++ intros [j' Hj']%list_elem_of_lookup_1. by apply (Hlast (S j')); [lia|].
           ++ rewrite lookup_insert_eq. f_equal. lia.
        -- left. exists j. split; [done|]. split; [lia|].
           intros j' Hlt. apply (Hlast (S j')). lia.
      * apply not_elem_of_cons in Hnin as [Hne Hnin]. right. split; [done|].
        by rewrite lookup_insert_ne.
Qed.

(** X17. In every state the control thread can reach, the thumbnail index
    is the index of the current file list: it maps a path to a position
    exactly when that is the last position of the path in the list. It
    is rebuilt whenever the list changes, also after a corrupted file was
    removed. *)
Theorem thumb_index_matches_list w :
  reachable abspath basename w →
  ∀ (p : string) (k : Z),
    _thumb_index w !! p = Some k
    ↔ ∃ j : nat, k = Z.of_nat j ∧ image_files w !! j = Some p
        ∧ ∀ j' : nat, (j < j')%nat → image_files w !! j' ≠ Some p.
Proof.
  intros Hreach.
  assert (_thumb_index w = enumerate_index 0 (image_files w) ∅) as ->.
  { induction Hreach as [|w ev w' Hw IH Hen Hstep]; [done|].
    destruct (reachable_inv abspath basename w Hw) as [Hn _].
    destruct (handle_lists ev w w' Hn Hstep)
      as [[Hf Hi]|[(_ & _ & _ & _ & _ & Hi)
                  |(_ & _ & _ & _ & _ & _ & _ & _ & _ & _ & _ & Hi)]];
      [by rewrite Hi, Hf, IH | done | done]. }
  intros p k. rewrite enumerate_index_lookup. split.
  - intros [(j & Hj & -> & Hlast)|[_ H]]; [|by rewrite lookup_empty in H].
    exists j. split; [lia|]. done.
  - intros (j & -> & Hj & Hlast). left. exists j. split; [done|]. split; [lia|done].
Qed.
End ListsMore.

(** ** Thumbnail batches *)

Section ThumbnailsMore.
Context {QImage : Type}.
Variable decode_thumbnail : string → exc QImage.
Implicit Types (w : MainWindow QImage).

Lemma deliver_stale (tok : Z) (files : list string) w :
  tok ≠ _thumb_token w →
  deliver_thumbnails (thumbnail_signals decode_thumbnail tok files) w = w.
Proof.
  intros Hne. unfold deliver_thumbnails. induction files as [|p r IH]; [done|].
  simpl. destruct (decode_thumbnail p); [|done]. simpl.
  unfold _on_thumbnail_ready at 2. simpl. by rewrite decide_True.
Qed.

Lemma deliver_current (files : list string) w :
  deliver_thumbnails (thumbnail_signals decode_thumbnail (_thumb_token w) files) w
  = set_thumb_preview (previews_after decode_thumbnail files (_thumb_preview w)) w.
Proof.
  unfold deliver_thumbnails, previews_after. revert w.
  induction files as [|p r IH]; intros w; [by destruct w|].
  simpl. destruct (decode_thumbnail p) as [q|]; [|apply IH]. simpl.
  unfold _on_thumbnail_ready at 2. simpl.
  destruct (decide (_thumb_token w ≠ _thumb_token w)) as [|_]; [done|].
  specialize (IH (set_thumb_preview (<[p:=q]> (_thumb_preview w)) w)).
  simpl in IH. rewrite IH. done.
Qed.

Lemma previews_after_lookup (files : list string) (m : gmap string QImage) (p : string) :
  previews_after decode_thumbnail files m !! p
  = match decode_thumbnail p with
    | Ret q => if bool_decide (p ∈ files) then Some q else m !! p
    | Raise _ => m !! p
    end.
Proof.
  unfold previews_after. revert m. induction files as [|f r IH]; intros m; simpl.
  - by destruct (decode_thumbnail p).
  - rewrite IH. destruct (decode_thumbnail p) as [q|] eqn:Ep.
    + destruct (decide (p = f)) as [->|Hne].
      * rewrite Ep, lookup_insert_eq.
        rewrite (bool_decide_eq_true_2 (f ∈ f :: r)) by left.
        by case_bool_decide.
      * assert (bool_decide (p ∈ f :: r) = bool_decide (p ∈ r)) as ->.
        { apply bool_decide_ext. rewrite elem_of_cons. tauto. }
        case_bool_decide; [done|].
        destruct (decode_thumbnail f); [by rewrite lookup_insert_ne | done].
    + destruct (decide (p = f)) as [->|Hne]; [by rewrite Ep|].
      destruct (decode_thumbnail f); [by rewrite lookup_insert_ne | done].
Qed.

(** *** The loop over the shared list *)

Lemma sublist_drop_S (l : list string) (pos : nat) :
  drop (S pos) l `sublist_of` drop pos l.
Proof.
  replace (S pos) with (pos + 1)%nat by lia. rewrite <- drop_drop.
  apply sublist_drop.
Qed.

Lemma sublist_drop_delete (l : list string) (i pos : nat) :
  drop pos (delete i l) `sublist_of` drop pos l.
Proof.
  revert i pos. induction l as [|x r IH]; intros i pos.
  - destruct i; simpl; by rewrite drop_nil.
  - destruct i as [|i], pos as [|pos]; simpl.
    + by apply sublist_cons.
    + apply sublist_drop_S.
    + apply sublist_skip, sublist_delete.
    + apply IH.
Qed.

Lemma sublist_drop_pops (js : list nat) (l : list string) (pos : nat) :
  drop pos (fold_left (λ l i, delete i l) js l) `sublist_of` drop pos l.
Proof.
  revert l. induction js as [|j js IH]; intros l; simpl; [done|].
  etrans; [apply IH|]. apply sublist_drop_delete.
Qed.

Lemma length_pops (js : list nat) (l : list string) :
  (length (fold_left (λ l i, delete i l) js l) ≤ length l)%nat.
Proof.
  pose proof (sublist_drop_pops js l 0) as H. simpl in H.
  by apply sublist_length in H.
Qed.

(** The loop gets paths of the list it was given, each at most once and
    in the order of that list. *)
Lemma thumbnail_reads_sublist (pops : nat → list nat) (n pos : nat) (files : list string) :
  thumbnail_reads pops n pos files `sublist_of` drop pos files.
Proof.
  revert pos files. induction n as [|n IH]; intros pos files; simpl;
    [apply sublist_nil_l|].
  set (files' := fold_left (λ l i, delete i l) (pops pos) files).
  destruct (files' !! pos) as [path|] eqn:E; [|apply sublist_nil_l].
  etrans; [|apply (sublist_drop_pops (pops pos))]. fold files'.
  rewrite (drop_S _ _ _ E). apply sublist_skip, IH.
Qed.

(** As many turns as the list is long end the loop. *)
Lemma thumbnail_reads_fuel (pops : nat → list nat) (n m pos : nat) (files : list string) :
  (length files ≤ pos + n)%nat →
  thumbnail_reads pops (n + m) pos files = thumbnail_reads pops n pos files.
Proof.
  revert pos files. induction n as [|n IH]; intros pos files Hlen; simpl.
  - destruct m as [|m]; simpl; [done|].
    rewrite lookup_ge_None_2; [done|].
    pose proof (length_pops (pops pos) files). lia.
  - set (files' := fold_left (λ l i, delete i l) (pops pos) files).
    destruct (files' !! pos) as [path|]; [|done]. f_equal. apply IH.
    pose proof (length_pops (pops pos) files). fold files' in H. lia.
Qed.

(** While nothing is popped, the loop gets every path of the list. *)
Lemma thumbnail_reads_all (pops : nat → list nat) (n pos : nat) (files : list string) :
  (∀ k, pops k = []) → (length files ≤ pos + n)%nat →
  thumbnail_reads pops n pos files = drop pos files.
Proof.
  intros Hp. revert pos. induction n as [|n IH]; intros pos Hlen; simpl.
  - rewrite drop_ge; [done|lia].
  - rewrite Hp. simpl. destruct (files !! pos) as [path|] eqn:E.
    + rewrite (drop_S _ _ _ E). f_equal. apply IH. lia.
    + apply lookup_ge_None_1 in E. by rewrite drop_ge.
Qed.

(** X18. A thumbnail batch handled by the control thread. The thread
    loops over the list object of the window, from which the control
    thread may pop meanwhile. If the thread's token is not the current
    thumbnail token, the whole batch leaves the window unchanged. If it
    is, only the previews change: every path the loop got and that decodes
    has its preview, every other path keeps what it had, and a path that
    fails to decode is passed over without stopping the batch. The paths
    the loop gets are paths of the list the thread was given, in the
    order of that list and each at most once; the loop ends within as many
    turns as that list is long; it gets all of them when nothing is popped
    meanwhile; and a pop can make it miss one: with [[A; B; C]] and [A]
    current, a failed decode of [A] after the first turn removes [A], the
    loop goes on with [C], and [B], which is still listed and decodes,
    gets no preview. *)
Theorem thumbnail_batch_delivered (t : ThumbnailLoaderThread) (pops : nat → list nat) w :
  let reads := thumbnail_reads pops (length (thumb_files t)) 0 (thumb_files t) in
  let w' := deliver_thumbnails (ThumbnailLoaderThread_run decode_thumbnail t pops) w in
  (thumb_token t ≠ _thumb_token w → w' = w)
  ∧ (thumb_token t = _thumb_token w →
     w' = set_thumb_preview (_thumb_preview w') w
     ∧ ∀ p, _thumb_preview w' !! p
            = match decode_thumbnail p with
              | Ret q => if bool_decide (p ∈ reads) then Some q
                         else _thumb_preview w !! p
              | Raise _ => _thumb_preview w !! p
              end)
  ∧ reads `sublist_of` thumb_files t
  ∧ (∀ m, thumbnail_reads pops (length (thumb_files t) + m) 0 (thumb_files t) = reads)
  ∧ ((∀ k, pops k = []) → reads = thumb_files t)
  ∧ (let w0 := demo_window ["A"; "B"; "C"] 0 in
     let t0 := {| thumb_token := _thumb_token w0; thumb_files := image_files w0;
                  thumb_size := (200, 140) |} in
     let pops0 := λ k : nat,
       if decide (k = 1%nat) then [Z.to_nat (current_index w0)] else [] in
     ∃ w1 : MainWindow string,
       _on_loaded id 1 "A" None None None "main" w0 = Ret w1
           ∧ image_files w1 = delete (Z.to_nat (current_index w0)) (image_files w0)
           ∧ _thumb_token w1 = thumb_token t0
           ∧ thumbnail_reads pops0 3 0 (thumb_files t0) = ["A"; "C"]
           ∧ "B" ∈ image_files w1
           ∧ _thumb_preview
               (deliver_thumbnails (ThumbnailLoaderThread_run (λ p, Ret p) t0 pops0) w1)
             !! "B" = None).
Proof.
  cbv zeta. unfold ThumbnailLoaderThread_run.
  split; [apply deliver_stale|]. split; [|split; [|split; [|split]]].
  - intros ->. rewrite deliver_current. simpl. split; [done|].
    intros p. apply previews_after_lookup.
  - apply (thumbnail_reads_sublist pops _ 0).
  - intros m. apply thumbnail_reads_fuel. lia.
  - intros Hp. by rewrite thumbnail_reads_all.
  - eexists. split; [vm_compute; reflexivity|].
    split; [vm_compute; reflexivity|]. split; [vm_compute; reflexivity|].
    split; [vm_compute; reflexivity|].
    split; [apply (bool_decide_unpack _); vm_compute; exact I|].
    vm_compute. reflexivity.
Qed.
End ThumbnailsMore.

Section ScanAndThumbnails.
Context {QImage : Type}.
Variable basename : string → string.
Implicit Types (w : MainWindow QImage).

(** X19. An accepted scan result makes every earlier thumbnail batch
    stale: it empties the previews, raises the thumbnail token by one and
    starts a batch over the new list with that token, so that the signals
    of a batch started before, whatever it reads and decodes, leave the new window
    unchanged. *)
Theorem scan_drops_old_thumbnails (folder : string) (payload : ScanPayload) w :
  payload_files payload ≠ [] →
  ∃ w', _on_scanned basename (_scan_token w) folder payload w = Ret w'
        ∧ _thumb_preview w' = ∅
        ∧ _thumb_token w' = _thumb_token w + 1
        ∧ thumb_thread w'
          = Some {| thumb_token := _thumb_token w + 1;
                    thumb_files := payload_files payload;
                    thumb_size := (200, 140) |}
        ∧ ∀ (decode_thumbnail : string → exc QImage) (old : ThumbnailLoaderThread)
            (pops : nat → list nat),
            thumb_token old ≤ _thumb_token w →
            deliver_thumbnails (ThumbnailLoaderThread_run decode_thumbnail old pops) w' = w'.
Proof.
  intros Hne. unfold _on_scanned.
  destruct (decide (_scan_token w ≠ _scan_token w)) as [|_]; [done|].
  destruct (payload_files payload) as [|f fs] eqn:Ef; [done|].
  match goal with |- ∃ w', load_current _ ?w0 = _ ∧ _ =>
    destruct (load_current_spec basename w0) as (w' & Hw' & _);
    pose proof (load_current_same_lists basename w0 w' Hw')
      as (_ & _ & Hp & _ & Htok & _ & _ & Hth)
  end.
  simpl in Hp, Htok, Hth. exists w'. split; [done|]. split; [done|].
  split; [done|]. split; [done|].
  intros decode old pops Hold. apply deliver_stale. lia.
Qed.
End ScanAndThumbnails.

(** ** The cache of the window *)

Section WindowCache.
Context {QImage : Type}.
Variable abspath : string → string.
Variable basename : string → string.
Implicit Types (w : MainWindow QImage) (c : ImageCache QImage).

Lemma cache_steps_refl c : ∃ ops, c = cache_run ops c.
Proof. by exists []. Qed.

Lemma cache_steps_trans c1 c2 c3 :
  (∃ ops, c2 = cache_run ops c1) → (∃ ops, c3 = cache_run ops c2) →
  ∃ ops, c3 = cache_run ops c1.
Proof.
  intros [o1 ->] [o2 ->]. exists (o1 ++ o2). by rewrite cache_run_app.
Qed.

Lemma cache_steps_get p c : ∃ ops, (get p c).2 = cache_run ops c.
Proof. by exists [CGet p]. Qed.

Lemma preload_round_cache off w :
  ∃ ops, cache (preload_round off w) = cache_run ops (cache w).
Proof.
  unfold preload_round. destruct (neighbor_path off w) as [p|]; [|apply cache_steps_refl].
  destruct (OrderedDict.lookup p (_items (cache w))).
  - apply cache_steps_get.
  - destruct (_request_load_same_view p "preload" w) as (_ & _ & -> & _).
    apply cache_steps_refl.
Qed.

Lemma display_or_request_cache p w :
  cache (display_or_request basename p w) = (get p (cache w)).2.
Proof.
  rewrite display_or_request_eq.
  destruct (OrderedDict.lookup p (_items (cache w))) eqn:E; [done|].
  rewrite (get_miss _ _ E). simpl.
  destruct (_request_load_same_view p "main"
    match _thumb_preview w !! p with
    | Some preview => show_preview basename p preview w
    | None => w
    end) as (_ & _ & -> & _).
  by destruct (_thumb_preview w !! p).
Qed.

Lemma load_current_cache w w' :
  load_current basename w = Ret w' → ∃ ops, cache w' = cache_run ops (cache w).
Proof.
  rewrite load_current_Ret. intros [= <-].
  destruct (neighbor_path 0 w) as [p|]; [|apply cache_steps_refl].
  eapply cache_steps_trans; [|apply preload_round_cache].
  eapply cache_steps_trans; [|apply preload_round_cache].
  rewrite display_or_request_cache. apply cache_steps_get.
Qed.

(** Every handler changes the cache by [get] and [put] only. *)
Lemma handle_cache ev w w' :
  nav_inv w → handle abspath basename ev w = Ret w' →
  ∃ ops, cache w' = cache_run ops (cache w).
Proof.
  intros Hn. destruct ev; simpl.
  - intros [= <-]. apply cache_steps_refl.
  - unfold _on_scanned. case_decide; [intros [= <-]; apply cache_steps_refl|].
    destruct (payload_files payload) eqn:Ef; [intros [= <-]; apply cache_steps_refl|].
    intros Hlc%load_current_cache. done.
  - intros [= <-]. unfold _on_thumbnail_ready. case_decide; apply cache_steps_refl.
  - unfold on_thumbnail_clicked. case_decide; [|intros [= <-]; apply cache_steps_refl].
    intros Hlc%load_current_cache. done.
  - intros [= <-]. apply cache_steps_refl.
  - unfold next_image. destruct (image_files w); [intros [= <-]; apply cache_steps_refl|].
    intros Hlc%load_current_cache. done.
  - unfold prev_image. destruct (image_files w); [intros [= <-]; apply cache_steps_refl|].
    intros Hlc%load_current_cache. done.
  - destruct (_move_selection_only_spec step w) as (w1 & -> & _ & Hc & _).
    intros [= <-]. rewrite Hc. apply cache_steps_refl.
  - unfold _open_selected.
    destruct (image_files w); [intros [= <-]; apply cache_steps_refl|].
    case_decide; intros Hlc%load_current_cache; done.
  - destruct q as [q|], i as [i|], m as [m|];
      [rewrite _on_loaded_success by done; intros [= <-]; cbv zeta;
       exists [CPut path {| qimage := q; info := i; meta := m |}];
       by destruct (decide (neighbor_path 0 w = Some path))
      |rewrite _on_loaded_failure by (done || (unfold decode_failed; tauto))..].
    all: destruct (decide (neighbor_path 0 w = Some path)) as [Hp|];
      [|intros [= <-]; apply cache_steps_refl].
    all: destruct (neighbor_path_Some _ _ _ Hp) as [Hr _]; rewrite Z.add_0_r in Hr.
    all: destruct (decide (2 ≤ length (image_files w))%nat) as [Hlen|Hlen];
      [destruct (_skip_corrupted_current_eq basename
                   (add_notice (FailedToLoad path) w) Hlen Hr) as (bad & _ & ->);
       intros Hlc%load_current_cache; done
      |unfold _skip_corrupted_current; simpl;
       destruct (image_files w) as [|a [|b r]];
         [simpl in Hr; lia | intros [= <-]; apply cache_steps_refl
         | simpl in Hlen; lia]].
  - intros [= <-]. unfold _drop_loader. simpl. case_bool_decide; apply cache_steps_refl.
Qed.

(** X20. In every state the control thread can reach, the cache of the
    window is what a sequence of [put] and [get] operations makes of a new
    cache of capacity 15: it has capacity 15, holds at most 15 images, and
    no path twice. *)
Theorem window_cache_bounded w :
  reachable abspath basename w →
  (∃ ops, cache w = cache_run ops (ImageCache_init 15))
  ∧ capacity (cache w) = 15
  ∧ (length (_items (cache w)) ≤ 15)%nat
  ∧ NoDup (cache_keys (cache w)).
Proof.
  intros Hreach.
  assert (∃ ops, cache w = cache_run ops (ImageCache_init 15)) as [ops Hops].
  { induction Hreach as [|w ev w' Hw IH Hen Hstep]; [by exists []|].
    destruct (reachable_inv abspath basename w Hw) as [Hn _].
    eapply cache_steps_trans; [exact IH|]. by eapply handle_cache. }
  split; [by exists ops|]. rewrite Hops.
  pose proof (lru_inv_run (QImage := QImage) 15 ops) as Hinv.
  pose proof (lru_inv_NoDup _ _ Hinv) as Hnd.
  destruct Hinv as (_ & Hlen & _). rewrite cache_run_capacity in *. simpl in *.
  split; [done|]. split; [lia|done].
Qed.
End WindowCache.

(** ** Jumps and the absence of exceptions *)

Section JumpMore.
Context {QImage : Type}.
Variable basename : string → string.
Implicit Types (w : MainWindow QImage).

(** X21. A click on a thumbnail never raises. A row outside the list is
    ignored; a row inside it becomes the current index, the list stays the
    same, and the path of that row is shown from the cache or has a decode
    in flight. *)
Theorem thumbnail_click_jumps (row : Z) w :
  ∃ w', on_thumbnail_clicked basename row w = Ret w'
        ∧ (¬ 0 ≤ row < Z.of_nat (length (image_files w)) → w' = w)
        ∧ (0 ≤ row < Z.of_nat (length (image_files w)) →
           image_files w' = image_files w
           ∧ current_index w' = row
           ∧ ∃ p, image_files w !! Z.to_nat row = Some p
                  ∧ match OrderedDict.lookup p (_items (cache w)) with
                    | Some it => _item (viewer w') = Some (qimage it)
                    | None => p ∈ _inflight_loads w'
                    end).
Proof.
  unfold on_thumbnail_clicked.
  destruct (decide (0 ≤ row < Z.of_nat (length (image_files w)))) as [Hr|Hr];
    [|by exists w].
  destruct (lookup_lt_is_Some_2 (image_files w) (Z.to_nat row)) as [p Hl]; [lia|].
  assert (neighbor_path 0 (set_current_index row w) = Some p) as Hp.
  { unfold neighbor_path. simpl. rewrite Z.add_0_r. by rewrite decide_True. }
  destruct (load_current_shows basename _ _ Hp) as (w' & Hw' & Hf & Hi & Hshow).
  exists w'. split; [done|]. split; [done|]. intros _.
  split; [done|]. split; [done|]. by exists p.
Qed.
End JumpMore.

Section NeverRaises.
Context {QImage : Type}.
Variable abspath : string → string.
Variable basename : string → string.
Implicit Types (w : MainWindow QImage).

(** X22. In every state the control thread can reach from the initial
    window, the current index is [-1] with an empty list or a position of
    the list, and no handler raises: every event, a [finished] signal
    being one of a live thread, is handled and leads to a reachable
    state. *)
Theorem control_thread_never_raises w :
  reachable abspath basename w →
  ((image_files w = [] ∧ current_index w = -1)
   ∨ 0 ≤ current_index w < Z.of_nat (length (image_files w)))
  ∧ ∀ ev, enabled ev w →
      ∃ w', handle abspath basename ev w = Ret w'
            ∧ reachable abspath basename w'.
Proof.
  intros Hreach. destruct (reachable_inv abspath basename w Hreach) as [Hn Hd].
  split; [exact Hn|]. intros ev Hen.
  destruct (handle_inv abspath basename ev w Hn Hd Hen) as (w' & Hw' & _).
  exists w'. split; [done|]. by eapply reachable_step.
Qed.
End NeverRaises.

(** ** What triggers the preload *)

Section PreloadTrigger.
Context {QImage : Type}.
Variable abspath : string → string.
Variable basename : string → string.
Implicit Types (w : MainWindow QImage) (t : ImageLoaderThread).

Lemma display_or_request_lookup p w k :
  OrderedDict.lookup k (_items (cache (display_or_request basename p w)))
  = OrderedDict.lookup k (_items (cache w)).
Proof. rewrite display_or_request_cache. apply get_lookup. Qed.

(** [load_current] on an index inside the list. *)
Lemma load_current_preloads w0 w' :
  0 ≤ current_index w0 < Z.of_nat (length (image_files w0)) →
  load_current basename w0 = Ret w' →
  preload_outcome w0 w'.
Proof.
  intros Hr. rewrite load_current_Ret. intros [= <-].
  destruct (py_getitem_in_range (image_files w0) (current_index w0) Hr) as (p & Hp & _).
  assert (neighbor_path 0 w0 = Some p) as ->.
  { unfold neighbor_path. rewrite Z.add_0_r. by rewrite decide_True. }
  set (w1 := display_or_request basename p w0).
  destruct (display_or_request_spec basename p w0) as (Hf1 & Hi1 & _ & Hsub1 & _).
  fold w1 in Hf1, Hi1, Hsub1.
  destruct (display_or_request_threads basename p w0) as (new1 & Hl1 & _ & Hnew1).
  fold w1 in Hl1.
  destruct (_preload_neighbors_threads w1) as [(new2 & Hl2 & Hnew2) Hreq].
  set (w' := preload_round 1 (preload_round (-1) w1)) in *.
  assert (image_files w' = image_files w0 ∧ current_index w' = current_index w0)
    as [Hf Hi].
  { destruct (preload_round_spec (-1) w1) as (Ha & Hb & _).
    destruct (preload_round_spec 1 (preload_round (-1) w1)) as (Hc & Hd & _).
    unfold w'. split; congruence. }
  assert (∀ off, neighbor_path off w' = neighbor_path off w1) as Hn1
    by (intros off; apply neighbor_path_ext; congruence).
  assert (∀ off, neighbor_path off w' = neighbor_path off w0) as Hn0
    by (intros off; by apply neighbor_path_ext).
  split.
  - exists (new1 ++ new2). split; [by rewrite Hl2, Hl1, app_assoc|].
    intros t [Ht|Ht]%elem_of_app.
    + destruct (Hnew1 t Ht) as (Hpt & Hrole & Hc & Hin).
      rewrite Hpt. split; [done|]. split; [done|]. left. split; [done|].
      rewrite Hn0. unfold neighbor_path. rewrite Z.add_0_r. by rewrite decide_True.
    + destruct (Hnew2 t Ht) as (Hrole & Hnb & Hc & Hin).
      unfold w1 in Hc. rewrite display_or_request_lookup in Hc.
      split; [done|]. split; [by intros ?%Hsub1|]. right. split; [done|].
      by rewrite !Hn1.
  - intros off q Hoff Hq Hc. apply (Hreq off q Hoff); [by rewrite <- Hn1|].
    unfold w1. by rewrite display_or_request_lookup.
Qed.

(** The same, started from a window [w0] that differs from [w] in the
    list and the selection only. *)
Lemma load_current_preloads_from w w0 w' :
  _loaders w0 = _loaders w → _inflight_loads w0 = _inflight_loads w →
  cache w0 = cache w →
  0 ≤ current_index w0 < Z.of_nat (length (image_files w0)) →
  load_current basename w0 = Ret w' →
  preload_outcome w w'.
Proof.
  intros Hl Hin Hc Hr Hw'.
  pose proof (load_current_preloads w0 w' Hr Hw') as Ho.
  unfold preload_outcome in *. by rewrite Hl, Hin, Hc in Ho.
Qed.

Lemma cur_path_Some w p :
  cur_path w = Ret (Some p) →
  0 ≤ current_index w < Z.of_nat (length (image_files w))
  ∧ image_files w !! Z.to_nat (current_index w) = Some p.
Proof.
  unfold cur_path. destruct (image_files w) as [|f fs] eqn:Ef; [done|].
  destruct (decide (0 ≤ current_index w)) as [H0|]; [|done].
  unfold py_getitem, py_norm_index.
  destruct (decide (current_index w < 0)); [lia|].
  destruct (decide (0 ≤ current_index w < Z.of_nat (length (f :: fs)))) as [Hr|]; [|done].
  destruct ((f :: fs) !! Z.to_nat (current_index w)) as [x|] eqn:Ex; [|done].
  simpl. intros [= ->]. done.
Qed.

Lemma _on_loaded_failure_eq rid p q i m role w :
  decode_failed q i m →
  _on_loaded basename rid p q i m role w
  = (cur ← cur_path w;
     if decide (Some p = cur)
     then _skip_corrupted_current basename (add_notice (FailedToLoad p) w)
     else mret w).
Proof.
  intros Hfail. unfold _on_loaded. destruct Hfail as [->| [->| ->]]; [done|..].
  - by destruct q.
  - by destruct q, i.
Qed.

(** A handler other than [_move_selection_only] either leaves the index
    and the list as they were, or ends with [load_current] on an index
    inside the list. *)
Lemma handle_preloads (ev : Event QImage) w w' :
  handle abspath basename ev w = Ret w' →
  (∀ step, ev ≠ EMoveSelection step) →
  (current_index w' = current_index w ∧ image_files w' = image_files w)
  ∨ preload_outcome w w'.
Proof.
  destruct ev as [folder selected|token folder payload|token path q|row| | |
                  |step|row|rid p q i m role|thread]; simpl; intros Hw Hmove.
  - injection Hw as <-. by left.
  - unfold _on_scanned in Hw. case_decide; [injection Hw as <-; by left|].
    destruct (payload_files payload) as [|f fs] eqn:Ef; [injection Hw as <-; by left|].
    right. eapply load_current_preloads_from; [..|exact Hw]; try done.
    simpl. lia.
  - injection Hw as <-. left. unfold _on_thumbnail_ready. by case_decide.
  - unfold on_thumbnail_clicked in Hw. case_decide; [|injection Hw as <-; by left].
    right. eapply load_current_preloads_from; [..|exact Hw]; done.
  - injection Hw as <-. by left.
  - unfold next_image in Hw.
    destruct (image_files w) as [|f fs] eqn:Ef; [injection Hw as <-; by left|].
    rewrite <- Ef in Hw.
    right. eapply load_current_preloads_from; [..|exact Hw]; try done.
    change (0 ≤ (current_index w + 1) `mod` Z.of_nat (length (image_files w))
            < Z.of_nat (length (image_files w))).
    apply mod_in_range. by rewrite Ef.
  - unfold prev_image in Hw.
    destruct (image_files w) as [|f fs] eqn:Ef; [injection Hw as <-; by left|].
    rewrite <- Ef in Hw.
    right. eapply load_current_preloads_from; [..|exact Hw]; try done.
    change (0 ≤ (current_index w - 1) `mod` Z.of_nat (length (image_files w))
            < Z.of_nat (length (image_files w))).
    apply mod_in_range. by rewrite Ef.
  - by destruct (Hmove step).
  - unfold _open_selected in Hw.
    destruct (image_files w) as [|f fs] eqn:Ef; [injection Hw as <-; by left|].
    rewrite <- Ef in Hw.
    destruct (decide (0 ≤ row < Z.of_nat (length (image_files w)))) as [Hrow|Hrow].
    + right. eapply load_current_preloads_from; [..|exact Hw]; done.
    + destruct (decide (0 ≤ current_index w < Z.of_nat (length (image_files w))))
        as [Hr|Hr].
      * right. by apply load_current_preloads.
      * left. unfold load_current in Hw. rewrite decide_False in Hw by done.
        by injection Hw as <-.
  - destruct (decide (decode_failed q i m)) as [Hfail|Hok].
    + rewrite _on_loaded_failure_eq in Hw by done.
      destruct (cur_path w) as [cur|] eqn:Ecur; [|done]. simpl in Hw.
      destruct (decide (Some p = cur)) as [<-|]; [|injection Hw as <-; by left].
      apply cur_path_Some in Ecur as [Hr Hp].
      set (w0 := add_notice (FailedToLoad p) w) in *.
      destruct (decide (2 ≤ length (image_files w))%nat) as [Hlen|Hlen].
      * destruct (_skip_corrupted_current_eq basename w0 Hlen Hr) as (bad & _ & Heq).
        rewrite Heq in Hw.
        destruct (after_removal_nav bad w0 Hlen Hr) as (_ & _ & Hr').
        right. eapply load_current_preloads_from; [..|exact Hw]; done.
      * left. unfold _skip_corrupted_current in Hw.
        change (image_files w0) with (image_files w) in Hw.
        destruct (image_files w) as [|f [|g fs]] eqn:Ef;
          [by injection Hw as <-|by injection Hw as <-|simpl in Hlen; lia].
    + destruct q as [q|]; [|by destruct Hok; left].
      destruct i as [i|]; [|by destruct Hok; right; left].
      destruct m as [m|]; [|by destruct Hok; right; right].
      left. unfold _on_loaded in Hw.
      destruct (cur_path _) as [cur|]; [|done]. simpl in Hw.
      case_decide; by injection Hw as <-.
  - injection Hw as <-. left. unfold _drop_loader. by case_decide.
Qed.

(** C8 (amended). The preload step [_preload_neighbors] returns; each
    thread it starts has role ["preload"] and decodes the path at
    index - 1 or index + 1 when that position is inside the list (no
    wraparound), a path that was neither in the cache nor in flight;
    every such in-range neighbor that is not in the cache is in flight
    afterwards; and [load_current] ends with this step. It runs after
    every change of the index or of the list made by a handler other than
    [_move_selection_only]: after such a change every thread the handler
    started is the decode of the new current path or the preload of an
    in-range neighbor of the new index, and every in-range neighbor of the
    new index that is not cached is in flight. [_move_selection_only]
    moves the index and starts no decode at all. *)
Theorem preload_requests_in_range_neighbors (ev : Event QImage) w :
  (∃ w', _preload_neighbors w = Ret w'
         ∧ (∃ new,
              _loaders w' = _loaders w ++ new
              ∧ ∀ t, t ∈ new →
                  th_role t = "preload"
                  ∧ (neighbor_path (-1) w = Some (th_path t)
                     ∨ neighbor_path 1 w = Some (th_path t))
                  ∧ OrderedDict.lookup (th_path t) (_items (cache w)) = None
                  ∧ th_path t ∉ _inflight_loads w)
         ∧ (∀ off p, off = -1 ∨ off = 1 →
              neighbor_path off w = Some p →
              OrderedDict.lookup p (_items (cache w)) = None →
              p ∈ _inflight_loads w')
         ∧ (∀ p, neighbor_path 0 w = Some p →
              load_current basename w
              = _preload_neighbors (display_or_request basename p w)))
  ∧ (∀ w', handle abspath basename ev w = Ret w' →
       match ev with
       | EMoveSelection step =>
           _loaders w' = _loaders w
           ∧ _inflight_loads w' = _inflight_loads w
           ∧ cache w' = cache w
           ∧ (image_files w ≠ [] →
              current_index w'
              = (current_index w + step) `mod` Z.of_nat (length (image_files w)))
       | _ =>
           current_index w' ≠ current_index w ∨ image_files w' ≠ image_files w →
           (∃ new,
              _loaders w' = _loaders w ++ new
              ∧ ∀ t, t ∈ new →
                  OrderedDict.lookup (th_path t) (_items (cache w)) = None
                  ∧ (th_path t ∉ _inflight_loads w)
                  ∧ ((th_role t = "main" ∧ neighbor_path 0 w' = Some (th_path t))
                     ∨ (th_role t = "preload"
                        ∧ (neighbor_path (-1) w' = Some (th_path t)
                           ∨ neighbor_path 1 w' = Some (th_path t)))))
           ∧ (∀ off p, off = -1 ∨ off = 1 →
                neighbor_path off w' = Some p →
                OrderedDict.lookup p (_items (cache w)) = None →
                p ∈ _inflight_loads w')
       end).
Proof.
  split.
  { rewrite _preload_neighbors_eq. eexists. split; [done|].
    destruct (_preload_neighbors_threads w) as [Hnew Hreq].
    split; [exact Hnew|]. split; [exact Hreq|].
    intros p Hp. by rewrite load_current_eq, Hp. }
  intros w' Hw.
  assert (∀ step, ev = EMoveSelection step →
            _loaders w' = _loaders w
            ∧ _inflight_loads w' = _inflight_loads w
            ∧ cache w' = cache w
            ∧ (image_files w ≠ [] →
               current_index w'
               = (current_index w + step) `mod` Z.of_nat (length (image_files w))))
    as Hmove.
  { intros step ->. simpl in Hw.
    destruct (_move_selection_only_spec step w)
      as (w1 & Hw1 & _ & Hc & _ & Hl & Hin & _ & _ & _ & Hidx).
    rewrite Hw1 in Hw. injection Hw as <-.
    split; [done|]. split; [done|]. split; [done|].
    intros Hne. by destruct (Hidx Hne). }
  assert ((∀ step, ev ≠ EMoveSelection step) →
          current_index w' ≠ current_index w ∨ image_files w' ≠ image_files w →
          preload_outcome w w') as Hother.
  { intros Hne Hch. destruct (handle_preloads ev w w' Hw Hne) as [[Hi Hf]|Ho]; [|done].
    by destruct Hch. }
  destruct ev; first [ by apply Hmove | by apply Hother ].
Qed.
End PreloadTrigger.

(** ** Worked examples *)

Example scan_demo_folder :
  FolderScanThread_run id demo_scandir
    (FolderScanThread_init id 1 "/pics" (Some "/pics/b.PNG"))
  = (1, "/pics",
     {| payload_files := ["/pics/a.tar.heic"; "/pics/b.PNG"]; payload_index := 1 |}).
Proof. vm_compute. reflexivity. Qed.

Example scan_unreadable_folder :
  FolderScanThread_run id demo_scandir
    (FolderScanThread_init id 4 "/gone" (Some "/gone/x.jpg"))
  = (4, "/gone", {| payload_files := []; payload_index := 0 |}).
Proof. vm_compute. reflexivity. Qed.

Example lru_eviction_order :
  cache_keys
    (cache_run [CPut "a" (demo_image "a"); CPut "b" (demo_image "b"); CGet "a";
                CPut "c" (demo_image "c")]
       (ImageCache_init 2))
  = ["a"; "c"].
Proof. vm_compute. reflexivity. Qed.

Example skip_middle_file :
  ∃ w', _on_loaded id 7 "B" None None None "main" (demo_window ["A"; "B"; "C"] 1) = Ret w'
        ∧ image_files w' = ["A"; "C"] ∧ current_index w' = 1
        ∧ th_path <$> _loaders w' = ["C"; "A"].
Proof. eexists. split; [vm_compute; reflexivity|]. vm_compute. done. Qed.

(** ** Concrete instances *)

(** With capacity 2, after [put a; put b; get a], a [put c] evicts [b],
    which was last touched before [a] and before [c]. *)
Lemma ImageCache_lru_invariant_witness :
  let ops := [CPut "a" (demo_image "a"); CPut "b" (demo_image "b"); CGet "a"] in
  let ops' := ops ++ [CPut "c" (demo_image "c")] in
  (last_touch "b" ops' < last_touch "a" ops')%nat
  ∧ (last_touch "b" ops' < last_touch "c" ops')%nat.
Proof.
  cbv zeta.
  pose proof (ImageCache_lru_invariant 2
    [CPut "a" (demo_image "a"); CPut "b" (demo_image "b"); CGet "a"]) as H.
  cbv zeta in H. destruct H as (_ & _ & _ & _ & H).
  destruct (H "c" (demo_image "c") "b") as (_ & _ & Hm).
  - left. apply (bool_decide_unpack _). vm_compute. exact I.
  - apply (bool_decide_unpack _). vm_compute. exact I.
  - split; apply Hm; apply (bool_decide_unpack _); vm_compute; exact I.
Defined.

(** A second request for a path in flight is dropped. *)
Lemma dispatcher_dedup_witness :
  let w := (_request_load "A" "main" (demo_window ["A"; "B"] 0)).2 in
  _request_load "A" "preload" w = (None, w).
Proof.
  cbv zeta. apply (proj1 (dispatcher_dedup id id)).
  apply (bool_decide_unpack _). vm_compute. exact I.
Defined.

(** Two scans were started; the result of the first arrives late. *)
Lemma stale_scan_ignored_witness :
  let w := _scan_folder id "/two" None (_scan_folder id "/one" None (demo_window [] (-1))) in
  _on_scanned id 1 "/one" {| payload_files := ["/one/x.jpg"]; payload_index := 0 |} w
  = Ret w.
Proof. cbv zeta. apply stale_scan_ignored. simpl. lia. Defined.

(** A failed preload of [B] while [A] is selected changes nothing, and a
    successful one only fills the cache. *)
Lemma loaded_result_staleness_witness :
  let w := demo_window ["A"; "B"] 0 in
  _on_loaded id 3 "B" None None None "preload" w = Ret w
  ∧ ∃ w', _on_loaded id 3 "B" (Some "pixels") (Some ∅) (Some ∅) "preload" w = Ret w'
          ∧ viewer w' = viewer w ∧ cache_keys (cache w') = ["B"].
Proof.
  cbv zeta. split.
  - apply (loaded_result_staleness id 3 "B" None None None "preload").
    + right. simpl. lia.
    + by left.
    + vm_compute. discriminate.
  - destruct (proj1 (loaded_result_staleness id 3 "B" (Some "pixels") (Some ∅) (Some ∅)
        "preload" (demo_window ["A"; "B"] 0) ltac:(right; simpl; lia))
        "pixels" ∅ ∅ eq_refl eq_refl eq_refl) as (w' & Hw & _ & _ & _ & _ & Heq).
    exists w'. split; [exact Hw|].
    rewrite Heq by (vm_compute; discriminate). split; reflexivity.
Defined.

(** Three files, starting at the last one. *)
Lemma navigation_wraparound_witness :
  let w := demo_window ["A"; "B"; "C"] 2 in
  (∃ w', next_image id w = Ret w' ∧ current_index w' = 0)
  ∧ (∃ w', repeat_handler 3 (next_image id) w = Ret w' ∧ current_index w' = 2).
Proof.
  cbv zeta.
  destruct (navigation_wraparound id 3 (demo_window ["A"; "B"; "C"] 2))
    as ((w1 & Hw1 & _ & Hi1) & _ & (w3 & Hw3 & _ & Hi3) & _);
    [reflexivity | lia | simpl; lia |].
  split; [exists w1 | exists w3]; split; done.
Defined.

(** The one file of the list fails to decode. *)
Lemma single_file_failure_keeps_list_witness :
  ∃ w', _on_loaded id 1 "A" None None None "main" (demo_window ["A"] 0) = Ret w'
        ∧ image_files w' = ["A"] ∧ current_index w' = 0
        ∧ _item (viewer w') = None.
Proof.
  destruct (single_file_failure_keeps_list id 1 "A" None None None "main"
              (demo_window ["A"] 0)) as (w' & H1 & H2 & H3 & H4 & _);
    [reflexivity | reflexivity | by left |].
  exists w'. done.
Defined.

(** C2, as stated, fails: the list is not emptied. *)
Lemma single_file_failure_list_not_emptied :
  ¬ ∃ w', _on_loaded id 1 "A" None None None "main" (demo_window ["A"] 0) = Ret w'
          ∧ image_files w' = []
          ∧ _item (viewer w') = None.
Proof.
  intros (w' & Hw & Hf & _).
  rewrite (_on_loaded_failure_single id 1 "A") in Hw; [|reflexivity..|by left].
  injection Hw as <-. simpl in Hf. discriminate.
Qed.

(** Files [[A; B; C]] with [B] selected; [B] fails to decode. *)
Lemma corrupted_current_removed_witness :
  ∃ w', _on_loaded id 7 "B" None None None "main" (demo_window ["A"; "B"; "C"] 1) = Ret w'
        ∧ image_files w' = ["A"; "C"] ∧ current_index w' = 1
        ∧ neighbor_path 0 w' = Some "C"
        ∧ "C" ∈ _inflight_loads w'.
Proof.
  destruct (corrupted_current_removed id 7 "B" None None None "main"
              (demo_window ["A"; "B"; "C"] 1))
    as (w' & Hw & Hf & Hi & _ & p' & Hp' & Hshow);
    [simpl; lia | reflexivity | by left |].
  simpl in Hf. rewrite Hf in Hi. simpl in Hi.
  assert (p' = "C") as ->.
  { unfold neighbor_path in Hp'. rewrite Hi, Hf in Hp'. simpl in Hp'. congruence. }
  exists w'. done.
Defined.

(** After the right-arrow key in [[A; B; C]] with [A] selected, [B] is
    current, [B] is requested as the main decode, and both neighbors [A]
    and [C] are in flight as preloads. *)
Lemma preload_requests_in_range_neighbors_witness :
  ∃ w', handle id id ENext (demo_window ["A"; "B"; "C"] 0) = Ret w'
        ∧ current_index w' = 1
        ∧ "A" ∈ _inflight_loads w'
        ∧ "C" ∈ _inflight_loads w'.
Proof.
  assert (∃ w', handle id id ENext (demo_window ["A"; "B"; "C"] 0) = Ret w'
                ∧ current_index w' = 1
                ∧ neighbor_path (-1) w' = Some "A"
                ∧ neighbor_path 1 w' = Some "C") as (w' & Hw & Hi & Ha & Hc).
  { eexists. split; [vm_compute; reflexivity|].
    split; [vm_compute; reflexivity|]. split; vm_compute; reflexivity. }
  destruct (proj2 (preload_requests_in_range_neighbors id id ENext
                     (demo_window ["A"; "B"; "C"] 0)) w' Hw) as [_ Hreq].
  { left. rewrite Hi. discriminate. }
  exists w'. split; [exact Hw|]. split; [exact Hi|]. split.
  - apply (Hreq (-1) "A"); [by left | exact Ha | reflexivity].
  - apply (Hreq 1 "C"); [by right | exact Hc | reflexivity].
Defined.

(** C8, as stated, fails in two ways. The neighbors are not taken modulo
    the length: with [A] selected in [[A; B; C]] the neighbor of the
    specification at index - 1 is [C], it is not cached, and yet no decode
    of it is in flight after the preload step; the same after the
    left-arrow key has moved the selection from [B] to [A]. And not every
    index change preloads: [_move_selection_only] moves the selection from
    [A] to [B] and requests neither [A] nor [C]. *)
Lemma preload_skips_wrapped_neighbor :
  (let w := demo_window ["A"; "B"; "C"] 0 in
   ¬ (∀ off p, off = -1 ∨ off = 1 →
        spec_neighbor_path off w = Some p →
        OrderedDict.lookup p (_items (cache w)) = None →
        ∃ w', _preload_neighbors w = Ret w' ∧ p ∈ _inflight_loads w'))
  ∧ ¬ spec_preload_after id id EPrev (demo_window ["A"; "B"; "C"] 1)
  ∧ ¬ spec_preload_after id id (EMoveSelection 1) (demo_window ["A"; "B"; "C"] 0).
Proof.
  split; [|split].
  - cbv zeta. intros H.
    destruct (H (-1) "C") as (w' & Hw & Hin); [by left | reflexivity | reflexivity |].
    rewrite _preload_neighbors_eq in Hw. injection Hw as <-.
    revert Hin. apply (bool_decide_unpack _). vm_compute. exact I.
  - intros H.
    assert (∃ w', handle id id EPrev (demo_window ["A"; "B"; "C"] 1) = Ret w'
                  ∧ image_files w' ≠ []
                  ∧ current_index w' ≠ current_index (demo_window ["A"; "B"; "C"] 1)
                  ∧ spec_neighbor_path (-1) w' = Some "C"
                  ∧ OrderedDict.lookup "C" (_items (cache w')) = None
                  ∧ "C" ∉ _inflight_loads w')
      as (w' & Hw & Hne & Hi & Hn & Hc & Hin).
    { eexists. split; [vm_compute; reflexivity|].
      split; [vm_compute; discriminate|]. split; [vm_compute; discriminate|].
      split; [vm_compute; reflexivity|]. split; [vm_compute; reflexivity|].
      apply (bool_decide_unpack _). vm_compute. exact I. }
    apply Hin. apply (H w' Hw Hne Hi (-1) "C"); [by left | exact Hn | exact Hc].
  - intros H.
    assert (∃ w', handle id id (EMoveSelection 1) (demo_window ["A"; "B"; "C"] 0) = Ret w'
                  ∧ image_files w' ≠ []
                  ∧ current_index w' ≠ current_index (demo_window ["A"; "B"; "C"] 0)
                  ∧ spec_neighbor_path 1 w' = Some "C"
                  ∧ neighbor_path 1 w' = Some "C"
                  ∧ OrderedDict.lookup "C" (_items (cache w')) = None
                  ∧ "C" ∉ _inflight_loads w')
      as (w' & Hw & Hne & Hi & Hn & _ & Hc & Hin).
    { eexists. split; [vm_compute; reflexivity|].
      split; [vm_compute; discriminate|]. split; [vm_compute; discriminate|].
      split; [vm_compute; reflexivity|]. split; [vm_compute; reflexivity|].
      split; [vm_compute; reflexivity|].
      apply (bool_decide_unpack _). vm_compute. exact I. }
    apply Hin. apply (H w' Hw Hne Hi 1 "C"); [by right | exact Hn | exact Hc].
Qed.

(** Files [[A; B; C]] with [B] selected and all three cached: the preload
    step starts no thread and reorders the cache. *)
Lemma preload_promotes_cached_neighbors_witness :
  let w := demo_cached ["A"; "B"; "C"] 1 ["A"; "C"; "B"] in
  cache_keys (cache w) = ["A"; "C"; "B"]
  ∧ ∃ w', _preload_neighbors w = Ret w'
          ∧ cache_keys (cache w') = ["B"; "A"; "C"]
          ∧ _loaders w' = [].
Proof.
  cbv zeta. split; [reflexivity|].
  destruct (preload_promotes_cached_neighbors
              (demo_cached ["A"; "B"; "C"] 1 ["A"; "C"; "B"]))
    as (w' & Hw & Heq & _ & Hk & _).
  exists w'. split; [exact Hw|]. split.
  - rewrite Hk. vm_compute. reflexivity.
  - rewrite Heq. vm_compute. reflexivity.
Defined.


(** ** Concrete instances of the further properties *)

Lemma demo_scanned_reachable : reachable id id demo_scanned.
Proof.
  eapply (reachable_step id id MainWindow_init
            (EScanned 0 "/pics"
               {| payload_files := ["/pics/a.jpg"; "/pics/b.png"]; payload_index := 1 |}));
    [apply reachable_init | exact I | vm_compute; reflexivity].
Qed.

Lemma demo_window_dispatch_inv (files : list string) (idx : Z) :
  dispatch_inv (demo_window files idx).
Proof.
  apply dispatch_inv_ext with (@MainWindow_init string); [done..|].
  apply MainWindow_init_inv.
Qed.

(** A full cache of capacity 2: the entry put is found again. *)
Lemma put_then_get_witness :
  let c := cache_run [CPut "a" (demo_image "a"); CPut "b" (demo_image "b")]
             (ImageCache_init 2) in
  (get "c" (put "c" (demo_image "c") c)).1 = Some (demo_image "c")
  ∧ last (cache_keys (put "c" (demo_image "c") c)) = Some "c".
Proof. cbv zeta. apply put_then_get. simpl. lia. Defined.

(** A cache asked for with capacity 0. *)
Lemma capacity_clamped_to_one_witness :
  _items (put "b" (demo_image "b")
            (cache_run [CPut "a" (demo_image "a")] (ImageCache_init 0)))
  = [("b", demo_image "b")].
Proof. apply capacity_clamped_to_one. lia. Defined.

(** The folder [/pics] enumerated forwards and backwards. *)
Lemma scan_order_independent_witness :
  FolderScanThread_run id demo_scandir (FolderScanThread_init id 1 "/pics" None)
  = FolderScanThread_run id demo_scandir_reversed (FolderScanThread_init id 1 "/pics" None).
Proof.
  apply (scan_order_independent id demo_scandir demo_scandir_reversed _
           demo_entries (reverse demo_entries));
    [reflexivity | reflexivity | symmetry; apply reverse_Permutation].
Defined.

(** The entry [b.PNG] of the demo folder. *)
Lemma listed_entry_shape_witness :
  ∃ stem ext,
    ext ∈ SUPPORTED_EXTENSIONS
    ∧ list_ascii_of_string (str_lower "b.PNG") = stem ++ list_ascii_of_string ext
    ∧ ∃ c, c ∈ stem ∧ c ≠ "."%char.
Proof.
  apply (listed_entry_shape
           {| entry_name := "b.PNG"; entry_path := "/pics/b.PNG"; entry_is_file := true |}).
  vm_compute. reflexivity.
Defined.

(** A request for [A] and the end of its thread. *)
Lemma request_then_finish_witness :
  let w := demo_window ["A"; "B"] 0 in
  _drop_loader {| th_request_id := 1; th_path := "A"; th_role := "main" |}
    (_request_load "A" "main" w).2
  = set_request_id 1 w.
Proof.
  cbv zeta.
  apply (proj2 (request_then_finish "A" "main" (demo_window ["A"; "B"] 0)
                  (demo_window_dispatch_inv _ _)
                  ltac:(apply (bool_decide_unpack _); vm_compute; exact I))).
Defined.

(** The two threads running after the scan result arrived. *)
Lemma request_ids_fresh_witness :
  NoDup (th_request_id <$> _loaders demo_scanned)
  ∧ ∀ t, t ∈ _loaders demo_scanned → th_request_id t ≤ _request_id demo_scanned.
Proof.
  destruct (request_ids_fresh id id demo_scanned demo_scanned_reachable)
    as (H1 & H2 & _).
  split; [exact H1 | exact H2].
Defined.

(** A preload of [B] that decodes, delivered while [A] is selected. *)
Lemma loader_result_delivered_witness :
  ∃ w', _on_loaded id 5 "B" (Some "pixels of B") (Some ∅) (Some ∅) "preload"
          (demo_window ["A"; "B"] 0) = Ret w'
        ∧ last (cache_keys (cache w')) = Some "B".
Proof.
  pose proof (loader_result_delivered id demo_decode
                {| th_request_id := 5; th_path := "B"; th_role := "preload" |}
                (demo_window ["A"; "B"] 0)
                ltac:(right; simpl; lia) ltac:(simpl; lia)) as H.
  simpl in H. destruct H as (_ & _ & _ & _ & _ & _ & w' & Hw & _ & Hlast).
  exists w'. split; [exact Hw | exact Hlast].
Defined.

(** [A] is selected, not cached, and has a preview. *)
Lemma load_current_cache_miss_witness :
  let w := set_thumb_preview (<["A" := "preview of A"]> ∅) (demo_window ["A"; "B"] 0) in
  ∃ w', load_current id w = Ret w'
        ∧ "A" ∈ _inflight_loads w'
        ∧ _item (viewer w') = Some "preview of A".
Proof.
  cbv zeta.
  destruct (load_current_cache_miss id
              (set_thumb_preview (<["A" := "preview of A"]> ∅) (demo_window ["A"; "B"] 0))
              "A" eq_refl eq_refl) as (w' & Hw & Hin & Hshow).
  simpl in Hshow. rewrite lookup_insert_eq in Hshow. destruct Hshow as (Hv & _ & _).
  exists w'. split; [exact Hw|]. split; [exact Hin|]. by rewrite Hv.
Defined.

(** Forth and back from the last of three files. *)
Lemma next_prev_inverse_witness :
  let w := demo_window ["A"; "B"; "C"] 2 in
  ∃ w1 w2, next_image id w = Ret w1 ∧ prev_image id w1 = Ret w2
           ∧ current_index w2 = 2.
Proof.
  cbv zeta.
  destruct (next_prev_inverse id (demo_window ["A"; "B"; "C"] 2) ltac:(simpl; lia))
    as [(w1 & w2 & H1 & H2 & Hi & _) _].
  exists w1, w2. split; [exact H1|]. split; [exact H2 | exact Hi].
Defined.

(** The current file of a list of two fails to decode. *)
Lemma file_list_changes_witness :
  let w := demo_window ["A"; "B"] 0 in
  ∃ w', handle id id (ELoaded 1 "A" None None None "main") w = Ret w'
        ∧ (image_files w ≠ [] → image_files w' ≠ []).
Proof.
  cbv zeta. eexists. split; [vm_compute; reflexivity|].
  apply (file_list_changes id id (ELoaded 1 "A" None None None "main")
           (demo_window ["A"; "B"] 0)).
  - right. simpl. lia.
  - vm_compute. reflexivity.
Defined.

(** The thumbnail index after the scan result arrived. *)
Lemma thumb_index_matches_list_witness :
  _thumb_index demo_scanned !! "/pics/b.png" = Some 1
  ↔ ∃ j : nat, 1 = Z.of_nat j ∧ image_files demo_scanned !! j = Some "/pics/b.png"
      ∧ ∀ j' : nat, (j < j')%nat → image_files demo_scanned !! j' ≠ Some "/pics/b.png".
Proof.
  apply (thumb_index_matches_list id id demo_scanned demo_scanned_reachable).
Defined.

(** A scan result arrives at the initial window. *)
Lemma scan_drops_old_thumbnails_witness :
  ∃ w', _on_scanned id 0 "/pics"
          {| payload_files := ["/pics/a.jpg"]; payload_index := 0 |}
          (@MainWindow_init string) = Ret w'
        ∧ _thumb_preview w' = ∅
        ∧ _thumb_token w' = 1.
Proof.
  destruct (scan_drops_old_thumbnails id "/pics"
              {| payload_files := ["/pics/a.jpg"]; payload_index := 0 |}
              (@MainWindow_init string) ltac:(simpl; discriminate))
    as (w' & Hw & Hp & Htok & _).
  exists w'. split; [exact Hw|]. split; [exact Hp | exact Htok].
Defined.

(** The cache of the window after the scan result arrived. *)
Lemma window_cache_bounded_witness :
  capacity (cache demo_scanned) = 15
  ∧ (length (_items (cache demo_scanned)) ≤ 15)%nat.
Proof.
  destruct (window_cache_bounded id id demo_scanned demo_scanned_reachable)
    as (_ & H1 & H2 & _).
  split; [exact H1 | exact H2].
Defined.

(** The next key pressed after the scan result arrived. *)
Lemma control_thread_never_raises_witness :
  ∃ w', handle id id ENext demo_scanned = Ret w' ∧ reachable id id w'.
Proof.
  apply (proj2 (control_thread_never_raises id id demo_scanned demo_scanned_reachable)
           ENext I).
Defined.
